(** * kobs: the cluster gateway ([pkg/api/clusters/cluster/cluster.go])

    A shallow embedding of the [cluster] package and the properties of its
    operations: name normalisation, the namespace cache, the resource
    forwarder, one-shot and streamed logs, the shell check of the terminal and the
    discovery of custom resource definitions.

    Conventions.
    - A Go [string] or [[]byte] is a [list ascii] (one [ascii] per byte).
    - A Go [(value, error)] pair is a [result].
    - [int64] and [time.Duration] are [Z] with the 64-bit wrap-around
      written out ([wrap64]), [int] is [Z] wrapped at the width it has on the
      platform ([wrap_int]); a [time.Time] is an instant in nanoseconds.
    - Calls to the Kubernetes API are events of type [Call]; the cluster
      answers them through an oracle and every call is recorded in a trace. *)

From Stdlib Require Import List Ascii String ZArith Lia Bool Arith PeanoNat.
From Stdlib Require Import Permutation.
Import ListNotations.

Set Implicit Arguments.

(** ** Go values *)

Definition bytes := list ascii.

(** [str "abc"] is the byte string of a literal. *)
Definition str (s : string) : bytes := list_ascii_of_string s.

Definition nl : ascii := ascii_of_nat 10.
Definition cr : ascii := ascii_of_nat 13.
Definition dash : ascii := "-"%char.

Definition bytes_eqb (a b : bytes) : bool :=
  if list_eq_dec ascii_dec a b then true else false.

Lemma bytes_eqb_eq a b : bytes_eqb a b = true <-> a = b.
Proof.
  unfold bytes_eqb. destruct (list_eq_dec ascii_dec a b); split; congruence.
Qed.

(** Go errors.  The sentinel values of [io] and [bufio] are constructors of
    their own; every other error carries its message. *)
Inductive error : Type :=
| EOF
| ErrBufferFull
| ErrNoProgress
| ErrorString (msg : bytes).

Inductive result (A : Type) : Type :=
| Ok (a : A)
| Err (e : error).
Arguments Ok {A} a.
Arguments Err {A} e.

Definition is_err {A} (r : result A) : bool :=
  match r with Ok _ => false | Err _ => true end.

(** ** 64-bit integers *)

Definition min_int64 : Z := - 2 ^ 63.
Definition max_int64 : Z := 2 ^ 63 - 1.

(** The value a signed 64-bit register holds after an operation whose exact
    result is [z]. *)
Definition wrap64 (z : Z) : Z := (z + 2 ^ 63) mod 2 ^ 64 - 2 ^ 63.

Definition in_int64 (z : Z) : Prop := (min_int64 <= z <= max_int64)%Z.

Lemma wrap64_id z : in_int64 z -> wrap64 z = z.
Proof.
  unfold in_int64, min_int64, max_int64, wrap64. intros H.
  rewrite Z.mod_small; lia.
Qed.

Lemma wrap64_range z : in_int64 (wrap64 z).
Proof.
  unfold in_int64, min_int64, max_int64, wrap64.
  pose proof (Z.mod_pos_bound (z + 2 ^ 63) (2 ^ 64)). lia.
Qed.

(** ** Name normalisation ([NewCluster], line 602)

    [name = strings.Trim(slugifyRe.ReplaceAllString(strings.ToLower(name), "-"), "-")]
    with [slugifyRe = regexp.MustCompile("[^a-z0-9]+")]. *)

Module Slug.

Definition byte_in (lo hi c : ascii) : bool :=
  (nat_of_ascii lo <=? nat_of_ascii c) && (nat_of_ascii c <=? nat_of_ascii hi).

(** [c < utf8.RuneSelf] *)
Definition is_ascii (c : ascii) : bool := nat_of_ascii c <? 128.

Definition is_upper (c : ascii) : bool := byte_in "A" "Z" c.

(** [c += 'a' - 'A'] on upper-case bytes. *)
Definition lower_byte (c : ascii) : ascii :=
  if is_upper c then ascii_of_nat (nat_of_ascii c + 32) else c.

(** The character class [a-z0-9] of [slugifyRe]; the expression matches its
    complement. *)
Definition is_slug_char (c : ascii) : bool :=
  byte_in "a" "z" c || byte_in "0" "9" c.

Section ToLower.

(** [strings.Map(unicode.ToLower, s)], the path [strings.ToLower] takes for
    a string with a byte outside ASCII.  The Unicode tables are not part of
    this development. *)
Variable unicode_lower : bytes -> bytes.

(** [strings.ToLower]: an ASCII-only string is lowered byte by byte
    (and returned as it is when it has no upper-case letter). *)
Definition ToLower (s : bytes) : bytes :=
  if forallb is_ascii s then map lower_byte s else unicode_lower s.

(** [slugifyRe.ReplaceAllString(s, "-")].  A match of [[^a-z0-9]+] is a
    maximal run of bytes outside [a-z0-9] (a multi-byte rune has no byte in
    that class, so runs of runes and runs of bytes coincide); [in_run] says
    that the run the scan is in has been replaced already. *)
Fixpoint replace_runs (in_run : bool) (s : bytes) : bytes :=
  match s with
  | [] => []
  | c :: s' =>
      if is_slug_char c then c :: replace_runs false s'
      else if in_run then replace_runs true s'
      else dash :: replace_runs true s'
  end.

Definition ReplaceAllString (s : bytes) : bytes := replace_runs false s.

(** [strings.TrimLeft(s, "-")] and [strings.TrimRight(s, "-")]. *)
Fixpoint TrimLeft (s : bytes) : bytes :=
  match s with
  | [] => []
  | c :: s' => if ascii_dec c dash then TrimLeft s' else s
  end.

Fixpoint TrimRight (s : bytes) : bytes :=
  match s with
  | [] => []
  | c :: s' =>
      match TrimRight s' with
      | [] => if ascii_dec c dash then [] else [c]
      | t => c :: t
      end
  end.

Definition Trim (s : bytes) : bytes := TrimRight (TrimLeft s).

Definition normalize (name : bytes) : bytes :=
  Trim (ReplaceAllString (ToLower name)).

End ToLower.

(** The shape of a normalised name: bytes of [a-z0-9] and single dashes
    between them.  [dash_ok] tells whether a dash may come next. *)
Fixpoint slug_shape (dash_ok : bool) (s : bytes) : bool :=
  match s with
  | [] => true
  | c :: s' =>
      if is_slug_char c then slug_shape true s'
      else if ascii_dec c dash then dash_ok && slug_shape false s'
      else false
  end.

End Slug.

(** ** The cluster and its environment *)

(** [time.Time] as an instant in nanoseconds, [time.Duration] as a signed
    64-bit count of nanoseconds.  Instants are not bounded: a [time.Time]
    counts seconds in 64 bits and spans far more than any [Duration], so
    moving an instant by a duration does not wrap; arithmetic on durations
    does, and is written with [wrap64]. *)
Definition Time := Z.
Definition Duration := Z.

Definition Second : Duration := 1000000000%Z.

(** [t.After(u)] and [t.Add(d)]. *)
Definition After (t u : Time) : bool := (u <? t)%Z.
Definition Add (t : Time) (d : Duration) : Time := (t + d)%Z.

(** The zero [time.Time] (1 January of year 1), counted from the Unix epoch. *)
Definition zero_Time : Time := (-62135596800 * 1000000000)%Z.

(** [Cache] (line 82). *)
Record Cache : Type := mkCache {
  namespaces : list bytes;
  namespacesLastFetch : Time
}.

Record CRDColumn : Type := mkCRDColumn {
  col_Description : bytes;
  col_JSONPath : bytes;
  col_Name : bytes;
  col_Type : bytes
}.

Record CRD : Type := mkCRD {
  Path : bytes;
  Resource : bytes;
  Title : bytes;
  Description : bytes;
  Scope : bytes;
  Columns : list CRDColumn
}.

(** [rest.Config]; only [Host] is read by this package. *)
Record Config : Type := mkConfig {
  Host : bytes
}.

(** [Cluster] (line 45).  The five client sets are handles on the cluster's
    API, which is the environment below. *)
Record Cluster : Type := mkCluster {
  cache : Cache;
  config : Config;
  name : bytes;
  crds : list CRD
}.

Definition set_cache (c : Cluster) (k : Cache) : Cluster :=
  mkCluster k (config c) (name c) (crds c).

Definition set_crds (c : Cluster) (l : list CRD) : Cluster :=
  mkCluster (cache c) (config c) (name c) l.

Definition GetName (c : Cluster) : bytes := name c.
Definition GetCRDs (c : Cluster) : list CRD := crds c.

(** *** Requests *)

Record Namespace : Type := mkNamespace {
  ObjectMeta_Name : bytes;
  ObjectMeta_UID : bytes
}.

Record NamespaceList : Type := mkNamespaceList {
  Items : list Namespace
}.

(** [corev1.PodLogOptions]; a nil [TailLines] is [None]. *)
Record PodLogOptions : Type := mkPodLogOptions {
  Container : bytes;
  SinceSeconds : Z;
  Previous : bool;
  Follow : bool;
  TailLines : option Z
}.

Inductive Verb : Type := GET | POST | PUT | PATCH | DELETE.

(** A [rest.Request] as its builder leaves it: a field is [Some] once the
    method of that name has been called. *)
Record Request : Type := mkRequest {
  rverb : Verb;
  rAbsPath : option bytes;
  rNamespace : option bytes;
  rResource : option bytes;
  rName : option bytes;
  rParams : list (bytes * bytes)
}.

Definition Get : Request := mkRequest GET None None None None [].
Definition AbsPath (p : bytes) (r : Request) : Request :=
  mkRequest (rverb r) (Some p) (rNamespace r) (rResource r) (rName r) (rParams r).
Definition Namespace_ (ns : bytes) (r : Request) : Request :=
  mkRequest (rverb r) (rAbsPath r) (Some ns) (rResource r) (rName r) (rParams r).
Definition Resource_ (rs : bytes) (r : Request) : Request :=
  mkRequest (rverb r) (rAbsPath r) (rNamespace r) (Some rs) (rName r) (rParams r).
Definition Name_ (n : bytes) (r : Request) : Request :=
  mkRequest (rverb r) (rAbsPath r) (rNamespace r) (rResource r) (Some n) (rParams r).
Definition Param (k v : bytes) (r : Request) : Request :=
  mkRequest (rverb r) (rAbsPath r) (rNamespace r) (rResource r) (rName r)
            (rParams r ++ [(k, v)]).

(** The body of a log stream as the network delivers it: the chunks still to
    come and the error that ends it ([io.EOF], or what broke the connection).
    An [io.Reader] may return that error together with the last bytes or by
    a read of its own, [(0, err)]; [end_with_last] says which. *)
Record Stream : Type := mkStream {
  chunks : list bytes;
  end_error : error;
  end_with_last : bool
}.

Record URL : Type := mkURL {
  url_Scheme : bytes;
  url_Host : bytes;
  url_Path : bytes;
  url_RawQuery : bytes
}.

(** The calls this package makes on a cluster, indexed by what they return.
    [DoRaw] returns Go's pair of a body and an error, either of which may be
    empty; [StartProcess] stands for [terminal.StartProcess], which opens the
    exec connection for a terminal session. *)
Inductive Call : Type -> Type :=
| NamespacesList : Call (result NamespaceList)
| DoRaw (r : Request) : Call (bytes * option error)
| PodLogsDoRaw (namespace pod : bytes) (o : PodLogOptions)
  : Call (bytes * option error)
| PodLogsStream (namespace pod : bytes) (o : PodLogOptions) : Call (result Stream)
| StartProcess (host : bytes) (reqURL : URL) (cmd : list bytes)
  : Call (option error).

Record Event : Type := event { ev_type : Type; ev_call : Call ev_type }.
Arguments event {ev_type} ev_call.

(** *** The environment

    [answer T k c] is the cluster's reply to call [c] when [k] calls were
    made before it, [now k] the [k]-th reading of the clock.  [calls] is the
    trace of calls made so far and [slept] the durations passed to
    [time.Sleep], both oldest first. *)
Record World : Type := mkWorld {
  answer : forall T : Type, nat -> Call T -> T;
  now : nat -> Time;
  calls : list Event;
  clock_reads : nat;
  slept : list Duration
}.

Definition M (A : Type) : Type := World -> A * World.

Definition ret {A} (a : A) : M A := fun w => (a, w).

Definition bind {A B} (m : M A) (f : A -> M B) : M B :=
  fun w => let (a, w') := m w in f a w'.

Declare Scope go_scope.
Delimit Scope go_scope with go.
Notation "x <- m ;; f" := (bind m (fun x => f))
  (at level 61, m at next level, right associativity) : go_scope.
Notation "m ;;; f" := (bind m (fun _ => f))
  (at level 61, right associativity) : go_scope.
Open Scope go_scope.

Definition call {T} (c : Call T) : M T :=
  fun w =>
    (answer w (List.length (calls w)) c,
     mkWorld (answer w) (now w) (calls w ++ [event c]) (clock_reads w) (slept w)).

Definition time_Now : M Time :=
  fun w =>
    (now w (clock_reads w),
     mkWorld (answer w) (now w) (calls w) (S (clock_reads w)) (slept w)).

Definition time_Sleep (d : Duration) : M unit :=
  fun w =>
    (tt, mkWorld (answer w) (now w) (calls w) (clock_reads w) (slept w ++ [d])).

(** ** The namespace cache ([GetNamespaces], line 107) *)

(** The loop of lines 123-125. *)
Definition namespace_names (l : NamespaceList) : list bytes :=
  fold_left (fun acc ns => acc ++ [ObjectMeta_Name ns]) (Items l) [].

(** [c.cache.namespacesLastFetch.After(time.Now().Add(-1 * cacheDuration))]
    at the instant [t] that [time.Now()] returned. *)
Definition cache_is_fresh (c : Cluster) (t : Time) (cacheDuration : Duration) : bool :=
  After (namespacesLastFetch (cache c)) (Add t (wrap64 (-1 * cacheDuration))).

Definition GetNamespaces (c : Cluster) (cacheDuration : Duration)
  : M (result (list bytes) * Cluster) :=
  t <- time_Now ;;
  if cache_is_fresh c t cacheDuration then
    ret (Ok (namespaces (cache c)), c)
  else
    r <- call NamespacesList ;;
    match r with
    | Err e => ret (Err e, c)
    | Ok namespaceList =>
        let names := namespace_names namespaceList in
        t' <- time_Now ;;
        ret (Ok names, set_cache c (mkCache names t'))
    end.

(** *** Concurrent callers

    [GetNamespaces] takes no lock, so calls made at the same time interleave
    at its reads and writes of the shared cluster.  A caller is at one of the
    points below; a step takes it to the next one. *)
Inductive Caller : Type :=
| AtEntry (cacheDuration : Duration)   (* before the test of line 110 *)
| AtList                               (* cache seen expired; before line 116 *)
| AtStoreList (names : list bytes)     (* before line 128 *)
| AtStoreTime (names : list bytes)     (* before line 129 *)
| Returned (r : result (list bytes)).

Definition step_caller (p : Caller) (c : Cluster) : M (Caller * Cluster) :=
  match p with
  | AtEntry cacheDuration =>
      t <- time_Now ;;
      if cache_is_fresh c t cacheDuration then
        ret (Returned (Ok (namespaces (cache c))), c)
      else ret (AtList, c)
  | AtList =>
      r <- call NamespacesList ;;
      match r with
      | Err e => ret (Returned (Err e), c)
      | Ok namespaceList => ret (AtStoreList (namespace_names namespaceList), c)
      end
  | AtStoreList names =>
      ret (AtStoreTime names,
           set_cache c (mkCache names (namespacesLastFetch (cache c))))
  | AtStoreTime names =>
      t' <- time_Now ;;
      ret (Returned (Ok names), set_cache c (mkCache (namespaces (cache c)) t'))
  | Returned r => ret (Returned r, c)
  end.

(** One caller run on its own for [fuel] steps. *)
Fixpoint run_caller (fuel : nat) (p : Caller) (c : Cluster) : M (Caller * Cluster) :=
  match fuel with
  | O => ret (p, c)
  | S fuel' => r <- step_caller p c ;; run_caller fuel' (fst r) (snd r)
  end.

Record System : Type := mkSystem {
  callers : list Caller;
  shared : Cluster;
  world : World
}.

Definition is_returned (p : Caller) : bool :=
  match p with Returned _ => true | _ => false end.

Fixpoint update {A : Type} (i : nat) (x : A) (l : list A) : list A :=
  match l, i with
  | [], _ => []
  | _ :: t, O => x :: t
  | h :: t, S j => h :: update j x t
  end.

(** Caller [i] takes its next step; [None] when there is no such caller or
    it has returned. *)
Definition step_system (i : nat) (s : System) : option System :=
  match nth_error (callers s) i with
  | None => None
  | Some p =>
      if is_returned p then None
      else
        let r := step_caller p (shared s) (world s) in
        Some (mkSystem (update i (fst (fst r)) (callers s)) (snd (fst r)) (snd r))
  end.

(** A schedule names the caller that moves at each step. *)
Fixpoint run (sched : list nat) (s : System) : option System :=
  match sched with
  | [] => Some s
  | i :: rest =>
      match step_system i s with
      | None => None
      | Some s' => run rest s'
      end
  end.

(** What a caller holds of the cluster's replies: nothing before its call,
    afterwards the result it will return. *)
Definition obtained (p : Caller) : list (result (list bytes)) :=
  match p with
  | AtEntry _ | AtList => []
  | AtStoreList names | AtStoreTime names => [Ok names]
  | Returned r => [r]
  end.

(** What [GetNamespaces] makes of a reply to its listing. *)
Definition reply_result (r : result NamespaceList) : result (list bytes) :=
  match r with
  | Ok namespaceList => Ok (namespace_names namespaceList)
  | Err e => Err e
  end.

(** The replies of the cluster to the next [m] listings after [w]. *)
Definition replies (w : World) (m : nat) : list (result (list bytes)) :=
  map (fun k => reply_result (answer w (List.length (calls w) + k) NamespacesList))
      (seq 0 m).

Definition past_entry (p : Caller) : Prop :=
  match p with AtEntry _ => False | _ => True end.

(** What holds of a system [s] reached from a system [s0] all of whose
    callers had seen the cache expired: the calls made since are listings,
    and their replies are held by the callers that have made them, one
    each. *)
Definition fetch_invariant (s0 s : System) : Prop :=
  Forall past_entry (callers s) /\
  List.length (callers s) = List.length (callers s0) /\
  answer (world s) = answer (world s0) /\
  exists m,
    calls (world s) = calls (world s0) ++ repeat (event NamespacesList) m /\
    Permutation (flat_map obtained (callers s)) (replies (world s0) m).

(** ** The resource forwarder ([GetResources], line 137) *)

Definition is_empty (s : bytes) : bool :=
  match s with [] => true | _ => false end.

(** [if err != nil { return nil, err }; return res, nil] *)
Definition forward (r : bytes * option error) : result bytes :=
  match snd r with
  | Some e => Err e
  | None => Ok (fst r)
  end.

Definition GetResources (c : Cluster)
    (namespace name path resource paramName param : bytes) : M (result bytes) :=
  if negb (is_empty name) then
    if negb (is_empty namespace) then
      r <- call (DoRaw (Name_ name (Resource_ resource
                         (Namespace_ namespace (AbsPath path Get))))) ;;
      ret (forward r)
    else
      r <- call (DoRaw (Name_ name (Resource_ resource (AbsPath path Get)))) ;;
      ret (forward r)
  else
    r <- call (DoRaw (Param paramName param (Resource_ resource
                       (Namespace_ namespace (AbsPath path Get))))) ;;
    ret (forward r).

(** ** One-shot logs ([GetLogs], line 216) *)

(** [strings.Split(s, sep)] for a separator of one byte, which is what both
    callers in this package pass. *)
Fixpoint Split (s : bytes) (sep : ascii) : list bytes :=
  match s with
  | [] => [[]]
  | c :: s' =>
      if ascii_dec c sep then [] :: Split s' sep
      else match Split s' sep with
           | [] => [[c]]
           | l :: ls => (c :: l) :: ls
           end
  end.

(** [strings.Join(elems, sep)] *)
Fixpoint Join (elems : list bytes) (sep : bytes) : bytes :=
  match elems with
  | [] => []
  | [e] => e
  | e :: rest => e ++ sep ++ Join rest sep
  end.

(** The terminator ["\n\r"] of lines 238 and 253. *)
Definition line_end : bytes := [nl; cr].

Section GetLogs.

(** Package [regexp]: compiled expressions, [regexp.Compile] and
    the method [MatchString] of a compiled expression. *)
Variable Regexp : Type.
Variable regexp_Compile : bytes -> result Regexp.
Variable MatchString : Regexp -> bytes -> bool.

(** The options of lines 217-225. *)
Definition GetLogs_options (container : bytes) (since tail : Z) (previous : bool)
  : PodLogOptions :=
  mkPodLogOptions container since previous false
                  (if (0 <? tail)%Z then Some tail else None).

(** The loops of lines 234-236 and 247-251. *)
Definition all_lines (res : bytes) : list bytes :=
  fold_left (fun logs line => logs ++ [line]) (Split res nl) [].

Definition matching_lines (reg : Regexp) (res : bytes) : list bytes :=
  fold_left (fun logs line => if MatchString reg line then logs ++ [line] else logs)
            (Split res nl) [].

Definition GetLogs (c : Cluster) (namespace name container regex : bytes)
    (since tail : Z) (previous : bool) : M (result bytes) :=
  let options := GetLogs_options container since tail previous in
  r <- call (PodLogsDoRaw namespace name options) ;;
  match snd r with
  | Some e => ret (Err e)
  | None =>
      let res := fst r in
      if is_empty regex then
        ret (Ok (Join (all_lines res) line_end ++ line_end))
      else
        match regexp_Compile regex with
        | Err e => ret (Err e)
        | Ok reg => ret (Ok (Join (matching_lines reg res) line_end ++ line_end))
        end
  end.

End GetLogs.

(** ** Streamed logs ([StreamLogs], line 258) *)

(** *** The caller's connection

    A [*websocket.Conn] as far as [StreamLogs] uses it: the text messages
    written to it, oldest first, and the number of writes it will still take
    before [WriteMessage] fails ([None]: it never fails). *)
Record Conn : Type := mkConn {
  written : list bytes;
  writes_left : option nat
}.

(** [conn.WriteMessage(websocket.TextMessage, data)] *)
Definition WriteMessage (conn : Conn) (data : bytes) : option error * Conn :=
  match writes_left conn with
  | Some O => (Some (ErrorString (str "websocket: close sent")), conn)
  | Some (S k) => (None, mkConn (written conn ++ [data]) (Some k))
  | None => (None, mkConn (written conn ++ [data]) None)
  end.

(** *** The body of the response: [io.Reader]

    [Read(p)] with [len(p) = n] hands out the next chunk, or the part of it
    that fits.  The read that hands out the last byte returns the error of
    the end with it when the stream says so; every read after the last byte
    returns [(0, err)]. *)
Definition stream_Read (n : nat) (s : Stream) : (bytes * option error) * Stream :=
  match chunks s with
  | [] => (([], Some (end_error s)), s)
  | chunk :: rest =>
      if List.length chunk <=? n then
        ((chunk,
          match rest with
          | [] => if end_with_last s then Some (end_error s) else None
          | _ :: _ => None
          end),
         mkStream rest (end_error s) (end_with_last s))
      else
        ((firstn n chunk, None),
         mkStream (skipn n chunk :: rest) (end_error s) (end_with_last s))
  end.

(** *** [bufio.Reader]

    [bufio.NewReaderSize(stream, 16)] (line 275): a buffer of 16 bytes, the
    least size [bufio] allows.  Of the buffer the model keeps the bytes read
    from the stream and not yet handed out, [b.buf[b.r:b.w]]. *)
Definition buf_size : nat := 16.

Definition maxConsecutiveEmptyReads : nat := 100.

Record Reader : Type := mkReader {
  rd : Stream;
  unread : bytes;
  rerr : option error
}.

Definition NewReaderSize (stream : Stream) : Reader := mkReader stream [] None.

(** [Reader.fill]: slide the unread bytes to the front of the buffer and
    read into the free space, trying again (up to 100 times) while a read
    returns no byte and no error. *)
Fixpoint fill_tries (i : nat) (b : Reader) : Reader :=
  match i with
  | O => mkReader (rd b) (unread b) (Some ErrNoProgress)
  | S i' =>
      let r := stream_Read (buf_size - List.length (unread b)) (rd b) in
      let data := fst (fst r) in
      match snd (fst r) with
      | Some e => mkReader (snd r) (unread b ++ data) (Some e)
      | None =>
          if 0 <? List.length data then mkReader (snd r) (unread b ++ data) (rerr b)
          else fill_tries i' (mkReader (snd r) (unread b ++ data) (rerr b))
      end
  end.

Definition fill (b : Reader) : Reader := fill_tries maxConsecutiveEmptyReads b.

(** [bytes.IndexByte] *)
Fixpoint index_byte (s : bytes) (c : ascii) : option nat :=
  match s with
  | [] => None
  | x :: s' =>
      if ascii_dec x c then Some 0
      else match index_byte s' c with
           | Some i => Some (S i)
           | None => None
           end
  end.

(** [Reader.ReadSlice(delim)]; [s] is the number of unread bytes searched
    already, [fuel] bounds the turns of its loop ([None]: the bound was
    reached). *)
Fixpoint ReadSlice_loop (fuel : nat) (s : nat) (delim : ascii) (b : Reader)
  : option ((bytes * option error) * Reader) :=
  match fuel with
  | O => None
  | S fuel' =>
      match index_byte (skipn s (unread b)) delim with
      | Some i =>
          let i := i + s in
          Some ((firstn (i + 1) (unread b), None),
                mkReader (rd b) (skipn (i + 1) (unread b)) (rerr b))
      | None =>
          match rerr b with
          | Some e => Some ((unread b, Some e), mkReader (rd b) [] None)
          | None =>
              if buf_size <=? List.length (unread b) then
                Some ((unread b, Some ErrBufferFull), mkReader (rd b) [] None)
              else ReadSlice_loop fuel' (List.length (unread b)) delim (fill b)
          end
      end
  end.

Definition ReadSlice (delim : ascii) (b : Reader)
  : option ((bytes * option error) * Reader) :=
  ReadSlice_loop (S buf_size) 0 delim b.

(** [len(line) > 0 && line[len(line)-1] == c] *)
Fixpoint ends_with (c : ascii) (line : bytes) : bool :=
  match line with
  | [] => false
  | [x] => if ascii_dec x c then true else false
  | _ :: line' => ends_with c line'
  end.

(** The end of [ReadLine]: drop the newline of a full line and the carriage
    return before it. *)
Definition drop_eol (line : bytes) : bytes :=
  if ends_with nl line then
    if ends_with cr (removelast line) then removelast (removelast line)
    else removelast line
  else line.

(** [Reader.ReadLine]: [(line, isPrefix, err)] and the reader after it.
    When the buffer is full and ends in a carriage return, that byte is put
    back for the next call. *)
Definition ReadLine (b : Reader) : option ((bytes * bool * option error) * Reader) :=
  match ReadSlice nl b with
  | None => None
  | Some (line, err, b') =>
      match err with
      | Some ErrBufferFull =>
          if ends_with cr line then
            Some ((removelast line, true, None),
                  mkReader (rd b') (cr :: unread b') (rerr b'))
          else Some ((line, true, None), b')
      | _ =>
          match line with
          | [] => Some (([], false, err), b')
          | _ :: _ => Some ((drop_eol line, false, None), b')
          end
      end
  end.

(** *** The loop of [StreamLogs] *)

(** Lines 284-295: the lines to write and the new [lastLine], from what
    [ReadLine] returned and the old [lastLine]. *)
Definition reassemble (data : bytes) (isPrefix : bool) (lastLine : bytes)
  : list bytes * bytes :=
  let lines := Split data cr in
  let lines :=
    if 0 <? List.length lastLine then (lastLine ++ hd [] lines) :: tl lines
    else lines in
  let lastLine := if 0 <? List.length lastLine then [] else lastLine in
  if isPrefix then (removelast lines, last lines [])
  else (lines, lastLine).

(** Lines 297-301. *)
Fixpoint write_all (lines : list bytes) (conn : Conn) : option error * Conn :=
  match lines with
  | [] => (None, conn)
  | line :: rest =>
      match WriteMessage conn line with
      | (Some e, conn') => (Some e, conn')
      | (None, conn') => write_all rest conn'
      end
  end.

(** The loop of line 278, for at most [fuel] turns: [Some (err, conn)] when
    it returned [err] within them, [None] when it is still running. *)
Fixpoint StreamLogs_loop (fuel : nat) (reader : Reader) (lastLine : bytes)
    (conn : Conn) : option (error * Conn) :=
  match fuel with
  | O => None
  | S fuel' =>
      match ReadLine reader with
      | None => None
      | Some (data, isPrefix, err, reader') =>
          match err with
          | Some e => Some (e, conn)
          | None =>
              let r := reassemble data isPrefix lastLine in
              match write_all (fst r) conn with
              | (Some e, conn') => Some (e, conn')
              | (None, conn') => StreamLogs_loop fuel' reader' (snd r) conn'
              end
          end
      end
  end.

Definition StreamLogs_options (container : bytes) (since tail : Z) (follow : bool)
  : PodLogOptions :=
  mkPodLogOptions container since false follow
                  (if (0 <? tail)%Z then Some tail else None).

(** [StreamLogs]; the stream is closed when the function returns
    ([defer stream.Close()], line 274). *)
Definition StreamLogs (fuel : nat) (c : Cluster) (conn : Conn)
    (namespace name container : bytes) (since tail : Z) (follow : bool)
  : M (option (error * Conn)) :=
  let options := StreamLogs_options container since tail follow in
  r <- call (PodLogsStream namespace name options) ;;
  match r with
  | Err e => ret (Some (e, conn))
  | Ok stream => ret (StreamLogs_loop fuel (NewReaderSize stream) [] conn)
  end.

(** The bytes a reader has still to hand out, and the readers the loop of
    [StreamLogs] meets on a stream of non-empty chunks: no more unread bytes
    than the buffer holds, and an error pending only when the last bytes of
    the stream came with it. *)
Definition remaining (b : Reader) : bytes := unread b ++ List.concat (chunks (rd b)).

Definition reader_ok (b : Reader) : Prop :=
  Forall (fun chunk => chunk <> []) (chunks (rd b)) /\
  List.length (unread b) <= buf_size /\
  end_error (rd b) <> ErrBufferFull /\
  match rerr b with
  | None => end_with_last (rd b) = true -> chunks (rd b) = [] -> unread b = []
  | Some e =>
      e = end_error (rd b) /\ chunks (rd b) = [] /\ end_with_last (rd b) = true
  end.

(** The error a read returns at the end of the stream, for the end of file
    the loop on the whole log stands for it. *)
Definition at_end (e : error) (err : option error) : option error :=
  match err with
  | Some EOF => Some e
  | _ => err
  end.

(** *** The same loop on the log read whole

    What [ReadSlice] and [ReadLine] return when all the bytes still to come,
    [R], are at hand, and what is left of [R] afterwards; [together] says
    that the end of the stream comes with its last bytes, so that a buffer
    filled by these is not taken for the beginning of a longer line.  The
    end of the stream is written [io.EOF] here, whatever its error. *)
Definition read_slice_whole (together : bool) (R : bytes)
  : (bytes * option error) * bytes :=
  match index_byte (firstn buf_size R) nl with
  | Some i => ((firstn (S i) R, None), skipn (S i) R)
  | None =>
      if (if together then S buf_size else buf_size) <=? List.length R
      then ((firstn buf_size R, Some ErrBufferFull), skipn buf_size R)
      else ((R, Some EOF), [])
  end.

Definition read_line_whole (together : bool) (R : bytes)
  : (bytes * bool * option error) * bytes :=
  let '(line, err, R') := read_slice_whole together R in
  match err with
  | Some ErrBufferFull =>
      if ends_with cr line then ((removelast line, true, None), cr :: R')
      else ((line, true, None), R')
  | _ =>
      match line with
      | [] => (([], false, err), R')
      | _ :: _ => ((drop_eol line, false, None), R')
      end
  end.

Fixpoint whole_loop (together : bool) (fuel : nat) (R : bytes) (lastLine : bytes)
  : list bytes :=
  match fuel with
  | O => []
  | S fuel' =>
      let '(data, isPrefix, err, R') := read_line_whole together R in
      match err with
      | Some _ => []
      | None =>
          let r := reassemble data isPrefix lastLine in
          fst r ++ whole_loop together fuel' R' (snd r)
      end
  end.

(** The messages [StreamLogs] writes for the log [s], whatever the chunks it
    arrives in. *)
Definition emitted (together : bool) (s : bytes) : list bytes :=
  whole_loop together (S (List.length s)) s [].

(** [lines[0] = lastLine + lines[0]] *)
Definition prefix_first (lastLine : bytes) (lines : list bytes) : list bytes :=
  (lastLine ++ hd [] lines) :: tl lines.

(** A line without the carriage return of its line end. *)
Definition strip_cr (line : bytes) : bytes :=
  if ends_with cr line then removelast line else line.

(** *** The lines of a log, from the words of the specification

    "Lines may be split both by newline and by carriage-return": a newline
    ends a line, and so does a carriage return; a carriage return directly
    before a newline forms one line end with it.  Bytes after the last line
    end are a last line. *)
Fixpoint split_terminated (cur : bytes) (s : bytes) : list bytes :=
  match s with
  | [] => match cur with [] => [] | _ :: _ => [cur] end
  | c :: s' =>
      if ascii_dec c nl then cur :: split_terminated [] s'
      else if ascii_dec c cr then
        match s' with
        | [] => [cur]
        | c' :: s'' =>
            if ascii_dec c' nl then cur :: split_terminated [] s''
            else cur :: split_terminated [] s'
        end
      else split_terminated (cur ++ [c]) s'
  end.

Definition split_lines (s : bytes) : list bytes := split_terminated [] s.

(** A log every line of which is ended by a newline. *)
Definition newline_terminated (s : bytes) : Prop := s = [] \/ ends_with nl s = true.

(** ** The terminal ([GetTerminal], line 306) *)

Module terminal.

(** Modelled from the spec: the allow-list of [terminal.IsValidShell]; the
    package [terminal] is not among the sources.  The specification names the
    shells [sh] and [bash] as allowed and [zsh] as not allowed. *)
Definition validShells : list bytes := [str "bash"; str "sh"].

(** Modelled from the spec: [terminal.IsValidShell], a check of the shell
    "against a fixed allow-list". *)
Definition IsValidShell (shell : bytes) : bool :=
  existsb (bytes_eqb shell) validShells.

End terminal.

Section GetTerminal.

(** [url.Parse] *)
Variable url_Parse : bytes -> result URL.

(** The request URL of line 307. *)
Definition exec_url (c : Cluster) (namespace name container shell : bytes) : bytes :=
  Host (config c) ++ str "/api/v1/namespaces/" ++ namespace ++ str "/pods/" ++ name
  ++ str "/exec?container=" ++ container ++ str "&command=" ++ shell
  ++ str "&stdin=true&stdout=true&stderr=true&tty=true".

(** The session of lines 316-319 wraps the caller's connection and is handed
    to [terminal.StartProcess] as it is; it is left out of the call. *)
Definition GetTerminal (c : Cluster) (namespace name container shell : bytes)
  : M (option error) :=
  match url_Parse (exec_url c namespace name container shell) with
  | Err e => ret (Some e)
  | Ok reqURL =>
      if negb (terminal.IsValidShell shell) then
        ret (Some (ErrorString (str "invalid shell " ++ shell)))
      else
        let cmd := [shell] in
        call (StartProcess (Host (config c)) reqURL cmd)
  end.

End GetTerminal.

(** ** Discovery of custom resource definitions ([loadCRDs], line 508) *)

(** The parts of [apiextensionsv1.CustomResourceDefinitionList] the package
    reads, with the [served] and [storage] flags every version carries.  A
    nil pointer is [None]; a nil slice is the empty list. *)
Record CustomResourceColumnDefinition : Type := mkColumnDefinition {
  pcol_Name : bytes;
  pcol_Type : bytes;
  pcol_Format : bytes;
  pcol_Description : bytes;
  pcol_Priority : Z;
  pcol_JSONPath : bytes
}.

Record JSONSchemaProps : Type := mkJSONSchemaProps {
  schema_Description : bytes;
  schema_Type : bytes
}.

Record CustomResourceValidation : Type := mkValidation {
  OpenAPIV3Schema : option JSONSchemaProps
}.

Record CustomResourceDefinitionVersion : Type := mkVersion {
  ver_Name : bytes;
  Served : bool;
  Storage : bool;
  Schema : option CustomResourceValidation;
  AdditionalPrinterColumns : list CustomResourceColumnDefinition
}.

Record CustomResourceDefinitionNames : Type := mkNames {
  Plural : bytes;
  Singular : bytes;
  Kind : bytes;
  ListKind : bytes
}.

Record CustomResourceDefinitionSpec : Type := mkSpec {
  Group : bytes;
  Names : CustomResourceDefinitionNames;
  spec_Scope : bytes;
  Versions : list CustomResourceDefinitionVersion
}.

Record CustomResourceDefinition : Type := mkDefinition {
  Spec : CustomResourceDefinitionSpec
}.

Record CustomResourceDefinitionList : Type := mkDefinitionList {
  crd_Items : list CustomResourceDefinition
}.

(** Lines 535-538. *)
Definition version_description (version : CustomResourceDefinitionVersion) : bytes :=
  match Schema version with
  | Some schema =>
      match OpenAPIV3Schema schema with
      | Some props => schema_Description props
      | None => []
      end
  | None => []
  end.

(** Lines 540-550. *)
Definition version_columns (version : CustomResourceDefinitionVersion)
  : list CRDColumn :=
  fold_left
    (fun columns column =>
       columns ++ [mkCRDColumn (pcol_Description column) (pcol_JSONPath column)
                               (pcol_Name column) (pcol_Type column)])
    (AdditionalPrinterColumns version) [].

(** The entry appended at lines 552-559. *)
Definition crd_entry (crd : CustomResourceDefinition)
    (version : CustomResourceDefinitionVersion) : CRD :=
  mkCRD (Group (Spec crd) ++ str "/" ++ ver_Name version)
        (Plural (Names (Spec crd)))
        (Kind (Names (Spec crd)))
        (version_description version)
        (spec_Scope (Spec crd))
        (version_columns version).

(** The loop over the versions of one definition (lines 534-560) and the
    loop over the definitions (lines 533-561), on the list [c.crds]. *)
Definition append_versions (crds0 : list CRD) (crd : CustomResourceDefinition)
  : list CRD :=
  fold_left (fun acc version => acc ++ [crd_entry crd version])
            (Versions (Spec crd)) crds0.

Definition append_definitions (crds0 : list CRD) (crdList : CustomResourceDefinitionList)
  : list CRD :=
  fold_left append_versions (crd_Items crdList) crds0.

Definition crds_request : Request :=
  AbsPath (str "apis/apiextensions.k8s.io/v1/customresourcedefinitions") Get.

(** Go's [int] is 32 or 64 bits wide, by the platform the program is built
    for: the images of the repository are built for 386 and arm as well as
    for amd64 and arm64. *)
Inductive IntSize : Type := Int32bit | Int64bit.

Definition int_bits (size : IntSize) : Z :=
  match size with
  | Int32bit => 32
  | Int64bit => 64
  end.

Definition max_int (size : IntSize) : Z := 2 ^ (int_bits size - 1) - 1.

Definition wrap_int (size : IntSize) (z : Z) : Z :=
  (z + 2 ^ (int_bits size - 1)) mod 2 ^ int_bits size - 2 ^ (int_bits size - 1).

(** [offset = offset * 2] on Go's [int]. *)
Definition double_offset (size : IntSize) (offset : Z) : Z :=
  wrap_int size (offset * 2).

(** [time.Duration(offset) * time.Second] *)
Definition offset_seconds (offset : Z) : Duration := wrap64 (offset * Second).

Section loadCRDs.

(** The width of [int] on the platform. *)
Variable int_size : IntSize.

(** [json.Unmarshal] into a [CustomResourceDefinitionList]. *)
Variable json_Unmarshal : bytes -> result CustomResourceDefinitionList.

(** One turn of the loop of line 511 with the backoff at [offset] seconds:
    [Some offset'] when the turn ends in [continue], [None] when it ends in
    [break]. *)
Definition loadCRDs_attempt (offset : Z) (c : Cluster) : M (option Z * Cluster) :=
  r <- call (DoRaw crds_request) ;;
  match snd r with
  | Some _ =>
      time_Sleep (offset_seconds offset) ;;;
      ret (Some (double_offset int_size offset), c)
  | None =>
      match json_Unmarshal (fst r) with
      | Err _ =>
          time_Sleep (offset_seconds offset) ;;;
          ret (Some (double_offset int_size offset), c)
      | Ok crdList =>
          ret (None, set_crds c (append_definitions (crds c) crdList))
      end
  end.

(** At most [fuel] turns of the loop.  [(None, c')]: the loop was left and
    [loadCRDs] returned; [(Some offset, c')]: it is still running, about to
    make its next attempt with that backoff. *)
Fixpoint loadCRDs_from (fuel : nat) (offset : Z) (c : Cluster)
  : M (option Z * Cluster) :=
  match fuel with
  | O => ret (Some offset, c)
  | S fuel' =>
      r <- loadCRDs_attempt offset c ;;
      match fst r with
      | None => ret r
      | Some offset' => loadCRDs_from fuel' offset' (snd r)
      end
  end.

Definition loadCRDs (fuel : nat) (c : Cluster) : M (option Z * Cluster) :=
  loadCRDs_from fuel 30 c.

(** Whether the attempt that makes call number [k] fails: the request or the
    decoding of its body returns an error. *)
Definition attempt_fails (w : World) (k : nat) : bool :=
  let r := answer w k (DoRaw crds_request) in
  match snd r with
  | Some _ => true
  | None => is_err (json_Unmarshal (fst r))
  end.

End loadCRDs.

(** The backoff in seconds before the retry that follows failure number
    [k + 1], and the duration handed to [time.Sleep] for it. *)
Definition backoff_offset (size : IntSize) (k : nat) : Z :=
  Nat.iter k (double_offset size) 30%Z.

Definition backoff_sleep (size : IntSize) (k : nat) : Duration :=
  offset_seconds (backoff_offset size k).

(** The number of sleeps that last what the doubling says: from the next one
    on, the count of seconds has left the range of [int] (where that is 32
    bits wide) or the count of nanoseconds that of [time.Duration]. *)
Definition exact_sleeps (size : IntSize) : nat :=
  match size with
  | Int32bit => 27
  | Int64bit => 29
  end.

(** The world after [n] failed attempts that began with backoff [offset],
    and the world after one more request for the definitions. *)
Definition after_failures (size : IntSize) (n : nat) (offset : Z) (w : World)
  : World :=
  mkWorld (answer w) (now w)
          (calls w ++ repeat (event (DoRaw crds_request)) n)
          (clock_reads w)
          (slept w
           ++ map (fun k => offset_seconds (Nat.iter k (double_offset size) offset))
                  (seq 0 n)).

Definition after_request (w : World) : World :=
  mkWorld (answer w) (now w) (calls w ++ [event (DoRaw crds_request)])
          (clock_reads w) (slept w).

(** [NewCluster] (line 571).  [NewForConfig] stands for the five client set
    constructors, called in the order of the source; the first error is
    returned.  The new cluster has no definitions and a zero cache;
    [loadCRDs] is started on it in the background. *)
Inductive Clientset : Type :=
| KubernetesClientset | ApplicationClientset | TeamClientset
| DashboardClientset | UserClientset.

Section NewCluster.

Variable unicode_lower : bytes -> bytes.
Variable NewForConfig : Clientset -> Config -> option error.

Fixpoint first_error (l : list Clientset) (restConfig : Config) : option error :=
  match l with
  | [] => None
  | k :: l' =>
      match NewForConfig k restConfig with
      | Some e => Some e
      | None => first_error l' restConfig
      end
  end.

Definition NewCluster (name : bytes) (restConfig : Config) : result Cluster :=
  match first_error [KubernetesClientset; ApplicationClientset; TeamClientset;
                     DashboardClientset; UserClientset] restConfig with
  | Some e => Err e
  | None =>
      Ok (mkCluster (mkCache [] zero_Time) restConfig
                    (Slug.normalize unicode_lower name) [])
  end.

End NewCluster.

(** Following the words of the specification: "one CRD entry per version"
    of "each definition's served API versions".  Used only to compare the
    wording with [append_definitions]. *)
Definition served_entries (crdList : CustomResourceDefinitionList) : list CRD :=
  flat_map (fun crd => map (crd_entry crd) (filter Served (Versions (Spec crd))))
           (crd_Items crdList).

(** *** A small concrete environment

    A cluster whose replies are given per kind of call, by the number of
    calls made before, under a clock read through [clock]. *)
Record Replies : Type := mkReplies {
  on_NamespacesList : nat -> result NamespaceList;
  on_DoRaw : nat -> bytes * option error;
  on_PodLogsDoRaw : nat -> bytes * option error;
  on_PodLogsStream : nat -> result Stream;
  on_StartProcess : nat -> option error
}.

Definition cluster_api (r : Replies) : forall T : Type, nat -> Call T -> T :=
  fun T k c =>
    match c in Call T0 return T0 with
    | NamespacesList => on_NamespacesList r k
    | DoRaw _ => on_DoRaw r k
    | PodLogsDoRaw _ _ _ => on_PodLogsDoRaw r k
    | PodLogsStream _ _ _ => on_PodLogsStream r k
    | StartProcess _ _ _ => on_StartProcess r k
    end.

Definition api_world (r : Replies) (clock : nat -> Time) : World :=
  mkWorld (cluster_api r) clock [] 0 [].

Definition quiet : Replies :=
  mkReplies (fun _ => Ok (mkNamespaceList [])) (fun _ => ([], None))
            (fun _ => ([], None)) (fun _ => Ok (mkStream [] EOF false))
            (fun _ => None).

Definition demo_world (ns_reply : nat -> result NamespaceList) (clock : nat -> Time)
  : World :=
  api_world (mkReplies ns_reply (on_DoRaw quiet) (on_PodLogsDoRaw quiet)
                       (on_PodLogsStream quiet) (on_StartProcess quiet)) clock.

Definition logs_world (payload : bytes * option error) : World :=
  api_world (mkReplies (on_NamespacesList quiet) (on_DoRaw quiet)
                       (fun _ => payload)
                       (on_PodLogsStream quiet) (on_StartProcess quiet))
            (fun _ => 0%Z).

Definition demo_cluster (cached : list bytes) (lastFetch : Time) : Cluster :=
  mkCluster (mkCache cached lastFetch) (mkConfig (str "https://k8s.local"))
            (str "demo") [].

Definition demo_namespaces : NamespaceList :=
  mkNamespaceList [mkNamespace (str "default") (str "u1");
                   mkNamespace (str "kube-system") (str "u2")].

(** A stand-in for package [regexp]: an expression is a literal to be found
    at the start of the line, and the expression ["("] does not compile. *)
Fixpoint has_prefix (p s : bytes) : bool :=
  match p, s with
  | [], _ => true
  | _ :: _, [] => false
  | a :: p', b :: s' => if ascii_dec a b then has_prefix p' s' else false
  end.

Definition demo_Compile (regex : bytes) : result bytes :=
  if bytes_eqb regex (str "(") then Err (ErrorString (str "missing closing )"))
  else Ok regex.

(** A stand-in for [url.Parse] that accepts every string. *)
Definition demo_Parse (s : bytes) : result URL := Ok (mkURL [] [] s []).

(** One of the checks of [url.Parse]: before the query (the first [?]), a
    [%] must be followed by two hexadecimal digits, or the call fails with
    an [url.EscapeError].  [escape_Parse] makes this check and no other. *)
Definition is_hex (c : ascii) : bool :=
  Slug.byte_in "0" "9" c || Slug.byte_in "a" "f" c || Slug.byte_in "A" "F" c.

Fixpoint bad_escape (s : bytes) : bool :=
  match s with
  | [] => false
  | c :: s' =>
      if ascii_dec c "?" then false
      else if ascii_dec c "%" then
        match s' with
        | a :: b :: _ => negb (is_hex a && is_hex b) || bad_escape s'
        | _ => true
        end
      else bad_escape s'
  end.

Definition escape_Parse (s : bytes) : result URL :=
  if bad_escape s then Err (ErrorString (str "invalid URL escape"))
  else Ok (mkURL [] [] s []).

(** Two definitions with three versions between them, one of which is not
    served, and a decoder that knows one body. *)
Definition demo_crds : CustomResourceDefinitionList :=
  mkDefinitionList
    [mkDefinition
       (mkSpec (str "kobs.io") (mkNames (str "teams") (str "team") (str "Team")
                                        (str "TeamList"))
               (str "Namespaced")
               [mkVersion (str "v1beta1") true true
                          (Some (mkValidation
                                   (Some (mkJSONSchemaProps (str "Team is the Team CRD.")
                                                            (str "object")))))
                          [mkColumnDefinition (str "Age") (str "date") [] (str "age") 0
                                              (str ".metadata.creationTimestamp")];
                mkVersion (str "v1alpha1") false false None []]);
     mkDefinition
       (mkSpec (str "kobs.io") (mkNames (str "users") (str "user") (str "User")
                                        (str "UserList"))
               (str "Namespaced")
               [mkVersion (str "v1beta1") true true (Some (mkValidation None)) []])].

Definition demo_Unmarshal (body : bytes) : result CustomResourceDefinitionList :=
  if bytes_eqb body (str "crds") then Ok demo_crds
  else Err (ErrorString (str "unexpected end of JSON input")).

(** A cluster whose first [failures] answers to a raw request are errors and
    whose later answers carry the body [crds]. *)
Definition crds_world (failures : nat) : World :=
  api_world (mkReplies (on_NamespacesList quiet)
                       (fun k => if k <? failures
                                 then ([], Some (ErrorString (str "timeout")))
                                 else (str "crds", None))
                       (on_PodLogsDoRaw quiet)
                       (on_PodLogsStream quiet) (on_StartProcess quiet))
            (fun _ => 0%Z).

Definition no_error (k : Clientset) (restConfig : Config) : option error := None.

(** A cluster in which a namespace appears between the first listing and
    the second, and two callers that arrive with a time to live of 60
    nanoseconds at a cache that was filled 100 nanoseconds ago. *)
Definition growing_namespaces (k : nat) : result NamespaceList :=
  if k =? 0 then Ok (mkNamespaceList [mkNamespace (str "default") (str "u1")])
  else Ok demo_namespaces.

Definition two_callers : System :=
  mkSystem [AtEntry 60%Z; AtEntry 60%Z] (demo_cluster [str "old"] 0%Z)
           (demo_world growing_namespaces (fun _ => 100%Z)).

Definition two_stale_callers : System :=
  mkSystem [AtList; AtList] (demo_cluster [str "old"] 0%Z)
           (demo_world growing_namespaces (fun _ => 100%Z)).

(** A log of one line of 16 bytes without a line end, and a cluster that
    streams a given body. *)
Definition sixteen : bytes := str "aaaaaaaaaaaaaaaa".

(** A body that ends in [io.EOF], returned by a read of its own or together
    with the last bytes. *)
Definition eof_after (log : list bytes) : Stream := mkStream log EOF false.
Definition eof_with (log : list bytes) : Stream := mkStream log EOF true.

Definition stream_world (body : result Stream) : World :=
  api_world (mkReplies (on_NamespacesList quiet) (on_DoRaw quiet)
                       (on_PodLogsDoRaw quiet) (fun _ => body)
                       (on_StartProcess quiet))
            (fun _ => 0%Z).

Definition open_conn : Conn := mkConn [] None.

(** * Further code of the package *)

(** ** Streamed logs: the writes *)

(** What the loop of [StreamLogs] makes of the messages it has to write
    (lines 297-301 over the turns of the loop): it writes them in order until
    a write fails and returns the error of that write, or the error of the
    read that ended the stream when no write fails. *)
Definition deliver (end_err : error) (lines : list bytes) (conn : Conn)
  : error * Conn :=
  match write_all lines conn with
  | (Some e, conn') => (e, conn')
  | (None, conn') => (end_err, conn')
  end.

(** Whether a last line of [n] bytes with no line end after it is lost.
    When the end of the stream comes by a read of its own, a line that fills
    the buffer a whole number of times is; when it comes together with the
    last bytes, no line is (there is none when [n] is 0). *)
Definition last_line_lost (together : bool) (n : nat) : bool :=
  if together then n =? 0 else n mod buf_size =? 0.

(** The error of [WriteMessage] on a connection that takes no more writes. *)
Definition write_error : error := ErrorString (str "websocket: close sent").

(** A message without a line end in it. *)
Definition no_line_end (m : bytes) : Prop :=
  index_byte m nl = None /\ index_byte m cr = None.

(** A byte that is not a line end. *)
Definition not_line_end (c : ascii) : bool :=
  if ascii_dec c nl then false else if ascii_dec c cr then false else true.

(** ** One-shot logs: the text returned *)

(** The bytes [GetLogs] returns for one byte of the payload when no
    expression is given. *)
Definition after_newline (c : ascii) : bytes :=
  if ascii_dec c nl then [nl; cr] else [c].

(** A canonical cluster name, said without the code's passes: only
    lower-case letters, digits and dashes, no dash at either end, no two
    dashes in a row. *)
Definition is_dash (c : ascii) : bool := if ascii_dec c dash then true else false.

Definition starts_with_dash (s : bytes) : bool :=
  match s with
  | c :: _ => is_dash c
  | [] => false
  end.

Fixpoint double_dash (s : bytes) : bool :=
  match s with
  | [] => false
  | a :: s' => (is_dash a && starts_with_dash s') || double_dash s'
  end.

Definition canonical (s : bytes) : bool :=
  forallb (fun c => Slug.is_slug_char c || is_dash c) s
  && negb (starts_with_dash s)
  && negb (ends_with dash s)
  && negb (double_dash s).

(** No byte of [s] is a lower-case letter or a digit. *)
Definition no_slug_char (s : bytes) : bool :=
  forallb (fun c => negb (Slug.is_slug_char c)) s.

(** The time [loadCRDs] has spent in [time.Sleep] so far. *)
Definition total_sleep (w : World) : Z := fold_right Z.add 0%Z (slept w).

(** ** The custom resources of kobs ([GetApplications], line 349, to
    [GetDashboard], line 464)

    A spec carries the three fields the package writes ([Cluster],
    [Namespace], [Name], and [Title] for a dashboard) and whatever else the
    resource holds, which the package hands on as it is.  The typed clients
    are given by their [List] and [Get]. *)

Section Applications.

Variable ApplicationFields : Type.

Record ApplicationSpec : Type := mkApplicationSpec {
  app_Cluster : bytes;
  app_Namespace : bytes;
  app_Name : bytes;
  app_fields : ApplicationFields
}.

Record Application : Type := mkApplication {
  app_meta_Namespace : bytes;
  app_meta_Name : bytes;
  app_Spec : ApplicationSpec
}.

Record ApplicationList : Type := mkApplicationList {
  app_Items : list Application
}.

Variable Applications_List : bytes -> result ApplicationList.
Variable Applications_Get : bytes -> bytes -> result Application.

Definition GetApplications (c : Cluster) (namespace : bytes)
  : result (list ApplicationSpec) :=
  match Applications_List namespace with
  | Err err => Err err
  | Ok applicationsList =>
      Ok (fold_left
            (fun applications applicationItem =>
               let application := app_Spec applicationItem in
               let application := mkApplicationSpec (name c)
                                    (app_meta_Namespace applicationItem)
                                    (app_meta_Name applicationItem)
                                    (app_fields application) in
               applications ++ [application])
            (app_Items applicationsList) [])
  end.

Definition GetApplication (c : Cluster) (namespace name_ : bytes)
  : result ApplicationSpec :=
  match Applications_Get namespace name_ with
  | Err err => Err err
  | Ok applicationCR =>
      let application := app_Spec applicationCR in
      Ok (mkApplicationSpec (name c) namespace name_ (app_fields application))
  end.

End Applications.

Section Dashboards.

Variable DashboardFields : Type.

Record DashboardSpec : Type := mkDashboardSpec {
  dash_Cluster : bytes;
  dash_Namespace : bytes;
  dash_Name : bytes;
  dash_Title : bytes;
  dash_fields : DashboardFields
}.

Record Dashboard : Type := mkDashboard {
  dash_meta_Namespace : bytes;
  dash_meta_Name : bytes;
  dash_Spec : DashboardSpec
}.

Record DashboardList : Type := mkDashboardList {
  dash_Items : list Dashboard
}.

Variable Dashboards_List : bytes -> result DashboardList.
Variable Dashboards_Get : bytes -> bytes -> result Dashboard.

Definition GetDashboards (c : Cluster) (namespace : bytes)
  : result (list DashboardSpec) :=
  match Dashboards_List namespace with
  | Err err => Err err
  | Ok dashboardsList =>
      Ok (fold_left
            (fun dashboards dashboardItem =>
               let dashboard := dash_Spec dashboardItem in
               let dashboard := mkDashboardSpec (name c)
                                  (dash_meta_Namespace dashboardItem)
                                  (dash_meta_Name dashboardItem)
                                  (dash_meta_Name dashboardItem)
                                  (dash_fields dashboard) in
               dashboards ++ [dashboard])
            (dash_Items dashboardsList) [])
  end.

Definition GetDashboard (c : Cluster) (namespace name_ : bytes)
  : result DashboardSpec :=
  match Dashboards_Get namespace name_ with
  | Err err => Err err
  | Ok dashboardCR =>
      let dashboard := dash_Spec dashboardCR in
      Ok (mkDashboardSpec (name c) namespace name_ name_ (dash_fields dashboard))
  end.

End Dashboards.

(** ** The ClickHouse plugin ([getInstance], plugins/clickhouse/clickhouse.go)

    The router holds its instances in the order of the configuration;
    [getInstance] returns the first one of the given name, [None] for Go's
    [nil]. *)

Module clickhouse.

Section Router.

Variable Instance : Type.
Variable Name : Instance -> bytes.

Fixpoint getInstance (instances : list Instance) (name : bytes) : option Instance :=
  match instances with
  | [] => None
  | i :: instances' =>
      if bytes_eqb (Name i) name then Some i else getInstance instances' name
  end.

End Router.

End clickhouse.

(** ** The chart of traces (Jaeger plugin, [TracesChart], src/unnamed/part_004)

    The callback of [useMemo] (lines 33-77): one pass over the traces that
    collects the data of the scatter plot and the bounds of the chart.  The
    numbers the pass compares are JavaScript numbers that hold integers (the
    length of an array, a time in microseconds), modelled as [Z]; a quotient
    that need not be an integer and the sort of the library are left to the
    environment.  Reading [startTime] of the first span of a trace without
    spans throws a [TypeError], modelled as [None]. *)

Module TracesChart.

Section Chart.

Variable Number : Type.

(** [n / 1000] in floating point. *)
Variable div1000 : Z -> Number.

Record ISpan : Type := mkSpan {
  span_startTime : Z
}.

Record ITrace : Type := mkTrace {
  traceName : bytes;
  spans : list ISpan;
  startTime : Z;
  duration : Z
}.

Record IDatum : Type := mkDatum {
  datum_label : bytes;
  datum_size : Z;
  datum_trace : ITrace;
  datum_x : Z;
  datum_y : Number
}.

(** [Array.prototype.sort] with the comparator of line 72. *)
Variable sort_by_x : list IDatum -> list IDatum.

Definition MAX_SAFE_INTEGER : Z := (2 ^ 53 - 1)%Z.

(** The variables of lines 35-39. *)
Record Pass : Type := mkPass {
  minimalSpans : Z;
  maximalSpans : Z;
  firstTime : Z;
  lastTime : Z;
  data : list IDatum
}.

Definition spans_length (trace : ITrace) : Z := Z.of_nat (List.length (spans trace)).

(** The body of the callback of [forEach] (lines 42-62). *)
Definition visit (p : Pass) (trace : ITrace) (index : nat) : option Pass :=
  let minimalSpans' :=
    if (spans_length trace <? minimalSpans p)%Z then spans_length trace
    else minimalSpans p in
  let maximalSpans' :=
    if (maximalSpans p <? spans_length trace)%Z then spans_length trace
    else maximalSpans p in
  let firstTime' :=
    if (startTime trace <? firstTime p)%Z || (index =? 0) then startTime trace
    else firstTime p in
  let lastTime' :=
    if (lastTime p <? startTime trace)%Z || (index =? 0) then startTime trace
    else lastTime p in
  match spans trace with
  | [] => None
  | span0 :: _ =>
      Some (mkPass minimalSpans' maximalSpans' firstTime' lastTime'
                   (data p ++ [mkDatum (traceName trace) (spans_length trace) trace
                                       (span_startTime span0 / 1000)%Z
                                       (div1000 (duration trace))]))
  end.

Fixpoint forEach (traces : list ITrace) (index : nat) (p : Pass) : option Pass :=
  match traces with
  | [] => Some p
  | trace :: traces' =>
      match visit p trace index with
      | None => None
      | Some p' => forEach traces' (S index) p'
      end
  end.

(** The object the callback returns (lines 65-76). *)
Record Chart : Type := mkChart {
  first : Z;
  last : Z;
  max : Z;
  min : Z;
  series : list IDatum
}.

Definition chart (traces : list ITrace) : option Chart :=
  match forEach traces 0 (mkPass MAX_SAFE_INTEGER 0 0 0 []) with
  | None => None
  | Some p =>
      Some (mkChart (firstTime p) (lastTime p) (maximalSpans p) (minimalSpans p)
                    (sort_by_x (data p)))
  end.

End Chart.

End TracesChart.

(** [m] is the least (the greatest) of [m0] and the values of [f] on [ts]. *)
Definition least_of (A : Type) (f : A -> Z) (m0 m : Z) (ts : list A) : Prop :=
  (m <= m0)%Z /\ Forall (fun t => (m <= f t)%Z) ts /\
  (m = m0 \/ Exists (fun t => f t = m) ts).

Definition greatest_of (A : Type) (f : A -> Z) (m0 m : Z) (ts : list A) : Prop :=
  (m0 <= m)%Z /\ Forall (fun t => (f t <= m)%Z) ts /\
  (m = m0 \/ Exists (fun t => f t = m) ts).

(** * Properties *)

(** ** Name normalisation *)

Import Slug.

Ltac unfold_slug :=
  cbn [slug_shape replace_runs TrimLeft TrimRight map forallb andb negb] in *.

Lemma slug_char_facts c :
  is_slug_char c = true ->
  c <> dash /\ is_ascii c = true /\ lower_byte c = c.
Proof.
  destruct c as [[] [] [] [] [] [] [] []]; vm_compute;
    intros H; try discriminate H; repeat split; discriminate.
Qed.

Lemma dash_facts :
  is_slug_char dash = false /\ is_ascii dash = true /\ lower_byte dash = dash.
Proof. vm_compute. repeat split. Qed.

(** What [ReplaceAllString] returns has the shape of a slug. *)
Lemma replace_runs_shape in_run s :
  slug_shape (negb in_run) (replace_runs in_run s) = true.
Proof.
  revert in_run. induction s as [|c s IH]; intros in_run; unfold_slug; [reflexivity|].
  destruct (is_slug_char c) eqn:Hc.
  - unfold_slug. rewrite Hc. apply (IH false).
  - destruct in_run; unfold_slug.
    + apply (IH true).
    + destruct dash_facts as [Hd _]. rewrite Hd.
      destruct (ascii_dec dash dash); [|congruence]. apply (IH true).
Qed.

Lemma TrimLeft_shape d s :
  slug_shape d s = true -> slug_shape false (TrimLeft s) = true.
Proof.
  revert d. induction s as [|c s IH]; intros d H; unfold_slug; [reflexivity|].
  destruct (ascii_dec c dash) as [->|Hn].
  - unfold_slug. destruct dash_facts as [Hd _]. rewrite Hd in H.
    destruct (ascii_dec dash dash); [|congruence].
    apply andb_true_iff in H. apply (IH false), H.
  - unfold_slug. destruct (is_slug_char c); [exact H|].
    destruct (ascii_dec c dash); [congruence | discriminate].
Qed.

Lemma TrimRight_shape d s :
  slug_shape d s = true -> slug_shape d (TrimRight s) = true.
Proof.
  revert d. induction s as [|c s IH]; intros d H; unfold_slug; [reflexivity|].
  unfold_slug. destruct (is_slug_char c) eqn:Hc.
  - apply IH in H. destruct (TrimRight s) as [|c' t] eqn:Ht.
    + destruct (ascii_dec c dash); unfold_slug; [reflexivity | now rewrite Hc].
    + unfold_slug. rewrite Hc. exact H.
  - destruct (ascii_dec c dash) as [->|Hn]; [|discriminate].
    apply andb_true_iff in H. destruct H as [Hd H]. apply IH in H.
    destruct (TrimRight s) as [|c' t] eqn:Ht; [reflexivity|].
    change (slug_shape d (dash :: c' :: t) = true).
    unfold_slug. rewrite Hc.
    destruct (ascii_dec dash dash); [|congruence].
    rewrite Hd. exact H.
Qed.

Lemma TrimRight_idem s : TrimRight (TrimRight s) = TrimRight s.
Proof.
  induction s as [|c s IH]; unfold_slug; [reflexivity|].
  destruct (TrimRight s) as [|c' t] eqn:Ht.
  - destruct (ascii_dec c dash) as [|Hn]; unfold_slug; [reflexivity|].
    destruct (ascii_dec c dash); [contradiction | reflexivity].
  - change (TrimRight (c :: c' :: t) = c :: c' :: t).
    change (TrimRight (c :: c' :: t))
      with (match TrimRight (c' :: t) with
            | [] => if ascii_dec c dash then [] else [c]
            | x => c :: x
            end).
    rewrite IH. reflexivity.
Qed.

(** A slug that does not begin with a dash is a fixed point of the three
    passes (the last one up to trailing dashes). *)
Lemma TrimLeft_fix s : slug_shape false s = true -> TrimLeft s = s.
Proof.
  destruct s as [|c s]; unfold_slug; [reflexivity|].
  destruct (ascii_dec c dash) as [->|]; [|reflexivity].
  destruct dash_facts as [Hd _]. rewrite Hd. discriminate.
Qed.

Lemma replace_runs_fix d in_run s :
  slug_shape d s = true -> (in_run = true -> d = false) ->
  replace_runs in_run s = s.
Proof.
  revert d in_run. induction s as [|c s IH]; intros d in_run H Hr; unfold_slug;
    [reflexivity|].
  unfold_slug. destruct (is_slug_char c) eqn:Hc.
  - f_equal. apply (IH true false); [exact H | discriminate].
  - destruct (ascii_dec c dash) as [->|]; [|discriminate].
    apply andb_true_iff in H. destruct H as [Hd H]. subst d.
    destruct in_run; [specialize (Hr eq_refl); discriminate|].
    f_equal. apply (IH false true); [exact H | reflexivity].
Qed.

Lemma ToLower_fix u d s : slug_shape d s = true -> ToLower u s = s.
Proof.
  intros H. unfold ToLower.
  assert (forallb is_ascii s = true /\ map lower_byte s = s) as [Ha Hl].
  { revert d H. induction s as [|c s IH]; intros d H; unfold_slug; [split; reflexivity|].
    unfold_slug. destruct (is_slug_char c) eqn:Hc.
    - destruct (slug_char_facts c Hc) as (_ & Hasc & Hlow).
      destruct (IH _ H) as [H1 H2]. rewrite Hasc, Hlow, H1, H2. split; reflexivity.
    - destruct (ascii_dec c dash) as [->|]; [|discriminate].
      apply andb_true_iff in H. destruct H as [_ H].
      destruct (IH _ H) as [H1 H2]. destruct dash_facts as (_ & Hasc & Hlow).
      rewrite Hasc, Hlow, H1, H2. split; reflexivity. }
  rewrite Ha. exact Hl.
Qed.

(** A normalised name has the shape of a slug and no dash at its ends. *)
Lemma normalize_shape u s : slug_shape false (normalize u s) = true.
Proof.
  unfold normalize, Trim, ReplaceAllString.
  apply TrimRight_shape. apply (TrimLeft_shape true).
  apply (replace_runs_shape false).
Qed.

(** C5. Normalising a cluster name (lower-casing it, replacing every maximal
    run of bytes outside [a-z0-9] by one dash, trimming the dashes at both
    ends) is idempotent: a second pass leaves a normalised name as it is,
    whatever [strings.ToLower] does to bytes outside ASCII. *)
Theorem normalize_idempotent (unicode_lower : bytes -> bytes) (s : bytes) :
  normalize unicode_lower (normalize unicode_lower s)
  = normalize unicode_lower s.
Proof.
  pose proof (normalize_shape unicode_lower s) as Hs.
  set (t := normalize unicode_lower s) in *.
  unfold normalize at 1, Trim, ReplaceAllString.
  rewrite (ToLower_fix unicode_lower false t Hs).
  rewrite (replace_runs_fix (d := false) (in_run := false) t Hs) by discriminate.
  rewrite (TrimLeft_fix t Hs).
  subst t. unfold normalize, Trim. apply TrimRight_idem.
Qed.

Example normalize_example :
  Slug.normalize (fun s => s) (str "  My_Cluster -- 01 (EU)! ")
  = str "my-cluster-01-eu".
Proof. reflexivity. Qed.

(** ** The namespace cache *)

Lemma namespace_names_map l : namespace_names l = map ObjectMeta_Name (Items l).
Proof.
  unfold namespace_names.
  assert (forall xs acc,
             fold_left (fun acc ns => acc ++ [ObjectMeta_Name ns]) xs acc
             = acc ++ map ObjectMeta_Name xs) as H.
  { induction xs as [|x xs IH]; intros acc; simpl.
    - now rewrite app_nil_r.
    - rewrite IH, <- app_assoc. reflexivity. }
  apply (H (Items l) []).
Qed.

(** For every duration but the least one, the test of line 110 is the test
    [now - lastFetch < ttl]. *)
Lemma cache_is_fresh_iff c t ttl :
  (min_int64 < ttl <= max_int64)%Z ->
  cache_is_fresh c t ttl = true <-> (t - namespacesLastFetch (cache c) < ttl)%Z.
Proof.
  intros Hr. unfold cache_is_fresh, After, Add.
  rewrite wrap64_id by (unfold in_int64, min_int64, max_int64 in *; lia).
  rewrite Z.ltb_lt. lia.
Qed.

(** The negation of the least duration is that duration again. *)
Lemma wrap64_neg_min : wrap64 (-1 * min_int64) = min_int64.
Proof. reflexivity. Qed.

Section NamespaceCache.

Variable c : Cluster.
Variable w : World.
Variable ttl : Duration.

Let t := now w (clock_reads w).
Let reply := answer w (List.length (calls w)) NamespacesList.

(** A call within the time to live is served from the cache: same list, no
    call on the cluster, nothing written. *)
Lemma GetNamespaces_fresh :
  (min_int64 < ttl <= max_int64)%Z ->
  (t - namespacesLastFetch (cache c) < ttl)%Z ->
  let '(r, c', w') := GetNamespaces c ttl w in
  r = Ok (namespaces (cache c)) /\ c' = c /\ calls w' = calls w.
Proof.
  intros Hr Hf. apply (cache_is_fresh_iff c t Hr) in Hf.
  unfold GetNamespaces, bind, time_Now, ret. fold t. rewrite Hf.
  repeat split.
Qed.

(** A call at or after expiry asks the cluster once; a list that comes back
    replaces the cached one, stamped with the clock read after the call. *)
Lemma GetNamespaces_stale :
  (min_int64 < ttl <= max_int64)%Z ->
  (t - namespacesLastFetch (cache c) >= ttl)%Z ->
  let '(r, c', w') := GetNamespaces c ttl w in
  calls w' = calls w ++ [event NamespacesList] /\
  match reply with
  | Ok l =>
      r = Ok (map ObjectMeta_Name (Items l)) /\
      cache c' = mkCache (map ObjectMeta_Name (Items l))
                         (now w (S (clock_reads w))) /\
      config c' = config c /\ name c' = name c /\ crds c' = crds c
  | Err e => r = Err e /\ c' = c
  end.
Proof.
  intros Hr Hs.
  assert (cache_is_fresh c t ttl = false) as Hf.
  { destruct (cache_is_fresh c t ttl) eqn:E; [|reflexivity].
    apply (cache_is_fresh_iff c t Hr) in E. lia. }
  unfold GetNamespaces, bind, time_Now, call, ret. fold t. rewrite Hf.
  cbn [calls answer clock_reads now]. fold reply.
  destruct reply as [l|e]; cbn [calls]; rewrite ?namespace_names_map;
    repeat split.
Qed.

(** Whatever the duration, a failed upstream call leaves the cluster as it
    was. *)
Lemma GetNamespaces_failed_call e :
  cache_is_fresh c t ttl = false ->
  reply = Err e ->
  GetNamespaces c ttl w
  = (Err e, c,
     mkWorld (answer w) (now w) (calls w ++ [event NamespacesList])
             (S (clock_reads w)) (slept w)).
Proof.
  intros Hf He.
  unfold GetNamespaces, bind, time_Now, call, ret. fold t. rewrite Hf.
  cbn [calls answer clock_reads now]. fold reply. rewrite He. reflexivity.
Qed.

(** No path that returns an error writes to the cluster. *)
Lemma GetNamespaces_error_path e :
  fst (fst (GetNamespaces c ttl w)) = Err e ->
  snd (fst (GetNamespaces c ttl w)) = c.
Proof.
  unfold GetNamespaces, bind, time_Now, call, ret. fold t.
  destruct (cache_is_fresh c t ttl); cbn; [discriminate|].
  destruct (answer w (List.length (calls w)) NamespacesList); cbn;
    [discriminate | reflexivity].
Qed.

End NamespaceCache.

(** C2, as the specification words it, at the least duration and a cache filled at
    the very instant of the call: the time elapsed (zero) is not below the
    time to live, so the specification has the cluster asked; but
    [-1 * cacheDuration] wraps around to the least duration again, the test
    of line 110 succeeds, and the cached list is returned without a call. *)
Lemma GetNamespaces_least_duration :
  let c := demo_cluster [str "stale"] 1000%Z in
  let w := demo_world (fun _ => Ok demo_namespaces) (fun _ => 1000%Z) in
  (now w (clock_reads w) - namespacesLastFetch (cache c) >= min_int64)%Z /\
  fst (GetNamespaces c min_int64 w) = (Ok [str "stale"], c) /\
  calls (snd (GetNamespaces c min_int64 w)) = [].
Proof. cbv zeta. split; [vm_compute; discriminate|]. split; reflexivity. Qed.

(** The same call with any other duration below zero asks the cluster. *)
Example GetNamespaces_negative_duration :
  let c := demo_cluster [str "stale"] 1000%Z in
  let w := demo_world (fun _ => Ok demo_namespaces) (fun _ => 1000%Z) in
  fst (fst (GetNamespaces c (min_int64 + 1)%Z w))
  = Ok [str "default"; str "kube-system"] /\
  calls (snd (GetNamespaces c (min_int64 + 1)%Z w)) = [event NamespacesList].
Proof. split; reflexivity. Qed.

(** C2. For every time to live above the least 64-bit duration: a call made
    less than the time to live after the last fetch returns the cached list
    as it is, makes no call on the cluster and leaves the cluster as it was;
    a call made at or after that asks the cluster for its namespaces exactly
    once and, when the listing succeeds, returns the names listed and stores
    them in the cache together with the instant read after the listing
    (when it fails, the error is returned and nothing is stored). *)
Theorem GetNamespaces_cache_policy (c : Cluster) (w : World) (ttl : Duration) :
  (min_int64 < ttl <= max_int64)%Z ->
  let t := now w (clock_reads w) in
  let reply := answer w (List.length (calls w)) NamespacesList in
  let out := GetNamespaces c ttl w in
  ((t - namespacesLastFetch (cache c) < ttl)%Z ->
   fst (fst out) = Ok (namespaces (cache c)) /\
   snd (fst out) = c /\
   calls (snd out) = calls w) /\
  ((t - namespacesLastFetch (cache c) >= ttl)%Z ->
   calls (snd out) = calls w ++ [event NamespacesList] /\
   match reply with
   | Ok l =>
       fst (fst out) = Ok (map ObjectMeta_Name (Items l)) /\
       cache (snd (fst out))
       = mkCache (map ObjectMeta_Name (Items l)) (now w (S (clock_reads w)))
   | Err e => fst (fst out) = Err e /\ snd (fst out) = c
   end).
Proof.
  intros Hr. cbv zeta. split; intros Ht.
  - pose proof (GetNamespaces_fresh c w Hr Ht) as H.
    destruct (GetNamespaces c ttl w) as [[r c'] w']. exact H.
  - pose proof (GetNamespaces_stale c w Hr Ht) as H.
    destruct (GetNamespaces c ttl w) as [[r c'] w']. destruct H as [Hc H].
    split; [exact Hc|]. cbn [fst snd].
    destruct (answer w (List.length (calls w)) NamespacesList).
    + destruct H as (H1 & H2 & _). split; assumption.
    + exact H.
Qed.

Lemma GetNamespaces_cache_policy_witness :
  let c := demo_cluster [str "old"] 0%Z in
  let early := demo_world (fun _ => Ok demo_namespaces) (fun _ => 59%Z) in
  let late := demo_world (fun _ => Ok demo_namespaces)
                         (fun k => if k =? 0 then 60%Z else 61%Z) in
  (fst (fst (GetNamespaces c 60%Z early)) = Ok [str "old"] /\
   calls (snd (GetNamespaces c 60%Z early)) = []) /\
  (calls (snd (GetNamespaces c 60%Z late)) = [event NamespacesList] /\
   fst (fst (GetNamespaces c 60%Z late)) = Ok [str "default"; str "kube-system"] /\
   cache (snd (fst (GetNamespaces c 60%Z late)))
   = mkCache [str "default"; str "kube-system"] 61%Z).
Proof.
  cbv zeta. split.
  - destruct (GetNamespaces_cache_policy (demo_cluster [str "old"] 0%Z)
                (demo_world (fun _ => Ok demo_namespaces) (fun _ => 59%Z))
                (ttl := 60%Z)) as [H _].
    + unfold min_int64, max_int64. lia.
    + destruct H as (H1 & _ & H3); [cbn; lia|]. split; assumption.
  - destruct (GetNamespaces_cache_policy (demo_cluster [str "old"] 0%Z)
                (demo_world (fun _ => Ok demo_namespaces)
                            (fun k => if k =? 0 then 60%Z else 61%Z))
                (ttl := 60%Z)) as [_ H].
    + unfold min_int64, max_int64. lia.
    + destruct H as (H1 & H2); [cbn; lia|]. split; [exact H1|]. exact H2.
Defined.

(** C10. When the cache has expired and the namespace listing fails,
    [GetNamespaces] returns the error of that call and the cluster, its cached
    list and the instant of its last fetch included, is what it was before;
    the listing is the only call made. *)
Theorem GetNamespaces_upstream_error (c : Cluster) (w : World) (ttl : Duration)
    (e : error) :
  cache_is_fresh c (now w (clock_reads w)) ttl = false ->
  answer w (List.length (calls w)) NamespacesList = Err e ->
  fst (fst (GetNamespaces c ttl w)) = Err e /\
  snd (fst (GetNamespaces c ttl w)) = c /\
  namespaces (cache (snd (fst (GetNamespaces c ttl w)))) = namespaces (cache c) /\
  namespacesLastFetch (cache (snd (fst (GetNamespaces c ttl w))))
  = namespacesLastFetch (cache c) /\
  calls (snd (GetNamespaces c ttl w)) = calls w ++ [event NamespacesList].
Proof.
  intros Hf He. rewrite (GetNamespaces_failed_call c w ttl Hf He). cbn.
  repeat split.
Qed.

Lemma GetNamespaces_upstream_error_witness :
  let c := demo_cluster [str "old"] 0%Z in
  let w := demo_world (fun _ => Err (ErrorString (str "connection refused")))
                      (fun _ => 100%Z) in
  fst (fst (GetNamespaces c 60%Z w)) = Err (ErrorString (str "connection refused")) /\
  snd (fst (GetNamespaces c 60%Z w)) = c /\
  namespaces (cache (snd (fst (GetNamespaces c 60%Z w)))) = [str "old"] /\
  namespacesLastFetch (cache (snd (fst (GetNamespaces c 60%Z w)))) = 0%Z /\
  calls (snd (GetNamespaces c 60%Z w)) = [event NamespacesList].
Proof.
  cbv zeta.
  apply (GetNamespaces_upstream_error
           (demo_cluster [str "old"] 0%Z)
           (demo_world (fun _ => Err (ErrorString (str "connection refused")))
                       (fun _ => 100%Z))
           60%Z (e := ErrorString (str "connection refused")));
    reflexivity.
Defined.

(** ** The resource forwarder *)

(** C9. [GetResources] makes one call on the cluster and nothing else: a get
    of the single object [name] (inside [namespace] when one is given, at
    cluster scope otherwise) when [name] is not empty, and otherwise a list
    request carrying the query parameter.  The caller receives the body of
    the reply when it came without an error, and the error of the reply
    otherwise, both as the cluster sent them. *)
Theorem GetResources_forwards (c : Cluster) (w : World)
    (namespace name path resource paramName param : bytes) :
  let request :=
    if negb (is_empty name) then
      if negb (is_empty namespace) then
        mkRequest GET (Some path) (Some namespace) (Some resource) (Some name) []
      else
        mkRequest GET (Some path) None (Some resource) (Some name) []
    else
      mkRequest GET (Some path) (Some namespace) (Some resource) None
                [(paramName, param)] in
  let reply := answer w (List.length (calls w)) (DoRaw request) in
  let out := GetResources c namespace name path resource paramName param w in
  calls (snd out) = calls w ++ [event (DoRaw request)] /\
  fst out = match snd reply with
            | Some e => Err e
            | None => Ok (fst reply)
            end.
Proof.
  unfold GetResources.
  destruct (is_empty name), (is_empty namespace); cbn; split; reflexivity.
Qed.

Example GetResources_single_namespaced :
  let w := demo_world (fun _ => Ok demo_namespaces) (fun _ => 0%Z) in
  calls (snd (GetResources (demo_cluster [] 0%Z) (str "default") (str "web")
                           (str "/api/v1") (str "pods") [] [] w))
  = [event (DoRaw (mkRequest GET (Some (str "/api/v1")) (Some (str "default"))
                             (Some (str "pods")) (Some (str "web")) []))].
Proof. reflexivity. Qed.

(** ** One-shot logs *)

Lemma Split_nonempty s sep : Split s sep <> [].
Proof.
  destruct s as [|c s]; simpl; [discriminate|].
  destruct (ascii_dec c sep); [discriminate|].
  destruct (Split s sep); discriminate.
Qed.

Lemma fold_append_all (A : Type) (xs acc : list A) :
  fold_left (fun logs line => logs ++ [line]) xs acc = acc ++ xs.
Proof.
  revert acc. induction xs as [|x xs IH]; intros acc; simpl.
  - now rewrite app_nil_r.
  - rewrite IH, <- app_assoc. reflexivity.
Qed.

Lemma fold_append_filter (A : Type) (p : A -> bool) (xs acc : list A) :
  fold_left (fun logs line => if p line then logs ++ [line] else logs) xs acc
  = acc ++ filter p xs.
Proof.
  revert acc. induction xs as [|x xs IH]; intros acc; simpl.
  - now rewrite app_nil_r.
  - rewrite IH. destruct (p x); [|reflexivity].
    rewrite <- app_assoc. reflexivity.
Qed.

Lemma all_lines_Split res : all_lines res = Split res nl.
Proof. unfold all_lines. apply fold_append_all. Qed.

Lemma matching_lines_filter (Regexp : Type) (MatchString : Regexp -> bytes -> bool)
    reg res :
  matching_lines MatchString reg res = filter (MatchString reg) (Split res nl).
Proof. unfold matching_lines. apply fold_append_filter. Qed.

(** C8. [GetLogs] asks the cluster for the log once.  When the payload
    arrives without an error, the text returned is the lines of the payload
    (its pieces between newlines) joined by the terminator of the package and
    closed by one more terminator: all lines when the expression is empty,
    and otherwise the lines the compiled expression matches, in the order of
    the payload.  An expression that is given and does not compile makes the
    call return an error, whatever the payload. *)
Theorem GetLogs_lines (Regexp : Type) (regexp_Compile : bytes -> result Regexp)
    (MatchString : Regexp -> bytes -> bool) (c : Cluster) (w : World)
    (namespace name container regex : bytes) (since tail : Z) (previous : bool) :
  let request :=
    PodLogsDoRaw namespace name (GetLogs_options container since tail previous) in
  let reply := answer w (List.length (calls w)) request in
  let out := GetLogs regexp_Compile MatchString c namespace name container regex
                     since tail previous w in
  calls (snd out) = calls w ++ [event request] /\
  (snd reply = None ->
   fst out =
     if is_empty regex then Ok (Join (Split (fst reply) nl) line_end ++ line_end)
     else match regexp_Compile regex with
          | Ok reg =>
              Ok (Join (filter (MatchString reg) (Split (fst reply) nl)) line_end
                  ++ line_end)
          | Err e => Err e
          end) /\
  (regex <> [] -> is_err (regexp_Compile regex) = true -> is_err (fst out) = true).
Proof.
  cbv zeta. unfold GetLogs, bind, call, ret. cbn [calls answer fst snd].
  set (reply := answer w (List.length (calls w)) _).
  split; [|split].
  - destruct (snd reply); [reflexivity|].
    destruct (is_empty regex); [reflexivity|].
    destruct (regexp_Compile regex); reflexivity.
  - intros Hok. rewrite Hok. destruct (is_empty regex).
    + cbn. now rewrite all_lines_Split.
    + destruct (regexp_Compile regex) as [reg|e]; cbn; [|reflexivity].
      now rewrite matching_lines_filter.
  - intros Hne Hbad. destruct (snd reply); [reflexivity|].
    destruct regex as [|x regex]; [congruence|]. cbn [is_empty].
    destruct (regexp_Compile (x :: regex)); [discriminate Hbad | reflexivity].
Qed.

Lemma GetLogs_lines_witness :
  let payload := str "info a" ++ [nl] ++ str "warn b" ++ [nl] ++ str "info c" in
  let w := logs_world (payload, None) in
  let c := demo_cluster [] 0%Z in
  fst (GetLogs demo_Compile has_prefix c (str "ns") (str "pod") (str "app")
               (str "info") 60 10 false w)
  = Ok (str "info a" ++ line_end ++ str "info c" ++ line_end) /\
  is_err (fst (GetLogs demo_Compile has_prefix c (str "ns") (str "pod") (str "app")
                       (str "(") 60 10 false w)) = true.
Proof.
  cbv zeta. split.
  - destruct (GetLogs_lines demo_Compile has_prefix (demo_cluster [] 0%Z)
                (logs_world (str "info a" ++ [nl] ++ str "warn b" ++ [nl]
                             ++ str "info c", None))
                (str "ns") (str "pod") (str "app") (str "info") 60 10 false)
      as (_ & H & _).
    rewrite H; reflexivity.
  - destruct (GetLogs_lines demo_Compile has_prefix (demo_cluster [] 0%Z)
                (logs_world (str "info a" ++ [nl] ++ str "warn b" ++ [nl]
                             ++ str "info c", None))
                (str "ns") (str "pod") (str "app") (str "(") 60 10 false)
      as (_ & _ & H).
    apply H; [discriminate | reflexivity].
Defined.

(** ** The shell check of the terminal *)

(** C7, as the specification words it: a shell on the allow-list would pass
    and the exec session be opened.  The request URL is parsed before the
    shell is looked at (lines 307-310), and the namespace is part of it: for
    the namespace [n%zzs] the URL has a broken escape, [GetTerminal] returns
    the error of the parse, and no session is opened although the shell is
    [bash]. *)
Lemma GetTerminal_valid_shell_bad_url :
  let w := api_world quiet (fun _ => 0%Z) in
  let out := GetTerminal escape_Parse (demo_cluster [] 0%Z) (str "n%zzs") (str "pod")
                         (str "app") (str "bash") w in
  terminal.IsValidShell (str "bash") = true /\
  fst out = Some (ErrorString (str "invalid URL escape")) /\
  calls (snd out) = [].
Proof. cbv zeta. repeat split. Qed.

(** C7. A request URL that does not parse makes [GetTerminal] return the
    error of the parse and make no call on the cluster, whatever the shell.
    A shell that is not on the allow-list makes it return an error and make
    no call on the cluster either; a shell on the list, once the request URL
    has been parsed, makes it open the exec session with that shell as the
    command and return what the session returns.  The shells [sh] and [bash]
    are on the list; [zsh] and ["bash; rm -rf /"] are not. *)
Theorem GetTerminal_validates_shell (url_Parse : bytes -> result URL) (c : Cluster)
    (w : World) (namespace name container : bytes) :
  (forall shell e,
      url_Parse (exec_url c namespace name container shell) = Err e ->
      fst (GetTerminal url_Parse c namespace name container shell w) = Some e /\
      calls (snd (GetTerminal url_Parse c namespace name container shell w))
      = calls w) /\
  (forall shell,
      terminal.IsValidShell shell = false ->
      fst (GetTerminal url_Parse c namespace name container shell w) <> None /\
      calls (snd (GetTerminal url_Parse c namespace name container shell w))
      = calls w) /\
  (forall shell reqURL,
      terminal.IsValidShell shell = true ->
      url_Parse (exec_url c namespace name container shell) = Ok reqURL ->
      let session := StartProcess (Host (config c)) reqURL [shell] in
      fst (GetTerminal url_Parse c namespace name container shell w)
      = answer w (List.length (calls w)) session /\
      calls (snd (GetTerminal url_Parse c namespace name container shell w))
      = calls w ++ [event session]) /\
  terminal.IsValidShell (str "sh") = true /\
  terminal.IsValidShell (str "bash") = true /\
  terminal.IsValidShell (str "bash; rm -rf /") = false /\
  terminal.IsValidShell (str "zsh") = false.
Proof.
  split; [|split; [|split; [|repeat split]]].
  - intros shell e Hurl. unfold GetTerminal. rewrite Hurl. split; reflexivity.
  - intros shell Hbad. unfold GetTerminal.
    destruct (url_Parse _) as [u|e]; [rewrite Hbad|]; cbn;
      (split; [discriminate | reflexivity]).
  - intros shell reqURL Hok Hurl. unfold GetTerminal.
    rewrite Hurl, Hok. cbn. split; reflexivity.
Qed.

Lemma GetTerminal_validates_shell_witness :
  let c := demo_cluster [] 0%Z in
  let w := api_world quiet (fun _ => 0%Z) in
  (fst (GetTerminal escape_Parse c (str "n%zzs") (str "pod") (str "app") (str "bash") w)
   = Some (ErrorString (str "invalid URL escape")) /\
   calls (snd (GetTerminal escape_Parse c (str "n%zzs") (str "pod") (str "app")
                           (str "bash") w)) = []) /\
  (fst (GetTerminal escape_Parse c (str "ns") (str "pod") (str "app") (str "zsh") w)
   <> None /\
   calls (snd (GetTerminal escape_Parse c (str "ns") (str "pod") (str "app")
                           (str "zsh") w)) = []) /\
  List.length (calls (snd (GetTerminal escape_Parse c (str "ns") (str "pod")
                                       (str "app") (str "bash") w))) = 1.
Proof.
  cbv zeta. split; [|split].
  - destruct (GetTerminal_validates_shell escape_Parse (demo_cluster [] 0%Z)
                (api_world quiet (fun _ => 0%Z)) (str "n%zzs") (str "pod") (str "app"))
      as (Herr & _).
    apply (Herr (str "bash")). reflexivity.
  - destruct (GetTerminal_validates_shell escape_Parse (demo_cluster [] 0%Z)
                (api_world quiet (fun _ => 0%Z)) (str "ns") (str "pod") (str "app"))
      as (_ & Hbad & _).
    apply (Hbad (str "zsh")). reflexivity.
  - destruct (GetTerminal_validates_shell escape_Parse (demo_cluster [] 0%Z)
                (api_world quiet (fun _ => 0%Z)) (str "ns") (str "pod") (str "app"))
      as (_ & _ & Hok & _).
    destruct (Hok (str "bash") _ eq_refl eq_refl) as [_ H]. rewrite H. reflexivity.
Defined.

(** ** Discovery of custom resource definitions *)

Lemma version_columns_map version :
  version_columns version
  = map (fun column =>
           mkCRDColumn (pcol_Description column) (pcol_JSONPath column)
                       (pcol_Name column) (pcol_Type column))
        (AdditionalPrinterColumns version).
Proof.
  unfold version_columns.
  generalize (AdditionalPrinterColumns version) as xs.
  assert (forall (xs : list CustomResourceColumnDefinition) acc,
             fold_left
               (fun columns column =>
                  columns ++ [mkCRDColumn (pcol_Description column)
                                          (pcol_JSONPath column)
                                          (pcol_Name column) (pcol_Type column)])
               xs acc
             = acc ++ map (fun column =>
                             mkCRDColumn (pcol_Description column)
                                         (pcol_JSONPath column)
                                         (pcol_Name column) (pcol_Type column)) xs)
    as H.
  { induction xs as [|x xs IH]; intros acc; simpl.
    - now rewrite app_nil_r.
    - rewrite IH, <- app_assoc. reflexivity. }
  intros xs. apply (H xs []).
Qed.

Lemma append_versions_app crds0 crd :
  append_versions crds0 crd = crds0 ++ map (crd_entry crd) (Versions (Spec crd)).
Proof.
  unfold append_versions. generalize (Versions (Spec crd)) as vs.
  intros vs. revert crds0. induction vs as [|v vs IH]; intros crds0; simpl.
  - now rewrite app_nil_r.
  - rewrite IH, <- app_assoc. reflexivity.
Qed.

(** The two loops append, definition by definition, one entry for every
    version. *)
Lemma append_definitions_flat_map crds0 crdList :
  append_definitions crds0 crdList
  = crds0 ++ flat_map (fun crd => map (crd_entry crd) (Versions (Spec crd)))
                      (crd_Items crdList).
Proof.
  unfold append_definitions. generalize (crd_Items crdList) as ds.
  intros ds. revert crds0. induction ds as [|d ds IH]; intros crds0; simpl.
  - now rewrite app_nil_r.
  - rewrite IH, append_versions_app, <- app_assoc. reflexivity.
Qed.

Lemma flat_map_length_sum (A B : Type) (f : A -> list B) (l : list A) :
  List.length (flat_map f l) = list_sum (map (fun a => List.length (f a)) l).
Proof.
  induction l as [|a l IH]; simpl; [reflexivity|].
  rewrite length_app, IH. reflexivity.
Qed.

Section Discovery.

Variable int_size : IntSize.
Variable json_Unmarshal : bytes -> result CustomResourceDefinitionList.

Lemma loadCRDs_attempt_fails offset c w :
  attempt_fails json_Unmarshal w (List.length (calls w)) = true ->
  loadCRDs_attempt int_size json_Unmarshal offset c w
  = (Some (double_offset int_size offset), c, after_failures int_size 1 offset w).
Proof.
  unfold attempt_fails, loadCRDs_attempt, bind, call, time_Sleep, ret, after_failures.
  cbn [calls answer fst snd now clock_reads slept repeat map seq Nat.iter nat_rect].
  destruct (snd (answer w (List.length (calls w)) (DoRaw crds_request))).
  - reflexivity.
  - destruct (json_Unmarshal _); [discriminate | reflexivity].
Qed.

Lemma loadCRDs_attempt_succeeds offset c w :
  attempt_fails json_Unmarshal w (List.length (calls w)) = false ->
  exists crdList,
    snd (answer w (List.length (calls w)) (DoRaw crds_request)) = None /\
    json_Unmarshal (fst (answer w (List.length (calls w)) (DoRaw crds_request)))
    = Ok crdList /\
    loadCRDs_attempt int_size json_Unmarshal offset c w
    = (None, set_crds c (append_definitions (crds c) crdList), after_request w).
Proof.
  unfold attempt_fails, loadCRDs_attempt, bind, call, time_Sleep, ret, after_request.
  cbn [calls answer fst snd now clock_reads slept].
  destruct (snd (answer w (List.length (calls w)) (DoRaw crds_request)));
    [discriminate|].
  destruct (json_Unmarshal _) as [crdList|]; [|discriminate].
  intros _. exists crdList. repeat split.
Qed.

Lemma after_failures_S n offset w :
  after_failures int_size n (double_offset int_size offset) (after_failures int_size 1 offset w)
  = after_failures int_size (S n) offset w.
Proof.
  unfold after_failures.
  cbn [calls answer now clock_reads slept repeat map seq Nat.iter nat_rect].
  f_equal.
  - rewrite <- app_assoc. reflexivity.
  - rewrite <- app_assoc. cbn [app]. do 2 f_equal.
    rewrite <- seq_shift, map_map. apply map_ext. intros k.
    f_equal. symmetry. apply Nat.iter_succ_r.
Qed.

(** While the attempts fail the loop goes on: after [n] failures it has made
    [n] requests and slept [n] times, and the cluster is untouched. *)
Lemma loadCRDs_from_failures n : forall offset c w,
  (forall k, k < n ->
             attempt_fails json_Unmarshal w (List.length (calls w) + k) = true) ->
  loadCRDs_from int_size json_Unmarshal n offset c w
  = (Some (Nat.iter n (double_offset int_size) offset), c, after_failures int_size n offset w).
Proof.
  induction n as [|n IH]; intros offset c w Hfail.
  - unfold after_failures. cbn. rewrite !app_nil_r. destruct w; reflexivity.
  - cbn [loadCRDs_from]. unfold bind.
    rewrite loadCRDs_attempt_fails
      by (rewrite <- (Nat.add_0_r (List.length (calls w))); apply Hfail; lia).
    cbn [fst snd]. rewrite IH.
    + rewrite after_failures_S. f_equal. f_equal. f_equal.
      symmetry. apply Nat.iter_succ_r.
    + intros k Hk. unfold after_failures, attempt_fails.
      cbn [calls answer repeat]. rewrite length_app. cbn [List.length].
      replace (List.length (calls w) + 1 + k) with (List.length (calls w) + S k)
        by lia.
      apply (Hfail (S k)). lia.
Qed.

(** Fuel that is left over continues from where the loop stands. *)
Lemma loadCRDs_from_add n m : forall offset c w offset' c' w',
  loadCRDs_from int_size json_Unmarshal n offset c w = (Some offset', c', w') ->
  loadCRDs_from int_size json_Unmarshal (n + m) offset c w
  = loadCRDs_from int_size json_Unmarshal m offset' c' w'.
Proof.
  induction n as [|n IH]; intros offset c w offset' c' w' H.
  - cbn in H. injection H as -> -> ->. reflexivity.
  - cbn [loadCRDs_from Nat.add] in *. unfold bind in *.
    destruct (loadCRDs_attempt int_size json_Unmarshal offset c w) as [[next c1] w1].
    cbn [fst snd] in *. destruct next as [o1|]; [|discriminate H].
    apply IH. exact H.
Qed.

(** The first attempt that succeeds ends the loop, with the definitions of
    its reply appended to the list of the cluster. *)
Lemma loadCRDs_from_success n fuel offset c w :
  (forall k, k < n ->
             attempt_fails json_Unmarshal w (List.length (calls w) + k) = true) ->
  attempt_fails json_Unmarshal w (List.length (calls w) + n) = false ->
  exists crdList,
    snd (answer w (List.length (calls w) + n) (DoRaw crds_request)) = None /\
    json_Unmarshal (fst (answer w (List.length (calls w) + n) (DoRaw crds_request)))
    = Ok crdList /\
    loadCRDs_from int_size json_Unmarshal (n + S fuel) offset c w
    = (None, set_crds c (append_definitions (crds c) crdList),
       after_request (after_failures int_size n offset w)).
Proof.
  intros Hfail Hok.
  rewrite (@loadCRDs_from_add n (S fuel) offset c w _ _ _
             (@loadCRDs_from_failures n offset c w Hfail)).
  assert (List.length (calls (after_failures int_size n offset w)) = List.length (calls w) + n)
    as Hlen.
  { unfold after_failures. cbn [calls]. now rewrite length_app, repeat_length. }
  destruct (loadCRDs_attempt_succeeds (Nat.iter n (double_offset int_size) offset) c
              (after_failures int_size n offset w)) as (crdList & H1 & H2 & H3).
  { rewrite Hlen. exact Hok. }
  rewrite Hlen in H1, H2. exists crdList. split; [exact H1|]. split; [exact H2|].
  cbn [loadCRDs_from]. unfold bind. rewrite H3. reflexivity.
Qed.

End Discovery.

(** The backoff doubles exactly as long as the doubled value fits
    [int]... *)
Lemma wrap_int_id size z :
  (- max_int size - 1 <= z <= max_int size)%Z -> wrap_int size z = z.
Proof.
  unfold wrap_int, max_int. intros H.
  assert (2 ^ int_bits size = 2 * 2 ^ (int_bits size - 1))%Z as Hp.
  { rewrite <- Z.pow_succ_r by (destruct size; cbn; lia). f_equal. lia. }
  assert (0 < 2 ^ (int_bits size - 1))%Z
    by (apply Z.pow_pos_nonneg; destruct size; cbn; lia).
  rewrite Z.mod_small by lia. lia.
Qed.

Lemma backoff_offset_exact size k :
  (30 * 2 ^ Z.of_nat k <= max_int size)%Z ->
  backoff_offset size k = (30 * 2 ^ Z.of_nat k)%Z.
Proof.
  induction k as [|k IH]; intros Hk; [reflexivity|].
  rewrite Nat2Z.inj_succ, Z.pow_succ_r in * by lia.
  assert (0 < 2 ^ Z.of_nat k)%Z by (apply Z.pow_pos_nonneg; lia).
  unfold backoff_offset in *. rewrite Nat.iter_succ, IH by lia.
  unfold double_offset.
  replace (30 * (2 * 2 ^ Z.of_nat k))%Z with (30 * 2 ^ Z.of_nat k * 2)%Z by lia.
  apply wrap_int_id. lia.
Qed.

(** ... and the duration handed to [time.Sleep] is that many seconds as long
    as their count of nanoseconds fits 64 bits: for the first 27 sleeps
    where [int] is 32 bits wide, for the first 29 where it is 64. *)
Lemma backoff_sleep_exact size k :
  k < exact_sleeps size ->
  backoff_sleep size k = (30 * 2 ^ Z.of_nat k * Second)%Z.
Proof.
  intros Hk. unfold backoff_sleep, offset_seconds.
  assert (0 < 2 ^ Z.of_nat k)%Z by (apply Z.pow_pos_nonneg; lia).
  assert (2 ^ Z.of_nat k <= 2 ^ 28)%Z
    by (apply Z.pow_le_mono_r; destruct size; cbn in Hk; lia).
  rewrite backoff_offset_exact.
  - apply wrap64_id. unfold in_int64, min_int64, max_int64, Second. lia.
  - destruct size; cbn in Hk; unfold max_int; cbn [int_bits].
    + assert (2 ^ Z.of_nat k <= 2 ^ 26)%Z by (apply Z.pow_le_mono_r; lia). lia.
    + lia.
Qed.

Lemma after_failures_slept size n w :
  slept (after_failures size n 30 w) = slept w ++ map (backoff_sleep size) (seq 0 n).
Proof. reflexivity. Qed.

Lemma NewCluster_crds unicode_lower NewForConfig name restConfig c :
  NewCluster unicode_lower NewForConfig name restConfig = Ok c -> crds c = [].
Proof.
  unfold NewCluster. destruct (first_error _ _ _); [discriminate|].
  intros H. injection H as <-. reflexivity.
Qed.

(** C4, as the specification words it: the list would hold the entries of the served
    versions only.  Of the three versions of [demo_crds] one is not served,
    and the list has an entry for it all the same. *)
Lemma loadCRDs_lists_unserved_versions :
  let out := loadCRDs Int64bit demo_Unmarshal 1 (demo_cluster [] 0%Z) (crds_world 0) in
  fst (fst out) = None /\
  List.length (served_entries demo_crds) = 2 /\
  List.length (crds (snd (fst out))) = 3 /\
  crds (snd (fst out)) <> served_entries demo_crds /\
  map Path (crds (snd (fst out)))
  = [str "kobs.io/v1beta1"; str "kobs.io/v1alpha1"; str "kobs.io/v1beta1"].
Proof.
  cbv zeta. repeat split; try reflexivity.
  intros H. apply (f_equal (@List.length CRD)) in H. vm_compute in H. discriminate H.
Qed.

(** C4. When discovery succeeds on a new cluster (at its first attempt or
    after failed ones), the list of the cluster holds, in
    the order of the reply, one entry for every version listed in every
    definition, served or not; its length is the sum of the numbers of
    versions; and the entry of a version has the group and the version name
    as its path, the plural name as its resource, the kind as its title, the
    description of the version's schema (empty without a schema) as its
    description, the scope of the definition, and the printer columns of the
    version, one for one and in order. *)
Theorem loadCRDs_flattens_versions
    (unicode_lower : bytes -> bytes) (NewForConfig : Clientset -> Config -> option error)
    (int_size : IntSize)
    (json_Unmarshal : bytes -> result CustomResourceDefinitionList)
    (name : bytes) (restConfig : Config) (c : Cluster) (w : World) (n fuel : nat) :
  NewCluster unicode_lower NewForConfig name restConfig = Ok c ->
  (forall k, k < n ->
             attempt_fails json_Unmarshal w (List.length (calls w) + k) = true) ->
  attempt_fails json_Unmarshal w (List.length (calls w) + n) = false ->
  exists crdList,
    json_Unmarshal (fst (answer w (List.length (calls w) + n) (DoRaw crds_request)))
    = Ok crdList /\
    let out := loadCRDs int_size json_Unmarshal (n + S fuel) c w in
    fst (fst out) = None /\
    GetCRDs (snd (fst out))
    = flat_map (fun crd => map (crd_entry crd) (Versions (Spec crd)))
               (crd_Items crdList) /\
    List.length (GetCRDs (snd (fst out)))
    = list_sum (map (fun crd => List.length (Versions (Spec crd))) (crd_Items crdList)) /\
    forall crd version,
      Path (crd_entry crd version) = Group (Spec crd) ++ str "/" ++ ver_Name version /\
      Resource (crd_entry crd version) = Plural (Names (Spec crd)) /\
      Title (crd_entry crd version) = Kind (Names (Spec crd)) /\
      Description (crd_entry crd version)
      = match Schema version with
        | Some (mkValidation (Some props)) => schema_Description props
        | _ => []
        end /\
      Scope (crd_entry crd version) = spec_Scope (Spec crd) /\
      Columns (crd_entry crd version)
      = map (fun column =>
               mkCRDColumn (pcol_Description column) (pcol_JSONPath column)
                           (pcol_Name column) (pcol_Type column))
            (AdditionalPrinterColumns version).
Proof.
  intros Hnew Hfail Hok. pose proof (NewCluster_crds _ _ _ _ Hnew) as Hempty.
  destruct (@loadCRDs_from_success int_size json_Unmarshal n fuel 30%Z c w Hfail Hok)
    as (crdList & _ & Hdec & Hrun).
  exists crdList. split; [exact Hdec|]. cbv zeta. unfold loadCRDs. rewrite Hrun.
  cbn [fst snd]. unfold GetCRDs, set_crds. cbn [crds].
  rewrite append_definitions_flat_map, Hempty. cbn [app].
  split; [reflexivity|]. split; [reflexivity|].
  split.
  - rewrite flat_map_length_sum. f_equal. apply map_ext. intros crd.
    apply length_map.
  - intros crd version. unfold crd_entry. cbn [Path Resource Title Description Scope Columns].
    repeat split.
    + unfold version_description. destruct (Schema version) as [[[props|]]|]; reflexivity.
    + apply version_columns_map.
Qed.

Lemma loadCRDs_flattens_versions_witness :
  let c := mkCluster (mkCache [] zero_Time) (mkConfig (str "https://k8s.local"))
                     (str "my-cluster") [] in
  GetCRDs (snd (fst (loadCRDs Int64bit demo_Unmarshal 3 c (crds_world 2))))
  = flat_map (fun crd => map (crd_entry crd) (Versions (Spec crd)))
             (crd_Items demo_crds).
Proof.
  cbv zeta.
  destruct (@loadCRDs_flattens_versions (fun s => s) no_error Int64bit demo_Unmarshal
              (str "My Cluster") (mkConfig (str "https://k8s.local"))
              (mkCluster (mkCache [] zero_Time) (mkConfig (str "https://k8s.local"))
                         (str "my-cluster") [])
              (crds_world 2) 2 0) as (crdList & Hdec & _ & H & _).
  - reflexivity.
  - intros k Hk. destruct k as [|[|k]]; [reflexivity | reflexivity | lia].
  - reflexivity.
  - injection Hdec as <-. exact H.
Defined.

(** C6, as the specification words it: the delay would double after every
    failed attempt.  The count of seconds is a plain [int] and the delay a
    [time.Duration] of 64 bits.  Where [int] is 64 bits wide the 29th sleep
    lasts 30 * 2^28 seconds and the 30th would last more nanoseconds than 64
    bits hold; where it is 32 bits wide the 27th sleep lasts 30 * 2^26
    seconds and the count of seconds for the 28th has left the range of
    [int].  Either way what [time.Sleep] receives next is below zero, not
    twice the sleep before. *)
Lemma loadCRDs_backoff_wraps :
  let wide := loadCRDs Int64bit demo_Unmarshal 30 (demo_cluster [] 0%Z) (crds_world 30) in
  let narrow :=
    loadCRDs Int32bit demo_Unmarshal 28 (demo_cluster [] 0%Z) (crds_world 28) in
  (nth 28 (slept (snd wide)) 0%Z = (30 * 2 ^ 28 * Second)%Z /\
   nth 29 (slept (snd wide)) 0%Z <> (2 * nth 28 (slept (snd wide)) 0)%Z /\
   (nth 29 (slept (snd wide)) 0 < 0)%Z) /\
  (nth 26 (slept (snd narrow)) 0%Z = (30 * 2 ^ 26 * Second)%Z /\
   nth 27 (slept (snd narrow)) 0%Z <> (2 * nth 26 (slept (snd narrow)) 0)%Z /\
   (nth 27 (slept (snd narrow)) 0 < 0)%Z).
Proof. cbv zeta. vm_compute. repeat split; discriminate. Qed.

(** C6. [loadCRDs] has no error to return.  On a new cluster, as long as the
    attempts fail (the request or the decoding of its reply) the loop goes
    on: after [n] failures it has made [n] requests, the cluster still
    reports no definitions, and it has slept after each failure, for
    [backoff_sleep 0], [backoff_sleep 1], ... : the 64-bit product of a count
    of seconds that starts at 30 and is doubled after every failure, which is
    30 * 2^k seconds for the first 27 sleeps whatever the width of [int], and
    for the first 29 where [int] is 64 bits wide.  The first attempt that
    succeeds ends the loop, however many turns it could still take. *)
Theorem loadCRDs_retries_with_backoff
    (unicode_lower : bytes -> bytes) (NewForConfig : Clientset -> Config -> option error)
    (int_size : IntSize)
    (json_Unmarshal : bytes -> result CustomResourceDefinitionList)
    (name : bytes) (restConfig : Config) (c : Cluster) (w : World) (n : nat) :
  NewCluster unicode_lower NewForConfig name restConfig = Ok c ->
  (forall k, k < n ->
             attempt_fails json_Unmarshal w (List.length (calls w) + k) = true) ->
  let out := loadCRDs int_size json_Unmarshal n c w in
  fst (fst out) = Some (backoff_offset int_size n) /\
  snd (fst out) = c /\
  GetCRDs (snd (fst out)) = [] /\
  calls (snd out) = calls w ++ repeat (event (DoRaw crds_request)) n /\
  slept (snd out) = slept w ++ map (backoff_sleep int_size) (seq 0 n) /\
  (forall k, k < 27 -> backoff_sleep int_size k = (30 * 2 ^ Z.of_nat k * Second)%Z) /\
  (forall k, k < 29 -> backoff_sleep Int64bit k = (30 * 2 ^ Z.of_nat k * Second)%Z) /\
  (attempt_fails json_Unmarshal w (List.length (calls w) + n) = false ->
   forall fuel,
     let out' := loadCRDs int_size json_Unmarshal (n + S fuel) c w in
     fst (fst out') = None /\
     calls (snd out') = calls w ++ repeat (event (DoRaw crds_request)) (S n) /\
     slept (snd out') = slept w ++ map (backoff_sleep int_size) (seq 0 n)).
Proof.
  intros Hnew Hfail. cbv zeta. unfold loadCRDs.
  rewrite (@loadCRDs_from_failures int_size json_Unmarshal n 30%Z c w Hfail).
  cbn [fst snd]. unfold GetCRDs. rewrite (NewCluster_crds _ _ _ _ Hnew).
  repeat split.
  - intros k Hk. apply backoff_sleep_exact. destruct int_size; cbn; lia.
  - intros k Hk. apply backoff_sleep_exact. exact Hk.
  - destruct (@loadCRDs_from_success int_size json_Unmarshal n fuel 30%Z c w Hfail H)
      as (crdList & _ & _ & Hrun).
    rewrite Hrun. reflexivity.
  - destruct (@loadCRDs_from_success int_size json_Unmarshal n fuel 30%Z c w Hfail H)
      as (crdList & _ & _ & Hrun).
    rewrite Hrun. unfold after_request, after_failures. cbn [snd calls].
    rewrite <- app_assoc. f_equal.
    change [event (DoRaw crds_request)] with (repeat (event (DoRaw crds_request)) 1).
    rewrite <- repeat_app. f_equal. lia.
  - destruct (@loadCRDs_from_success int_size json_Unmarshal n fuel 30%Z c w Hfail H)
      as (crdList & _ & _ & Hrun).
    rewrite Hrun. reflexivity.
Qed.

(** ** Concurrent callers of the namespace cache *)

(** A caller run on its own is [GetNamespaces]. *)
Lemma run_caller_GetNamespaces c ttl w :
  run_caller 4 (AtEntry ttl) c w
  = (Returned (fst (fst (GetNamespaces c ttl w))),
     snd (fst (GetNamespaces c ttl w)), snd (GetNamespaces c ttl w)).
Proof.
  unfold GetNamespaces, run_caller, step_caller, bind, time_Now, call, ret.
  destruct (cache_is_fresh c _ ttl); cbn [fst snd]; [reflexivity|].
  cbn [answer calls now clock_reads].
  destruct (answer w (List.length (calls w)) NamespacesList); reflexivity.
Qed.

Lemma update_split (A : Type) (l : list A) : forall i p,
  nth_error l i = Some p ->
  exists l1 l2, l = l1 ++ p :: l2 /\ forall x, update i x l = l1 ++ x :: l2.
Proof.
  induction l as [|h t IH]; intros i p H.
  - destruct i; discriminate H.
  - destruct i as [|i]; cbn in H.
    + injection H as ->. exists [], t. split; reflexivity.
    + destruct (IH i p H) as (l1 & l2 & -> & Hu).
      exists (h :: l1), l2. split; [reflexivity|].
      intros x. cbn. now rewrite Hu.
Qed.

Lemma replies_S w m :
  replies w (S m)
  = replies w m ++ [reply_result (answer w (List.length (calls w) + m) NamespacesList)].
Proof. unfold replies. rewrite seq_S, map_app. reflexivity. Qed.

Lemma replies_length w m : List.length (replies w m) = m.
Proof. unfold replies. now rewrite length_map, length_seq. Qed.

Lemma fetch_invariant_init s :
  Forall (fun p => p = AtList) (callers s) -> fetch_invariant s s.
Proof.
  intros Hall. repeat split.
  - eapply Forall_impl; [|exact Hall]. intros p ->. exact I.
  - exists 0. cbn. rewrite app_nil_r. split; [reflexivity|].
    induction Hall as [|p l -> _ IH]; cbn; [constructor | exact IH].
Qed.

Lemma step_caller_AtList c w :
  exists p',
    step_caller AtList c w
    = (p', c, mkWorld (answer w) (now w) (calls w ++ [event NamespacesList])
                      (clock_reads w) (slept w)) /\
    obtained p' = [reply_result (answer w (List.length (calls w)) NamespacesList)] /\
    past_entry p'.
Proof.
  unfold step_caller, bind, call, ret.
  destruct (answer w (List.length (calls w)) NamespacesList) as [l|e].
  - exists (AtStoreList (namespace_names l)). repeat split.
  - exists (Returned (Err e)). repeat split.
Qed.

(** A step of any caller keeps the invariant. *)
Lemma fetch_invariant_step s0 s s' i :
  fetch_invariant s0 s -> step_system i s = Some s' -> fetch_invariant s0 s'.
Proof.
  intros (Hpast & Hlen & Hans & m & Hcalls & Hperm) Hstep.
  unfold step_system in Hstep.
  destruct (nth_error (callers s) i) as [p|] eqn:Hp; [|discriminate].
  destruct (is_returned p) eqn:Hr; [discriminate|].
  injection Hstep as <-.
  destruct (update_split _ _ Hp) as (l1 & l2 & Hl & Hu).
  rewrite Hl in Hpast, Hperm, Hlen.
  assert (past_entry p) as Hpp.
  { apply Forall_app in Hpast. destruct Hpast as [_ H]. now inversion H. }
  apply Forall_app in Hpast. destruct Hpast as [Hp1 Hp2].
  apply Forall_cons_iff in Hp2. destruct Hp2 as [_ Hp2].
  rewrite flat_map_app in Hperm. cbn [flat_map] in Hperm.
  unfold fetch_invariant. cbn [callers world]. rewrite Hu.
  rewrite !length_app in *. cbn [List.length] in *.
  destruct p as [ttl| |names|names|r]; try discriminate Hr; [destruct Hpp| | |].
  - (* the listing *)
    destruct (step_caller_AtList (shared s) (world s)) as (p' & Hs & Hobt & Hpe).
    rewrite Hs. cbn [fst snd answer calls].
    repeat split.
    + apply Forall_app. split; [exact Hp1|]. constructor; [exact Hpe | exact Hp2].
    + exact Hlen.
    + exact Hans.
    + exists (S m). split.
      * rewrite Hcalls, <- app_assoc. f_equal.
        change [event NamespacesList] with (repeat (event NamespacesList) 1).
        rewrite <- repeat_app. f_equal. lia.
      * rewrite flat_map_app. cbn [flat_map]. rewrite Hobt, replies_S.
        rewrite Hans, Hcalls, length_app, repeat_length.
        cbn [obtained app] in Hperm. cbn [app].
        etransitivity; [apply Permutation_sym, Permutation_middle|].
        etransitivity; [apply perm_skip, Hperm|].
        apply Permutation_cons_append.
  - (* line 128 *)
    cbn [step_caller ret fst snd]. repeat split; try assumption.
    + apply Forall_app. split; [exact Hp1|]. constructor; [exact I | exact Hp2].
    + exists m. split; [exact Hcalls|].
      rewrite flat_map_app. exact Hperm.
  - (* line 129 *)
    unfold step_caller, bind, time_Now, ret. cbn [fst snd answer calls].
    repeat split; try assumption.
    + apply Forall_app. split; [exact Hp1|]. constructor; [exact I | exact Hp2].
    + exists m. split; [exact Hcalls|].
      rewrite flat_map_app. exact Hperm.
Qed.

Lemma fetch_invariant_run s0 sched : forall s s',
  fetch_invariant s0 s -> run sched s = Some s' -> fetch_invariant s0 s'.
Proof.
  induction sched as [|i sched IH]; intros s s' Hinv Hrun; cbn in Hrun.
  - injection Hrun as <-. exact Hinv.
  - destruct (step_system i s) as [s1|] eqn:Hstep; [|discriminate].
    eapply IH; [|exact Hrun]. eapply fetch_invariant_step; eassumption.
Qed.

Lemma obtained_all_returned l :
  Forall (fun p => is_returned p = true) l ->
  List.length (flat_map obtained l) = List.length l.
Proof.
  induction 1 as [|p l Hp _ IH]; [reflexivity|].
  destruct p; try discriminate Hp. cbn. now rewrite IH.
Qed.

Lemma loadCRDs_retries_with_backoff_witness :
  let c := mkCluster (mkCache [] zero_Time) (mkConfig (str "https://k8s.local"))
                     (str "my-cluster") [] in
  slept (snd (loadCRDs Int32bit demo_Unmarshal 3 c (crds_world 3)))
  = [(30 * Second)%Z; (60 * Second)%Z; (120 * Second)%Z] /\
  GetCRDs (snd (fst (loadCRDs Int32bit demo_Unmarshal 3 c (crds_world 3)))) = [] /\
  fst (fst (loadCRDs Int32bit demo_Unmarshal (3 + 1) c (crds_world 3))) = None.
Proof.
  cbv zeta.
  destruct (@loadCRDs_retries_with_backoff (fun s => s) no_error Int32bit demo_Unmarshal
              (str "My Cluster") (mkConfig (str "https://k8s.local"))
              (mkCluster (mkCache [] zero_Time) (mkConfig (str "https://k8s.local"))
                         (str "my-cluster") [])
              (crds_world 3) 3)
    as (_ & _ & Hcrds & _ & Hslept & _ & _ & Hend).
  - reflexivity.
  - intros k Hk. destruct k as [|[|[|k]]]; try reflexivity. lia.
  - split; [rewrite Hslept; reflexivity|]. split; [exact Hcrds|].
    destruct (Hend eq_refl 0) as [H _]. exact H.
Defined.

(** C3, as the specification words it: two callers that both find the cache expired
    would cause one listing and receive the same list.  Both pass the test of
    line 110 before either has stored anything; each then asks the cluster,
    and the second is told of a namespace the first was not. *)
Lemma concurrent_callers_fan_out :
  match run [0; 1] two_callers with
  | Some s1 =>
      callers s1 = [AtList; AtList] /\
      shared s1 = shared two_callers /\
      match run [0; 1; 0; 1; 0; 1] s1 with
      | Some s2 =>
          callers s2 = [Returned (Ok [str "default"]);
                        Returned (Ok [str "default"; str "kube-system"])] /\
          calls (world s2) = [event NamespacesList; event NamespacesList]
      | None => False
      end
  | None => False
  end.
Proof. cbn. repeat split. Qed.

(** C3. When each of N concurrent callers has found the cache expired before
    any of them has refreshed it, then however their steps interleave, once
    all have returned the cluster has been asked for its namespaces N times,
    once by each caller, and the results the callers return are the replies
    to these N listings, one each (the same list for all only where the
    cluster answered all N alike). *)
Theorem stale_callers_fetch_once_each (s s' : System) (sched : list nat) :
  Forall (fun p => p = AtList) (callers s) ->
  run sched s = Some s' ->
  Forall (fun p => is_returned p = true) (callers s') ->
  calls (world s')
  = calls (world s) ++ repeat (event NamespacesList) (List.length (callers s)) /\
  Permutation (flat_map obtained (callers s'))
              (replies (world s) (List.length (callers s))).
Proof.
  intros Hall Hrun Hdone.
  destruct (@fetch_invariant_run s sched s s' (@fetch_invariant_init s Hall) Hrun)
    as (_ & Hlen & _ & m & Hcalls & Hperm).
  assert (m = List.length (callers s)) as ->.
  { apply Permutation_length in Hperm.
    rewrite obtained_all_returned, replies_length in Hperm by exact Hdone.
    congruence. }
  split; assumption.
Qed.

Lemma stale_callers_fetch_once_each_witness :
  match run [0; 1; 1; 0; 0; 1] two_stale_callers with
  | Some s' =>
      calls (world s') = [event NamespacesList; event NamespacesList] /\
      Permutation (flat_map obtained (callers s')) (replies (world two_stale_callers) 2)
  | None => False
  end.
Proof.
  destruct (run [0; 1; 1; 0; 0; 1] two_stale_callers) as [s'|] eqn:Hrun;
    [|discriminate Hrun].
  apply (@stale_callers_fetch_once_each two_stale_callers s' [0; 1; 1; 0; 0; 1]).
  - repeat constructor.
  - exact Hrun.
  - cbn in Hrun. injection Hrun as <-. repeat constructor.
Defined.

(** ** Streamed logs *)

(** *** Searching for a byte *)

Lemma index_byte_lt s c i : index_byte s c = Some i -> i < List.length s.
Proof.
  revert i. induction s as [|x s IH]; intros i H; cbn in *; [discriminate|].
  destruct (ascii_dec x c); [injection H as <-; lia|].
  destruct (index_byte s c) as [j|]; [|discriminate].
  injection H as <-. specialize (IH j eq_refl). lia.
Qed.

Lemma index_byte_app_found s t c i :
  index_byte s c = Some i -> index_byte (s ++ t) c = Some i.
Proof.
  revert i. induction s as [|x s IH]; intros i H; cbn in *; [discriminate|].
  destruct (ascii_dec x c); [exact H|].
  destruct (index_byte s c) as [j|]; [|discriminate].
  now rewrite (IH j eq_refl).
Qed.

Lemma index_byte_app_missing s t c :
  index_byte s c = None ->
  index_byte (s ++ t) c
  = match index_byte t c with
    | Some i => Some (i + List.length s)
    | None => None
    end.
Proof.
  induction s as [|x s IH]; intros H; cbn in *.
  - destruct (index_byte t c); [f_equal; lia | reflexivity].
  - destruct (ascii_dec x c); [discriminate|].
    destruct (index_byte s c); [discriminate|].
    rewrite IH by reflexivity.
    destruct (index_byte t c); [f_equal; lia | reflexivity].
Qed.

Lemma index_byte_split s c i :
  index_byte s c = Some i ->
  s = firstn i s ++ c :: skipn (S i) s /\ index_byte (firstn i s) c = None.
Proof.
  revert i. induction s as [|x s IH]; intros i H; cbn in H; [discriminate|].
  destruct (ascii_dec x c) as [->|Hx].
  - injection H as <-. split; reflexivity.
  - destruct (index_byte s c) as [j|] eqn:Hj; [|discriminate].
    injection H as <-. destruct (IH j eq_refl) as [H1 H2].
    cbn [firstn skipn app]. split.
    + f_equal. exact H1.
    + cbn. destruct (ascii_dec x c); [contradiction|]. now rewrite H2.
Qed.

Lemma index_byte_firstn s c n i :
  index_byte (firstn n s) c = Some i -> index_byte s c = Some i.
Proof.
  intros H. rewrite <- (firstn_skipn n s). now apply index_byte_app_found.
Qed.

Lemma index_byte_firstn_None s c n :
  index_byte s c = None -> index_byte (firstn n s) c = None.
Proof.
  intros H. destruct (index_byte (firstn n s) c) as [i|] eqn:E; [|reflexivity].
  apply index_byte_firstn in E. congruence.
Qed.

(** A search that skips a part searched before finds what a full search
    finds. *)
Lemma index_byte_resume s c k :
  k <= List.length s ->
  index_byte (firstn k s) c = None ->
  index_byte s c
  = match index_byte (skipn k s) c with
    | Some i => Some (i + k)
    | None => None
    end.
Proof.
  intros Hk Hnone. rewrite <- (firstn_skipn k s) at 1.
  rewrite index_byte_app_missing by exact Hnone.
  rewrite length_firstn, Nat.min_l by exact Hk. reflexivity.
Qed.

(** *** The buffered reader on a stream of non-empty chunks *)

Lemma fill_tries_S i b :
  fill_tries (S i) b
  = let r := stream_Read (buf_size - List.length (unread b)) (rd b) in
    let data := fst (fst r) in
    match snd (fst r) with
    | Some e => mkReader (snd r) (unread b ++ data) (Some e)
    | None =>
        if 0 <? List.length data then mkReader (snd r) (unread b ++ data) (rerr b)
        else fill_tries i (mkReader (snd r) (unread b ++ data) (rerr b))
    end.
Proof. reflexivity. Qed.

Lemma fill_at_end b :
  chunks (rd b) = [] ->
  fill b = mkReader (rd b) (unread b ++ []) (Some (end_error (rd b))).
Proof.
  intros H. unfold fill, maxConsecutiveEmptyReads.
  rewrite fill_tries_S. unfold stream_Read. rewrite H. reflexivity.
Qed.

(** A read into a buffer that has room, before the end of the stream: at
    least one byte arrives, and the error of the end with it when these
    were the last bytes and the stream ends that way. *)
Lemma fill_reads b chunk rest :
  reader_ok b -> rerr b = None ->
  List.length (unread b) < buf_size -> chunks (rd b) = chunk :: rest ->
  exists extra,
    unread (fill b) = unread b ++ extra /\
    extra <> [] /\
    reader_ok (fill b) /\
    remaining (fill b) = remaining b /\
    end_error (rd (fill b)) = end_error (rd b) /\
    end_with_last (rd (fill b)) = end_with_last (rd b).
Proof.
  intros (Hne & Hlen & Hend & _) Herr Hroom Hrd.
  rewrite Hrd in Hne. apply Forall_cons_iff in Hne. destruct Hne as [Hc Hrest].
  assert (0 < List.length chunk) as Hpos by (destruct chunk; [congruence | cbn; lia]).
  unfold fill, maxConsecutiveEmptyReads. rewrite fill_tries_S, Herr.
  unfold stream_Read, remaining, reader_ok. rewrite Hrd.
  destruct (List.length chunk <=? buf_size - List.length (unread b)) eqn:Hfit;
    cbn [fst snd].
  - apply Nat.leb_le in Hfit.
    assert (List.length (unread b ++ chunk) <= buf_size) as Hlen'
        by (rewrite length_app; lia).
    destruct rest as [|next rest].
    + destruct (end_with_last (rd b)) eqn:Hlast.
      * exists chunk. cbn [unread rd rerr chunks end_error end_with_last List.concat].
        repeat split; try assumption; try constructor.
        rewrite <- ?app_assoc, ?app_nil_r. reflexivity.
      * apply Nat.ltb_lt in Hpos. rewrite Hpos.
        exists chunk. cbn [unread rd rerr chunks end_error end_with_last List.concat].
        repeat split; try assumption; try constructor; try congruence.
        rewrite <- ?app_assoc, ?app_nil_r. reflexivity.
    + apply Nat.ltb_lt in Hpos. rewrite Hpos.
      exists chunk. cbn [unread rd rerr chunks end_error end_with_last].
      repeat split; try assumption; try discriminate.
      cbn [List.concat]. now rewrite <- app_assoc.
  - apply Nat.leb_gt in Hfit.
    remember (buf_size - List.length (unread b)) as n eqn:En.
    assert (List.length (firstn n chunk) = n) as Hn
        by (rewrite length_firstn; lia).
    replace (0 <? List.length (firstn n chunk)) with true
      by (symmetry; apply Nat.ltb_lt; lia).
    exists (firstn n chunk). cbn [unread rd rerr chunks end_error end_with_last].
    repeat split; try assumption; try discriminate.
    + intros E. rewrite E in Hn. cbn in Hn. lia.
    + constructor; [|exact Hrest].
      intros E. apply (f_equal (@List.length ascii)) in E.
      rewrite length_skipn in E. cbn in E. lia.
    + rewrite length_app, Hn. lia.
    + cbn [List.concat]. rewrite <- !app_assoc. f_equal.
      rewrite app_assoc, firstn_skipn. reflexivity.
Qed.

Lemma firstn_remaining b n :
  n <= List.length (unread b) -> firstn n (remaining b) = firstn n (unread b).
Proof.
  intros H. unfold remaining. rewrite firstn_app.
  replace (n - List.length (unread b)) with 0 by lia.
  cbn. apply app_nil_r.
Qed.

Lemma skipn_remaining b n :
  n <= List.length (unread b) ->
  skipn n (remaining b) = skipn n (unread b) ++ List.concat (chunks (rd b)).
Proof.
  intros H. unfold remaining. rewrite skipn_app.
  replace (n - List.length (unread b)) with 0 by lia. reflexivity.
Qed.

Lemma index_byte_remaining b i :
  List.length (unread b) <= buf_size ->
  index_byte (unread b) nl = Some i ->
  index_byte (firstn buf_size (remaining b)) nl = Some i.
Proof.
  intros Hlen H. unfold remaining. rewrite firstn_app.
  rewrite firstn_all2 by exact Hlen. now apply index_byte_app_found.
Qed.

(** [ReadSlice] returns what it would return with the whole log at hand, in
    at most 17 turns of its loop. *)
Lemma ReadSlice_loop_whole fuel : forall b s,
  reader_ok b ->
  s <= List.length (unread b) ->
  index_byte (firstn s (unread b)) nl = None ->
  buf_size < fuel + List.length (unread b) ->
  let whole := read_slice_whole (end_with_last (rd b)) (remaining b) in
  exists b',
    ReadSlice_loop fuel s nl b
    = Some (fst (fst whole), at_end (end_error (rd b)) (snd (fst whole)), b') /\
    reader_ok b' /\
    end_error (rd b') = end_error (rd b) /\
    end_with_last (rd b') = end_with_last (rd b) /\
    remaining b' = snd whole /\
    (snd (fst whole) = Some ErrBufferFull ->
     unread b' = [] /\ rerr b' = None /\
     (end_with_last (rd b) = true -> chunks (rd b') <> [])).
Proof.
  induction fuel as [|fuel IH]; intros b s Hok Hs Hnone Hfuel; cbv zeta.
  - destruct Hok as (_ & Hlen & _). cbn in Hfuel. lia.
  - pose proof Hok as (Hne & Hlen & Hend & Herr).
    cbn [ReadSlice_loop].
    pose proof (index_byte_resume (unread b) nl Hs Hnone) as Hres.
    destruct (index_byte (skipn s (unread b)) nl) as [i|] eqn:Hfind.
    + (* the delimiter is among the unread bytes *)
      pose proof (index_byte_lt _ _ Hres) as Hi.
      unfold read_slice_whole.
      rewrite (index_byte_remaining b Hlen Hres). cbn [fst snd at_end].
      rewrite Nat.add_1_r.
      exists (mkReader (rd b) (skipn (S (i + s)) (unread b)) (rerr b)).
      rewrite firstn_remaining, skipn_remaining by lia.
      split; [reflexivity|]. split; [|repeat split; discriminate].
      unfold reader_ok. cbn [rerr rd unread].
      split; [exact Hne|]. split; [rewrite length_skipn; lia|].
      split; [exact Hend|].
      destruct (rerr b); [exact Herr|].
      intros Hl Hc. rewrite (Herr Hl Hc) in Hi. cbn in Hi. lia.
    + destruct (rerr b) as [e|] eqn:Hpending.
      * (* the error of the end is pending *)
        destruct Herr as (-> & Hc & Hl).
        assert (remaining b = unread b) as HR
            by (unfold remaining; rewrite Hc; apply app_nil_r).
        unfold read_slice_whole.
        rewrite HR, Hl, (index_byte_firstn_None _ _ _ Hres).
        replace (S buf_size <=? List.length (unread b)) with false
          by (symmetry; apply Nat.leb_gt; lia).
        cbn [fst snd at_end].
        exists (mkReader (rd b) [] None).
        split; [reflexivity|].
        split; [unfold reader_ok; cbn [rerr rd unread];
                repeat split; try assumption; cbn; lia|].
        split; [reflexivity|]. split; [exact Hl|].
        split; [unfold remaining; cbn [unread rd]; now rewrite Hc | discriminate].
      * destruct (buf_size <=? List.length (unread b)) eqn:Hfull.
        -- (* the buffer is full *)
           apply Nat.leb_le in Hfull.
           assert (firstn buf_size (remaining b) = unread b) as Hfirst.
           { replace buf_size with (List.length (unread b)) at 1 by lia.
             rewrite firstn_remaining by lia. apply firstn_all. }
           assert (end_with_last (rd b) = true -> chunks (rd b) <> []) as Hmore.
           { intros Hl Hc. rewrite (Herr Hl Hc) in Hfull.
             cbn in Hfull. unfold buf_size in Hfull. lia. }
           assert (((if end_with_last (rd b) then S buf_size else buf_size)
                    <=? List.length (remaining b)) = true) as Hthr.
           { apply Nat.leb_le. unfold remaining. rewrite length_app.
             destruct (end_with_last (rd b)); [|lia].
             specialize (Hmore eq_refl).
             destruct (chunks (rd b)) as [|chunk rest]; [congruence|].
             apply Forall_cons_iff in Hne. destruct Hne as [Hc _].
             cbn [List.concat]. rewrite length_app.
             destruct chunk; [congruence | cbn [List.length]; lia]. }
           unfold read_slice_whole. rewrite Hfirst, Hres, Hthr.
           cbn [fst snd at_end].
           exists (mkReader (rd b) [] None).
           split; [reflexivity|].
           split; [unfold reader_ok; cbn [rerr rd unread];
                   repeat split; try assumption; cbn; lia|].
           split; [reflexivity|]. split; [reflexivity|]. split.
           ++ unfold remaining at 1. cbn [unread rd app].
              replace buf_size with (List.length (unread b)) by lia.
              unfold remaining. now rewrite skipn_app, skipn_all, Nat.sub_diag.
           ++ intros _. repeat split. exact Hmore.
        -- apply Nat.leb_gt in Hfull.
           destruct (chunks (rd b)) as [|chunk rest] eqn:Hrd.
           ++ (* end of the stream *)
              rewrite (fill_at_end b Hrd), app_nil_r.
              destruct fuel as [|fuel]; [lia|].
              cbn [ReadSlice_loop unread rerr rd].
              rewrite skipn_all. cbn [index_byte].
              assert (remaining b = unread b) as HR
                  by (unfold remaining; rewrite Hrd; apply app_nil_r).
              unfold read_slice_whole.
              rewrite HR, (index_byte_firstn_None _ _ _ Hres).
              replace ((if end_with_last (rd b) then S buf_size else buf_size)
                       <=? List.length (unread b)) with false
                by (symmetry; apply Nat.leb_gt;
                    destruct (end_with_last (rd b)); lia).
              cbn [fst snd at_end].
              exists (mkReader (rd b) [] None).
              split; [reflexivity|].
              split; [unfold reader_ok; cbn [rerr rd unread]; rewrite Hrd;
                      repeat split; try assumption; try constructor; cbn; lia|].
              split; [reflexivity|]. split; [reflexivity|].
              split; [unfold remaining; cbn [unread rd]; now rewrite Hrd
                     | discriminate].
           ++ (* more bytes arrive *)
              destruct (fill_reads Hok Hpending Hfull Hrd)
                as (extra & Hun & Hextra & Hok' & HR & He & Hl).
              assert (0 < List.length extra)
                by (destruct extra; [congruence | cbn; lia]).
              destruct (IH (fill b) (List.length (unread b)) Hok')
                as (b' & Hrun & Hok'' & He' & Hl' & HR' & Hfull').
              ** rewrite Hun, length_app. lia.
              ** rewrite Hun, firstn_app, Nat.sub_diag, firstn_all.
                 cbn [firstn]. rewrite app_nil_r. exact Hres.
              ** rewrite Hun, length_app. lia.
              ** rewrite HR, He, Hl in *.
                 exists b'. split; [exact Hrun|]. split; [exact Hok''|].
                 split; [exact He'|]. split; [exact Hl'|].
                 split; [exact HR' | exact Hfull'].
Qed.

Lemma read_slice_whole_error together R :
  snd (fst (read_slice_whole together R)) = None \/
  snd (fst (read_slice_whole together R)) = Some ErrBufferFull \/
  snd (fst (read_slice_whole together R)) = Some EOF.
Proof.
  unfold read_slice_whole. destruct (index_byte _ nl); [left; reflexivity|].
  destruct (_ <=? _); right; [left | right]; reflexivity.
Qed.

(** [ReadLine] on a stream of non-empty chunks is [read_line_whole] on the
    bytes still to come: it depends on the log and on how the stream ends,
    not on the chunks. *)
Lemma ReadLine_whole b :
  reader_ok b ->
  let whole := read_line_whole (end_with_last (rd b)) (remaining b) in
  exists b',
    ReadLine b
    = Some (fst (fst (fst whole)), snd (fst (fst whole)),
            at_end (end_error (rd b)) (snd (fst whole)), b') /\
    reader_ok b' /\
    end_error (rd b') = end_error (rd b) /\
    end_with_last (rd b') = end_with_last (rd b) /\
    remaining b' = snd whole.
Proof.
  intros Hok. cbv zeta.
  destruct (@ReadSlice_loop_whole (S buf_size) b 0 Hok)
    as (b' & Hrs & Hok' & He & Hl & HR & Hfull).
  - lia.
  - reflexivity.
  - lia.
  - unfold ReadLine, ReadSlice. rewrite Hrs. unfold read_line_whole.
    pose proof (read_slice_whole_error (end_with_last (rd b)) (remaining b)) as Hcases.
    destruct (read_slice_whole (end_with_last (rd b)) (remaining b))
      as [[line err] R'].
    cbn [fst snd] in *.
    destruct Hcases as [-> | [-> | ->]]; cbn [at_end].
    + exists b'. destruct line; cbn [fst snd at_end];
        (split; [reflexivity|]; split; [exact Hok'|]; split; [exact He|];
         split; [exact Hl | exact HR]).
    + destruct (Hfull eq_refl) as (Hun & Herr & Hmore).
      destruct (ends_with cr line).
      * exists (mkReader (rd b') (cr :: unread b') (rerr b')).
        cbn [fst snd rd]. split; [reflexivity|].
        split; [|split; [exact He | split; [exact Hl|]]].
        -- destruct Hok' as (Hne & Hlen & Hend & _).
           repeat split; cbn [rerr rd unread]; try assumption.
           ++ rewrite Hun. cbn. unfold buf_size. lia.
           ++ rewrite Herr. intros Hl' Hc. exfalso.
              rewrite Hl in Hl'. exact (Hmore Hl' Hc).
        -- unfold remaining in *. cbn [unread rd]. rewrite Hun in *.
           cbn [app] in *. now rewrite HR.
      * exists b'. cbn [fst snd at_end].
        split; [reflexivity|]. split; [exact Hok'|]. split; [exact He|].
        split; [exact Hl | exact HR].
    + assert (end_error (rd b) <> ErrBufferFull) as Hend by apply Hok.
      exists b'. destruct (end_error (rd b)); try contradiction;
        destruct line; cbn [fst snd at_end];
        (split; [reflexivity|]; split; [exact Hok'|]; split; [exact He|];
         split; [exact Hl | exact HR]).
Qed.

(** *** The loop on the whole log *)

Lemma read_slice_whole_cases together R :
  (exists i, index_byte (firstn buf_size R) nl = Some i /\
             read_slice_whole together R
             = ((firstn (S i) R, None), skipn (S i) R)) \/
  (index_byte (firstn buf_size R) nl = None /\ buf_size <= List.length R /\
   (together = true -> buf_size < List.length R) /\
   read_slice_whole together R
   = ((firstn buf_size R, Some ErrBufferFull), skipn buf_size R)) \/
  (index_byte R nl = None /\ List.length R <= buf_size /\
   (together = false -> List.length R < buf_size) /\
   read_slice_whole together R = ((R, Some EOF), [])).
Proof.
  unfold read_slice_whole.
  destruct (index_byte (firstn buf_size R) nl) as [i|] eqn:Hi.
  - left. exists i. split; reflexivity.
  - right.
    destruct ((if together then S buf_size else buf_size) <=? List.length R) eqn:Hlen.
    + left. apply Nat.leb_le in Hlen.
      destruct together; repeat split; try lia; discriminate.
    + right. apply Nat.leb_gt in Hlen.
      assert (List.length R <= buf_size) as Hle by (destruct together; lia).
      rewrite firstn_all2 in Hi by exact Hle.
      destruct together; repeat split; try assumption; try lia; discriminate.
Qed.

(** Every read that returns no error takes at least one byte, and the only
    error is the end of the log. *)
Lemma read_line_whole_progress together R :
  match snd (fst (read_line_whole together R)) with
  | None => List.length (snd (read_line_whole together R)) < List.length R
  | Some e => e = EOF /\ R = []
  end.
Proof.
  unfold read_line_whole.
  destruct (read_slice_whole_cases together R)
    as [(i & Hi & ->) | [(Hi & Hlen & _ & ->) | (Hi & Hlen & _ & ->)]].
  - pose proof (index_byte_lt _ _ (index_byte_firstn _ _ _ Hi)) as Hlt.
    destruct (firstn (S i) R) eqn:E.
    + apply (f_equal (@List.length ascii)) in E. rewrite length_firstn in E.
      change (List.length (@nil ascii)) with 0 in E. lia.
    + cbn [fst snd]. rewrite length_skipn. lia.
  - destruct (ends_with cr (firstn buf_size R)); cbn [fst snd List.length];
      rewrite length_skipn; unfold buf_size in *; lia.
  - destruct R; cbn [fst snd List.length]; [split; reflexivity | lia].
Qed.

Lemma whole_loop_fuel together fuel1 : forall fuel2 R lastLine,
  List.length R < fuel1 -> List.length R < fuel2 ->
  whole_loop together fuel1 R lastLine = whole_loop together fuel2 R lastLine.
Proof.
  induction fuel1 as [|fuel1 IH]; intros fuel2 R lastLine H1 H2; [lia|].
  destruct fuel2 as [|fuel2]; [lia|].
  cbn [whole_loop].
  pose proof (read_line_whole_progress together R) as Hp.
  destruct (read_line_whole together R) as [[[data isPrefix] err] R'].
  cbn [fst snd] in Hp. destruct err; [reflexivity|].
  f_equal. apply IH; lia.
Qed.

Lemma write_all_unlimited lines : forall conn,
  writes_left conn = None ->
  write_all lines conn = (None, mkConn (written conn ++ lines) None).
Proof.
  induction lines as [|line lines IH]; intros [w l] H; cbn in H; subst l.
  - cbn. now rewrite app_nil_r.
  - cbn [write_all]. unfold WriteMessage. cbn [writes_left written].
    rewrite IH by reflexivity. cbn [written]. now rewrite <- app_assoc.
Qed.

(** The loop of [StreamLogs] writes what the loop on the whole log yields,
    and returns the error of the end of the stream. *)
Lemma StreamLogs_loop_whole fuel : forall b lastLine conn,
  reader_ok b ->
  writes_left conn = None ->
  List.length (remaining b) < fuel ->
  StreamLogs_loop fuel b lastLine conn
  = Some (end_error (rd b),
          mkConn (written conn
                  ++ whole_loop (end_with_last (rd b)) fuel (remaining b) lastLine)
                 None).
Proof.
  induction fuel as [|fuel IH]; intros b lastLine conn Hok Hconn Hfuel; [lia|].
  cbn [StreamLogs_loop whole_loop].
  destruct (ReadLine_whole Hok) as (b' & -> & Hok' & He & Hl & HR).
  pose proof (read_line_whole_progress (end_with_last (rd b)) (remaining b)) as Hp.
  destruct (read_line_whole (end_with_last (rd b)) (remaining b))
    as [[[data isPrefix] err] R'].
  cbn [fst snd] in *. destruct err as [e|].
  - destruct Hp as [-> _]. cbn [at_end]. rewrite app_nil_r.
    destruct conn as [w l]. cbn in Hconn. subst l. reflexivity.
  - cbn [at_end]. rewrite write_all_unlimited by exact Hconn.
    rewrite IH; cbn [written writes_left]; try assumption; try reflexivity.
    + rewrite HR, He, Hl, <- app_assoc. reflexivity.
    + rewrite HR. lia.
Qed.

Lemma NewReaderSize_ok stream :
  Forall (fun chunk => chunk <> []) (chunks stream) ->
  end_error stream <> ErrBufferFull ->
  reader_ok (NewReaderSize stream).
Proof.
  intros Hne Hend. repeat split; cbn; try assumption; lia.
Qed.

(** What [StreamLogs] writes does not depend on how the log is cut into
    chunks. *)
Lemma StreamLogs_loop_emitted stream fuel conn :
  Forall (fun chunk => chunk <> []) (chunks stream) ->
  end_error stream <> ErrBufferFull ->
  writes_left conn = None ->
  List.length (List.concat (chunks stream)) < fuel ->
  StreamLogs_loop fuel (NewReaderSize stream) [] conn
  = Some (end_error stream,
          mkConn (written conn
                  ++ emitted (end_with_last stream) (List.concat (chunks stream)))
                 None).
Proof.
  intros Hne Hend Hconn Hfuel.
  rewrite StreamLogs_loop_whole; try assumption.
  - unfold emitted, remaining, NewReaderSize. cbn [unread rd app].
    do 4 f_equal. apply whole_loop_fuel; [exact Hfuel | lia].
  - now apply NewReaderSize_ok.
Qed.

(** *** The lines written are the lines of the log *)

Lemma ends_with_cons c x y l : ends_with c (x :: y :: l) = ends_with c (y :: l).
Proof. reflexivity. Qed.

Lemma ends_with_app c s t : t <> [] -> ends_with c (s ++ t) = ends_with c t.
Proof.
  intros Ht. induction s as [|x s IH]; [reflexivity|].
  cbn [app]. destruct (s ++ t) as [|y l] eqn:E.
  - destruct s; [cbn in E; congruence | discriminate E].
  - rewrite ends_with_cons. exact IH.
Qed.

Lemma ends_with_last c s x :
  ends_with c (s ++ [x]) = if ascii_dec x c then true else false.
Proof. rewrite ends_with_app by discriminate. reflexivity. Qed.

Lemma ends_with_removelast c l : ends_with c l = true -> l = removelast l ++ [c].
Proof.
  induction l as [|x l IH]; intros H; [discriminate|].
  destruct l as [|y l].
  - cbn in H. destruct (ascii_dec x c); [subst; reflexivity | discriminate].
  - rewrite ends_with_cons in H. specialize (IH H).
    change (removelast (x :: y :: l)) with (x :: removelast (y :: l)).
    cbn [app]. f_equal. exact IH.
Qed.

Lemma ends_with_found c l : ends_with c l = true -> index_byte l c <> None.
Proof.
  intros H. rewrite (ends_with_removelast _ _ H).
  destruct (index_byte (removelast l) c) as [i|] eqn:E.
  - rewrite (index_byte_app_found _ _ _ E). discriminate.
  - rewrite index_byte_app_missing by exact E. cbn.
    destruct (ascii_dec c c); [discriminate | congruence].
Qed.

Lemma drop_eol_line L : drop_eol (L ++ [nl]) = strip_cr L.
Proof.
  unfold drop_eol, strip_cr. rewrite ends_with_last.
  destruct (ascii_dec nl nl); [|congruence].
  rewrite removelast_last. reflexivity.
Qed.

Lemma strip_cr_cons c x L : strip_cr (c :: x :: L) = c :: strip_cr (x :: L).
Proof.
  unfold strip_cr. rewrite ends_with_cons.
  destruct (ends_with cr (x :: L)); reflexivity.
Qed.

Lemma prefix_first_nil lines : lines <> [] -> prefix_first [] lines = lines.
Proof. destruct lines; [congruence | reflexivity]. Qed.

Lemma reassemble_prefix_first data isPrefix lastLine :
  reassemble data isPrefix lastLine
  = let lines := prefix_first lastLine (Split data cr) in
    if isPrefix then (removelast lines, last lines []) else (lines, []).
Proof.
  unfold reassemble. destruct lastLine as [|x lastLine].
  - cbn [List.length Nat.ltb Nat.leb]. cbv zeta.
    rewrite prefix_first_nil by apply Split_nonempty. reflexivity.
  - reflexivity.
Qed.

Lemma Split_cons_sep s sep : Split (sep :: s) sep = [] :: Split s sep.
Proof. cbn. destruct (ascii_dec sep sep); [reflexivity | congruence]. Qed.

Lemma Split_cons_other c s sep :
  c <> sep -> Split (c :: s) sep = (c :: hd [] (Split s sep)) :: tl (Split s sep).
Proof.
  intros H. cbn. destruct (ascii_dec c sep); [contradiction|].
  pose proof (Split_nonempty s sep). destruct (Split s sep); [congruence | reflexivity].
Qed.

Lemma prefix_first_other cur c s :
  c <> cr ->
  prefix_first cur (Split (c :: s) cr) = prefix_first (cur ++ [c]) (Split s cr).
Proof.
  intros H. rewrite Split_cons_other by exact H.
  unfold prefix_first. cbn [hd tl]. now rewrite <- app_assoc.
Qed.

Lemma index_byte_cons_None c s x :
  index_byte (c :: s) x = None -> c <> x /\ index_byte s x = None.
Proof.
  cbn. destruct (ascii_dec c x); [discriminate|].
  destruct (index_byte s x); [discriminate|]. split; [assumption | reflexivity].
Qed.

(** A line that ends in a newline: the loop writes its pieces between
    carriage returns, the specification counts the same lines. *)
Lemma split_terminated_line L : forall cur R',
  index_byte L nl = None ->
  split_terminated cur (L ++ nl :: R')
  = prefix_first cur (Split (strip_cr L) cr) ++ split_terminated [] R'.
Proof.
  induction L as [|c L IH]; intros cur R' Hnl.
  - cbn. destruct (ascii_dec nl nl); [|congruence].
    unfold prefix_first. cbn. now rewrite app_nil_r.
  - apply index_byte_cons_None in Hnl. destruct Hnl as [Hc Hnl].
    cbn [app split_terminated]. destruct (ascii_dec c nl); [contradiction|].
    destruct (ascii_dec c cr) as [->|Hcr].
    + destruct L as [|x L].
      * cbn [app]. destruct (ascii_dec nl nl); [|congruence].
        unfold prefix_first. cbn. now rewrite app_nil_r.
      * pose proof (index_byte_cons_None _ _ _ Hnl) as [Hx _].
        cbn [app]. destruct (ascii_dec x nl); [contradiction|].
        change (x :: L ++ nl :: R') with ((x :: L) ++ nl :: R').
        rewrite IH by exact Hnl.
        rewrite strip_cr_cons, Split_cons_sep.
        rewrite prefix_first_nil by apply Split_nonempty.
        unfold prefix_first. cbn [hd tl]. now rewrite app_nil_r.
    + rewrite IH by exact Hnl.
      destruct L as [|x L].
      * unfold strip_cr. cbn [ends_with].
        destruct (ascii_dec c cr); [contradiction|].
        now rewrite (prefix_first_other cur [] Hcr).
      * rewrite strip_cr_cons. now rewrite (prefix_first_other cur _ Hcr).
Qed.

Lemma removelast_cons (A : Type) (a : A) l :
  l <> [] -> removelast (a :: l) = a :: removelast l.
Proof. destruct l; [congruence | reflexivity]. Qed.

Lemma last_cons (A : Type) (a : A) l d : l <> [] -> last (a :: l) d = last l d.
Proof. destruct l; [congruence | reflexivity]. Qed.

(** The beginning of a line too long for the buffer: the loop writes its
    pieces but the last, which it keeps for the next turn. *)
Lemma split_terminated_prefix P : forall cur R',
  index_byte P nl = None ->
  (ends_with cr P = true -> hd_error R' <> Some nl) ->
  split_terminated cur (P ++ R')
  = removelast (prefix_first cur (Split P cr))
    ++ split_terminated (last (prefix_first cur (Split P cr)) []) R'.
Proof.
  induction P as [|c P IH]; intros cur R' Hnl Hcr.
  - unfold prefix_first. cbn. now rewrite app_nil_r.
  - apply index_byte_cons_None in Hnl. destruct Hnl as [Hc Hnl].
    cbn [app split_terminated]. destruct (ascii_dec c nl); [contradiction|].
    destruct (ascii_dec c cr) as [->|Hccr].
    + rewrite Split_cons_sep. unfold prefix_first at 1 2. cbn [hd tl].
      rewrite app_nil_r, removelast_cons, last_cons by apply Split_nonempty.
      destruct P as [|x P].
      * specialize (Hcr eq_refl). cbn [app Split removelast last].
        destruct R' as [|c' R'']; [reflexivity|].
        destruct (ascii_dec c' nl) as [->|]; [cbn in Hcr; congruence | reflexivity].
      * pose proof (index_byte_cons_None _ _ _ Hnl) as [Hx _].
        cbn [app]. destruct (ascii_dec x nl); [contradiction|].
        change (x :: P ++ R') with ((x :: P) ++ R').
        rewrite IH by assumption.
        rewrite prefix_first_nil by apply Split_nonempty. reflexivity.
    + rewrite IH.
      * now rewrite (prefix_first_other cur P Hccr).
      * exact Hnl.
      * intros He. apply Hcr. destruct P; [discriminate He | exact He].
Qed.

Lemma newline_terminated_tail L R' :
  newline_terminated (L ++ nl :: R') -> newline_terminated R'.
Proof.
  intros [H|H].
  - destruct L; discriminate H.
  - destruct R' as [|x R']; [left; reflexivity|]. right.
    change (L ++ nl :: x :: R') with (L ++ [nl] ++ x :: R') in H.
    rewrite app_assoc, ends_with_app in H by discriminate. exact H.
Qed.

Lemma newline_terminated_rest P R' :
  P ++ R' <> [] -> index_byte P nl = None ->
  newline_terminated (P ++ R') -> R' <> [] /\ newline_terminated R'.
Proof.
  intros Hne Hnl [H|H]; [contradiction|].
  destruct R' as [|x R'].
  - rewrite app_nil_r in H. apply ends_with_found in H. contradiction.
  - split; [discriminate|]. right.
    rewrite ends_with_app in H by discriminate. exact H.
Qed.

(** On a log whose lines all end in a newline, the loop on the whole log
    yields the lines of the specification. *)
Lemma whole_loop_split together fuel : forall R lastLine,
  List.length R < fuel ->
  newline_terminated R ->
  (R = [] -> lastLine = []) ->
  whole_loop together fuel R lastLine = split_terminated lastLine R.
Proof.
  induction fuel as [|fuel IH]; intros R lastLine Hfuel Hterm Hlast; [lia|].
  cbn [whole_loop]. unfold read_line_whole.
  destruct (read_slice_whole_cases together R)
    as [(i & Hi & ->) | [(Hi & Hlen & _ & ->) | (Hi & Hlen & _ & ->)]].
  - (* a line end within the buffer *)
    apply index_byte_firstn in Hi.
    destruct (index_byte_split _ _ Hi) as [HR Hnone].
    pose proof (index_byte_lt _ _ Hi) as Hlt.
    assert (firstn (S i) R = firstn i R ++ [nl]) as Hline.
    { rewrite HR at 1. rewrite firstn_app, length_firstn, Nat.min_l by lia.
      rewrite firstn_firstn, Nat.min_r by lia.
      replace (S i - i) with 1 by lia. reflexivity. }
    rewrite Hline.
    destruct (firstn i R ++ [nl]) as [|x l] eqn:E;
      [destruct (firstn i R); discriminate E|].
    rewrite <- E, drop_eol_line, reassemble_prefix_first. cbv zeta. cbn [fst snd].
    rewrite HR in Hterm. apply newline_terminated_tail in Hterm.
    rewrite IH; [| rewrite length_skipn; lia | exact Hterm | reflexivity].
    rewrite HR at 3. symmetry. apply split_terminated_line. exact Hnone.
  - (* a line longer than the buffer *)
    assert (R <> []) as HRne by (destruct R; [cbn in Hlen; unfold buf_size in Hlen; lia | discriminate]).
    destruct (ends_with cr (firstn buf_size R)) eqn:Hcr.
    + pose proof (ends_with_removelast _ _ Hcr) as Hsplit.
      assert (R = removelast (firstn buf_size R) ++ cr :: skipn buf_size R) as HR.
      { rewrite <- (firstn_skipn buf_size R) at 1. rewrite Hsplit at 1.
        rewrite <- app_assoc. reflexivity. }
      assert (index_byte (removelast (firstn buf_size R)) nl = None) as Hnone.
      { destruct (index_byte (removelast (firstn buf_size R)) nl) eqn:E; [|reflexivity].
        rewrite Hsplit, (index_byte_app_found _ _ _ E) in Hi. discriminate. }
      rewrite reassemble_prefix_first. cbv zeta. cbn [fst snd].
      rewrite HR in Hterm, HRne.
      destruct (newline_terminated_rest _ _ HRne Hnone Hterm) as [Hne' Hterm'].
      rewrite IH; [| | exact Hterm' | congruence].
      * rewrite HR at 4. symmetry. apply split_terminated_prefix; [exact Hnone|].
        intros _. cbn. intros H. injection H as H. discriminate H.
      * cbn [List.length]. rewrite length_skipn. unfold buf_size in *. lia.
    + rewrite reassemble_prefix_first. cbv zeta. cbn [fst snd].
      pose proof (firstn_skipn buf_size R) as HR.
      rewrite <- HR in Hterm, HRne.
      destruct (newline_terminated_rest _ _ HRne Hi Hterm) as [Hne' Hterm'].
      rewrite IH; [| | exact Hterm' | congruence].
      * rewrite <- HR at 4. symmetry. apply split_terminated_prefix; [exact Hi|].
        rewrite Hcr. discriminate.
      * rewrite length_skipn. unfold buf_size in *. lia.
  - (* the end of the log *)
    destruct Hterm as [->|Hterm].
    + rewrite (Hlast eq_refl). reflexivity.
    + apply ends_with_found in Hterm. contradiction.
Qed.

(** On a log whose lines all end in a newline, what [StreamLogs] writes is
    the lines of the log. *)
Lemma emitted_split_lines together s :
  newline_terminated s -> emitted together s = split_lines s.
Proof.
  intros H. unfold emitted, split_lines.
  apply whole_loop_split; [lia | exact H | reflexivity].
Qed.

(** [StreamLogs] on a stream of non-empty chunks and a connection that takes
    every write: it asks for the stream once, writes what [emitted] says of
    the log, and returns the end of the stream as its error. *)
Lemma StreamLogs_emitted (c : Cluster) (w : World) (conn : Conn)
    (namespace name container : bytes) (since tail : Z) (follow : bool)
    (stream : Stream) (fuel : nat) :
  answer w (List.length (calls w))
         (PodLogsStream namespace name (StreamLogs_options container since tail follow))
  = Ok stream ->
  Forall (fun chunk => chunk <> []) (chunks stream) ->
  end_error stream <> ErrBufferFull ->
  writes_left conn = None ->
  List.length (List.concat (chunks stream)) < fuel ->
  StreamLogs fuel c conn namespace name container since tail follow w
  = (Some (end_error stream, mkConn (written conn ++ emitted (end_with_last stream) (List.concat (chunks stream))) None),
     mkWorld (answer w) (now w)
             (calls w ++ [event (PodLogsStream namespace name
                                   (StreamLogs_options container since tail follow))])
             (clock_reads w) (slept w)).
Proof.
  intros Hreply Hne Hend Hconn Hfuel. unfold StreamLogs, bind, call, ret.
  cbn [fst snd answer calls]. rewrite Hreply.
  rewrite StreamLogs_loop_emitted by assumption. reflexivity.
Qed.

(** A log whose lines all end in a newline, in whatever chunks it comes
    (chunks of one byte included): the messages written are the lines of the
    log, in order, a line cut by a chunk or by the buffer put together
    again. *)
Lemma StreamLogs_writes_lines (c : Cluster) (w : World) (conn : Conn)
    (namespace name container : bytes) (since tail : Z) (follow : bool)
    (stream : Stream) (fuel : nat) :
  answer w (List.length (calls w))
         (PodLogsStream namespace name (StreamLogs_options container since tail follow))
  = Ok stream ->
  Forall (fun chunk => chunk <> []) (chunks stream) ->
  end_error stream <> ErrBufferFull ->
  newline_terminated (List.concat (chunks stream)) ->
  writes_left conn = None ->
  List.length (List.concat (chunks stream)) < fuel ->
  fst (StreamLogs fuel c conn namespace name container since tail follow w)
  = Some (end_error stream, mkConn (written conn ++ split_lines (List.concat (chunks stream))) None).
Proof.
  intros Hreply Hne Hend Hterm Hconn Hfuel.
  rewrite (StreamLogs_emitted c w conn namespace name container since tail follow
             Hreply Hne Hend Hconn Hfuel).
  cbn [fst]. now rewrite emitted_split_lines.
Qed.

Example StreamLogs_one_byte_chunks :
  let log := str "ready" ++ [cr] ++ str "10%" ++ [cr] ++ str "a line of more than sixteen bytes"
             ++ [cr; nl] ++ str "done" ++ [nl] in
  fst (StreamLogs 100 (demo_cluster [] 0%Z) open_conn (str "ns") (str "pod") (str "app")
                  0 0 true (stream_world (Ok (eof_after (map (fun x => [x]) log)))))
  = Some (EOF, mkConn [str "ready"; str "10%"; str "a line of more than sixteen bytes";
                       str "done"] None).
Proof. reflexivity. Qed.

(** C1. The log of one line of 16 bytes with no line end after it, in
    whatever chunks it comes, on a stream that returns its end by a read of
    its own: [ReadLine] hands the 16 bytes out as the beginning of a line,
    the loop keeps them in [lastLine], the next read returns the end of the
    stream, and [StreamLogs] returns without having written anything.  The
    log has one line, and a line of 17 bytes in its place is written, as is
    the line of 16 bytes itself when the end of the stream comes together
    with its last bytes. *)
Theorem StreamLogs_drops_unterminated_line (c : Cluster) (w : World)
    (namespace name container : bytes) (since tail : Z) (follow : bool)
    (stream : Stream) (fuel : nat) :
  answer w (List.length (calls w))
         (PodLogsStream namespace name (StreamLogs_options container since tail follow))
  = Ok stream ->
  Forall (fun chunk => chunk <> []) (chunks stream) ->
  end_error stream <> ErrBufferFull ->
  end_with_last stream = false ->
  List.concat (chunks stream) = sixteen ->
  16 < fuel ->
  fst (StreamLogs fuel c open_conn namespace name container since tail follow w)
  = Some (end_error stream, open_conn) /\
  split_lines sixteen = [sixteen] /\
  emitted false (sixteen ++ str "a") = [sixteen ++ str "a"] /\
  emitted true sixteen = [sixteen].
Proof.
  intros Hreply Hne Hend Hlast Hlog Hfuel.
  rewrite (@StreamLogs_emitted c w open_conn namespace name container since tail
             follow stream fuel Hreply Hne Hend eq_refl)
    by (rewrite Hlog; exact Hfuel).
  rewrite Hlog, Hlast. repeat split.
Qed.

Lemma StreamLogs_drops_unterminated_line_witness :
  fst (StreamLogs 17 (demo_cluster [] 0%Z) open_conn (str "ns") (str "pod") (str "app")
                  0 0 false
                  (stream_world (Ok (eof_after [str "aaaaaaa"; str "a"; str "aaaaaaaa"]))))
  = Some (EOF, open_conn).
Proof.
  apply (@StreamLogs_drops_unterminated_line (demo_cluster [] 0%Z)
           (stream_world (Ok (eof_after [str "aaaaaaa"; str "a"; str "aaaaaaaa"])))
           (str "ns") (str "pod") (str "app") 0%Z 0%Z false
           (eof_after [str "aaaaaaa"; str "a"; str "aaaaaaaa"]) 17).
  - reflexivity.
  - repeat constructor; discriminate.
  - discriminate.
  - reflexivity.
  - reflexivity.
  - lia.
Defined.

(** * Further properties *)

(** ** Streamed logs: chunks, writes and the last line *)

Lemma write_all_app l1 : forall l2 conn,
  write_all (l1 ++ l2) conn
  = match write_all l1 conn with
    | (Some e, conn') => (Some e, conn')
    | (None, conn') => write_all l2 conn'
    end.
Proof.
  induction l1 as [|x l1 IH]; intros l2 conn; [reflexivity|].
  cbn [app write_all]. destruct (WriteMessage conn x) as [[e|] conn'].
  - reflexivity.
  - apply IH.
Qed.

Lemma deliver_app end_err l1 l2 conn :
  deliver end_err (l1 ++ l2) conn
  = match write_all l1 conn with
    | (Some e, conn') => (e, conn')
    | (None, conn') => deliver end_err l2 conn'
    end.
Proof.
  unfold deliver. rewrite write_all_app.
  destruct (write_all l1 conn) as [[e|] conn']; reflexivity.
Qed.

(** Whatever the connection does, the loop of [StreamLogs] hands it the
    messages of the loop on the whole log. *)
Lemma StreamLogs_loop_deliver fuel : forall b lastLine conn,
  reader_ok b ->
  List.length (remaining b) < fuel ->
  StreamLogs_loop fuel b lastLine conn
  = Some (deliver (end_error (rd b))
                  (whole_loop (end_with_last (rd b)) fuel (remaining b) lastLine)
                  conn).
Proof.
  induction fuel as [|fuel IH]; intros b lastLine conn Hok Hfuel; [lia|].
  cbn [StreamLogs_loop whole_loop].
  destruct (ReadLine_whole Hok) as (b' & -> & Hok' & He & Hl & HR).
  pose proof (read_line_whole_progress (end_with_last (rd b)) (remaining b)) as Hp.
  destruct (read_line_whole (end_with_last (rd b)) (remaining b))
    as [[[data isPrefix] err] R'].
  cbn [fst snd] in *. destruct err as [e|].
  - destruct Hp as [-> _]. reflexivity.
  - cbn [at_end]. rewrite deliver_app.
    destruct (write_all (fst (reassemble data isPrefix lastLine)) conn)
      as [[e|] conn']; [reflexivity|].
    rewrite IH by (try assumption; rewrite HR; lia).
    now rewrite HR, He, Hl.
Qed.

Lemma StreamLogs_deliver (c : Cluster) (w : World) (conn : Conn)
    (namespace name container : bytes) (since tail : Z) (follow : bool)
    (stream : Stream) (fuel : nat) :
  answer w (List.length (calls w))
         (PodLogsStream namespace name (StreamLogs_options container since tail follow))
  = Ok stream ->
  Forall (fun chunk => chunk <> []) (chunks stream) ->
  end_error stream <> ErrBufferFull ->
  List.length (List.concat (chunks stream)) < fuel ->
  fst (StreamLogs fuel c conn namespace name container since tail follow w)
  = Some (deliver (end_error stream)
                  (emitted (end_with_last stream) (List.concat (chunks stream))) conn).
Proof.
  intros Hreply Hne Hend Hfuel. unfold StreamLogs, bind, call, ret.
  cbn [fst snd answer calls]. rewrite Hreply. cbn [fst].
  rewrite StreamLogs_loop_deliver.
  - unfold emitted, remaining, NewReaderSize. cbn [unread rd app].
    do 2 f_equal. apply whole_loop_fuel; [exact Hfuel | lia].
  - now apply NewReaderSize_ok.
  - exact Hfuel.
Qed.

(** How the log is cut into chunks does not matter.  The messages written
    and the error returned depend on the bytes of the log, on the error that
    ends the stream and on whether that error comes together with the last
    bytes or by a read of its own, and on nothing else: two streams that
    agree on these make [StreamLogs] do the same on any connection. *)
Theorem StreamLogs_chunking_irrelevant (c : Cluster) (w1 w2 : World) (conn : Conn)
    (namespace name container : bytes) (since tail : Z) (follow : bool)
    (stream1 stream2 : Stream) (fuel : nat) :
  answer w1 (List.length (calls w1))
         (PodLogsStream namespace name (StreamLogs_options container since tail follow))
  = Ok stream1 ->
  answer w2 (List.length (calls w2))
         (PodLogsStream namespace name (StreamLogs_options container since tail follow))
  = Ok stream2 ->
  Forall (fun chunk => chunk <> []) (chunks stream1) ->
  Forall (fun chunk => chunk <> []) (chunks stream2) ->
  List.concat (chunks stream1) = List.concat (chunks stream2) ->
  end_error stream1 = end_error stream2 ->
  end_with_last stream1 = end_with_last stream2 ->
  end_error stream1 <> ErrBufferFull ->
  List.length (List.concat (chunks stream1)) < fuel ->
  fst (StreamLogs fuel c conn namespace name container since tail follow w1)
  = fst (StreamLogs fuel c conn namespace name container since tail follow w2).
Proof.
  intros H1 H2 Hne1 Hne2 Hcat He Hl Hend Hfuel.
  rewrite (StreamLogs_deliver c w1 conn namespace name container since tail follow
             H1 Hne1 Hend Hfuel).
  rewrite (StreamLogs_deliver c w2 conn namespace name container since tail follow
             H2 Hne2) by (rewrite <- ?Hcat, <- ?He; assumption).
  now rewrite Hcat, He, Hl.
Qed.

Lemma write_all_limited lines : forall conn k,
  writes_left conn = Some k ->
  write_all lines conn
  = if k <? List.length lines
    then (Some write_error, mkConn (written conn ++ firstn k lines) (Some 0))
    else (None, mkConn (written conn ++ lines) (Some (k - List.length lines))).
Proof.
  induction lines as [|x lines IH]; intros [wr l] k H; cbn in H; subst l.
  - cbn. rewrite app_nil_r, Nat.sub_0_r. reflexivity.
  - cbn [write_all]. unfold WriteMessage. cbn [writes_left written].
    destruct k as [|k].
    + cbn. rewrite app_nil_r. reflexivity.
    + rewrite (IH _ k) by reflexivity. cbn [written List.length firstn].
      change (S k <? S (List.length lines)) with (k <? List.length lines).
      rewrite <- !app_assoc. cbn [app Nat.sub]. reflexivity.
Qed.

(** A connection that takes [k] more writes: [StreamLogs] writes the first
    [k] messages of the log, in order, and nothing after the write that
    fails; it returns the error of that write, or the end of the stream when
    the log has no more than [k] messages. *)
Theorem StreamLogs_stops_at_failed_write (c : Cluster) (w : World) (conn : Conn)
    (namespace name container : bytes) (since tail : Z) (follow : bool)
    (stream : Stream) (fuel k : nat) :
  answer w (List.length (calls w))
         (PodLogsStream namespace name (StreamLogs_options container since tail follow))
  = Ok stream ->
  Forall (fun chunk => chunk <> []) (chunks stream) ->
  end_error stream <> ErrBufferFull ->
  List.length (List.concat (chunks stream)) < fuel ->
  writes_left conn = Some k ->
  let messages := emitted (end_with_last stream) (List.concat (chunks stream)) in
  fst (StreamLogs fuel c conn namespace name container since tail follow w)
  = Some (if k <? List.length messages then write_error else end_error stream,
          mkConn (written conn ++ firstn k messages)
                 (Some (k - List.length messages))).
Proof.
  intros Hreply Hne Hend Hfuel Hk. cbv zeta.
  rewrite (StreamLogs_deliver c w conn namespace name container since tail follow
             Hreply Hne Hend Hfuel).
  unfold deliver. rewrite (write_all_limited _ conn Hk).
  destruct (k <? List.length _) eqn:E.
  - apply Nat.ltb_lt in E. replace (k - _) with 0 by lia. reflexivity.
  - apply Nat.ltb_ge in E. rewrite firstn_all2 by exact E. reflexivity.
Qed.

Lemma Split_no_sep s sep : index_byte s sep = None -> Split s sep = [s].
Proof.
  induction s as [|c s IH]; intros H; [reflexivity|].
  apply index_byte_cons_None in H. destruct H as [Hc H].
  rewrite Split_cons_other by exact Hc. rewrite (IH H). reflexivity.
Qed.

Lemma index_byte_skipn_None s c n :
  index_byte s c = None -> index_byte (skipn n s) c = None.
Proof.
  intros H. rewrite <- (firstn_skipn n s) in H.
  destruct (index_byte (firstn n s) c) as [i|] eqn:E.
  - rewrite (index_byte_app_found _ _ _ E) in H. discriminate.
  - rewrite index_byte_app_missing in H by exact E.
    destruct (index_byte (skipn n s) c); [discriminate | reflexivity].
Qed.

Lemma index_byte_app_None s t c :
  index_byte (s ++ t) c = None <-> index_byte s c = None /\ index_byte t c = None.
Proof.
  split.
  - intros H. destruct (index_byte s c) as [i|] eqn:E.
    + rewrite (index_byte_app_found _ _ _ E) in H. discriminate.
    + rewrite index_byte_app_missing in H by exact E.
      destruct (index_byte t c); [discriminate | split; reflexivity].
  - intros [H1 H2]. rewrite index_byte_app_missing by exact H1. now rewrite H2.
Qed.

Lemma ends_with_missing c l : index_byte l c = None -> ends_with c l = false.
Proof.
  intros H. destruct (ends_with c l) eqn:E; [|reflexivity].
  apply ends_with_found in E. contradiction.
Qed.

Lemma found_line R i :
  index_byte R nl = Some i -> firstn (S i) R = firstn i R ++ [nl].
Proof.
  intros Hi. destruct (index_byte_split _ _ Hi) as [HR _].
  pose proof (index_byte_lt _ _ Hi) as Hlt.
  rewrite HR at 1. rewrite firstn_app, length_firstn, Nat.min_l by lia.
  rewrite firstn_firstn, Nat.min_r by lia.
  replace (S i - i) with 1 by lia. reflexivity.
Qed.

Lemma last_line_lost_step together n :
  buf_size <= n -> (together = true -> buf_size < n) ->
  last_line_lost together (n - buf_size) = last_line_lost together n.
Proof.
  intros Hn Ht. unfold last_line_lost. destruct together.
  - specialize (Ht eq_refl).
    transitivity false; [|symmetry]; apply Nat.eqb_neq; lia.
  - f_equal. unfold buf_size in *.
    rewrite <- (Nat.Div0.mod_add (n - 16) 1 16). f_equal. lia.
Qed.

Lemma last_line_lost_short together n :
  0 < n -> n <= buf_size -> (together = false -> n < buf_size) ->
  last_line_lost together n = false.
Proof.
  intros Hpos Hn Ht. unfold last_line_lost. destruct together.
  - apply Nat.eqb_neq. lia.
  - specialize (Ht eq_refl). rewrite Nat.mod_small by exact Ht.
    apply Nat.eqb_neq. lia.
Qed.

(** The last line of a log, when no line end follows it and it holds no
    carriage return: the loop hands it out in pieces of 16 bytes that it
    keeps, and writes the line with the piece that is left at the end of the
    stream, if one is left. *)
Lemma whole_loop_last_line together fuel : forall L lastLine,
  index_byte L nl = None -> index_byte L cr = None ->
  List.length L < fuel ->
  whole_loop together fuel L lastLine
  = if last_line_lost together (List.length L) then [] else [lastLine ++ L].
Proof.
  induction fuel as [|fuel IH]; intros L lastLine Hnl Hcr Hfuel; [lia|].
  cbn [whole_loop]. unfold read_line_whole.
  destruct (read_slice_whole_cases together L)
    as [(i & Hi & ->) | [(Hi & Hlen & Ht & ->) | (Hi & Hlen & Ht & ->)]].
  - apply index_byte_firstn in Hi. congruence.
  - rewrite (ends_with_missing _ _ (index_byte_firstn_None _ _ buf_size Hcr)).
    rewrite reassemble_prefix_first. cbv zeta.
    rewrite (Split_no_sep _ _ (index_byte_firstn_None _ _ buf_size Hcr)).
    unfold prefix_first. cbn [hd tl removelast last fst snd app].
    rewrite IH.
    + rewrite length_skipn, (last_line_lost_step Hlen Ht).
      rewrite <- app_assoc, firstn_skipn. reflexivity.
    + apply index_byte_skipn_None, Hnl.
    + apply index_byte_skipn_None, Hcr.
    + rewrite length_skipn. unfold buf_size in *. lia.
  - destruct L as [|x L].
    + destruct together; reflexivity.
    + unfold drop_eol. rewrite (ends_with_missing _ _ Hnl).
      rewrite reassemble_prefix_first. cbv zeta.
      rewrite (Split_no_sep _ _ Hcr).
      unfold prefix_first. cbn [hd tl fst snd app].
      rewrite (@last_line_lost_short together (List.length (x :: L)))
        by (try assumption; cbn [List.length]; lia).
      f_equal. destruct fuel, together; reflexivity.
Qed.

(** A log of lines that end in a newline, followed by a last line as
    above. *)
Lemma whole_loop_lines_then_last together fuel : forall T lastLine L,
  index_byte L nl = None -> index_byte L cr = None ->
  List.length (T ++ L) < fuel ->
  newline_terminated T ->
  (T = [] -> lastLine = []) ->
  whole_loop together fuel (T ++ L) lastLine
  = split_terminated lastLine T
    ++ (if last_line_lost together (List.length L) then [] else [L]).
Proof.
  induction fuel as [|fuel IH]; intros T lastLine L Hnl Hcr Hfuel Hterm Hlast; [lia|].
  destruct Hterm as [->|Hterm].
  { rewrite (Hlast eq_refl). cbn [app split_terminated].
    now rewrite whole_loop_last_line. }
  assert (exists j, index_byte T nl = Some j) as [j Hj].
  { pose proof (ends_with_found _ _ Hterm).
    destruct (index_byte T nl) as [j|]; [now exists j | congruence]. }
  pose proof (index_byte_app_found _ L _ Hj) as HjR.
  pose proof (index_byte_lt _ _ Hj) as Hjlt.
  cbn [whole_loop]. unfold read_line_whole.
  destruct (read_slice_whole_cases together (T ++ L))
    as [(i & Hi & ->) | [(Hi & Hlen & _ & ->) | (Hi & Hlen & _ & ->)]].
  - (* a line end within the buffer *)
    apply index_byte_firstn in Hi. assert (i = j) as -> by congruence.
    destruct (index_byte_split _ _ Hj) as [HT Hnone].
    rewrite (found_line _ HjR).
    assert (firstn j (T ++ L) = firstn j T) as ->
        by (rewrite firstn_app; replace (j - List.length T) with 0 by lia;
            cbn; apply app_nil_r).
    assert (skipn (S j) (T ++ L) = skipn (S j) T ++ L) as ->
        by (rewrite skipn_app; replace (S j - List.length T) with 0 by lia;
            reflexivity).
    destruct (firstn j T ++ [nl]) as [|x l] eqn:E;
      [destruct (firstn j T); discriminate E|].
    rewrite <- E, drop_eol_line, reassemble_prefix_first. cbv zeta. cbn [fst snd].
    pose proof Hterm as Hterm'. 
    assert (newline_terminated (skipn (S j) T)) as Htail.
    { apply (newline_terminated_tail (firstn j T)). rewrite <- HT. now right. }
    rewrite IH; try assumption; try reflexivity.
    + rewrite app_assoc. f_equal.
      rewrite HT at 3. symmetry. apply split_terminated_line. exact Hnone.
    + rewrite length_app in *. rewrite length_skipn. lia.
  - (* a line longer than the buffer *)
    assert (buf_size <= j) as Hj16.
    { destruct (Nat.lt_ge_cases j buf_size) as [Hlt|Hge]; [|exact Hge].
      rewrite <- (firstn_skipn buf_size (T ++ L)) in HjR.
      rewrite index_byte_app_missing in HjR by exact Hi.
      destruct (index_byte (skipn buf_size (T ++ L)) nl) as [m|]; [|discriminate].
      assert (m + List.length (firstn buf_size (T ++ L)) = j) as Hm by congruence.
      rewrite length_firstn in Hm. lia. }
    assert (firstn buf_size (T ++ L) = firstn buf_size T) as HP
        by (rewrite firstn_app; replace (buf_size - List.length T) with 0 by lia;
            cbn; apply app_nil_r).
    assert (skipn buf_size (T ++ L) = skipn buf_size T ++ L) as HS
        by (rewrite skipn_app; replace (buf_size - List.length T) with 0 by lia;
            reflexivity).
    rewrite HP, HS in *.
    assert (T <> []) as HTne by (destruct T; [cbn in Hjlt; lia | discriminate]).
    destruct (ends_with cr (firstn buf_size T)) eqn:Hcrp.
    + pose proof (ends_with_removelast _ _ Hcrp) as Hsplit.
      assert (T = removelast (firstn buf_size T) ++ cr :: skipn buf_size T) as HT.
      { rewrite <- (firstn_skipn buf_size T) at 1. rewrite Hsplit at 1.
        rewrite <- app_assoc. reflexivity. }
      assert (index_byte (removelast (firstn buf_size T)) nl = None) as Hnone.
      { destruct (index_byte (removelast (firstn buf_size T)) nl) eqn:E; [|reflexivity].
        rewrite Hsplit, (index_byte_app_found _ _ _ E) in Hi. discriminate. }
      rewrite reassemble_prefix_first. cbv zeta. cbn [fst snd].
      assert (newline_terminated T) as HtermT by now right.
      rewrite HT in HtermT, HTne.
      destruct (newline_terminated_rest _ _ HTne Hnone HtermT) as [Hne' Hterm'].
      change (cr :: skipn buf_size T ++ L) with ((cr :: skipn buf_size T) ++ L).
      rewrite IH; try assumption; try congruence.
      * rewrite app_assoc. f_equal.
        rewrite HT at 4. symmetry. apply split_terminated_prefix; [exact Hnone|].
        intros _. cbn. intros H. injection H as H. discriminate H.
      * rewrite length_app in *. cbn [List.length]. rewrite length_skipn.
        unfold buf_size in *. lia.
    + rewrite reassemble_prefix_first. cbv zeta. cbn [fst snd].
      pose proof (firstn_skipn buf_size T) as HT.
      assert (newline_terminated T) as HtermT by now right.
      rewrite <- HT in HtermT, HTne.
      destruct (newline_terminated_rest _ _ HTne Hi HtermT) as [Hne' Hterm'].
      rewrite IH; try assumption; try congruence.
      * rewrite app_assoc. f_equal.
        rewrite <- HT at 4. symmetry. apply split_terminated_prefix; [exact Hi|].
        rewrite Hcrp. discriminate.
      * rewrite length_app in *. rewrite length_skipn. unfold buf_size in *. lia.
  - congruence.
Qed.

(** A log of lines that end in a newline, followed by a last line with no
    line end after it and no carriage return in it, in whatever non-empty
    chunks it comes: the lines that end in a newline are written, in order.
    What becomes of the last line depends on how the stream ends.  When the
    end comes by a read of its own, the last line is written unless its
    length is a multiple of 16 (the size of the buffer), in which case it is
    dropped; when the end comes together with the last bytes, the last line
    is always written. *)
Theorem StreamLogs_last_line (c : Cluster) (w : World) (conn : Conn)
    (namespace name container : bytes) (since tail : Z) (follow : bool)
    (stream : Stream) (T L : bytes) (fuel : nat) :
  answer w (List.length (calls w))
         (PodLogsStream namespace name (StreamLogs_options container since tail follow))
  = Ok stream ->
  Forall (fun chunk => chunk <> []) (chunks stream) ->
  end_error stream <> ErrBufferFull ->
  List.concat (chunks stream) = T ++ L ->
  newline_terminated T ->
  index_byte L nl = None -> index_byte L cr = None ->
  writes_left conn = None ->
  List.length (T ++ L) < fuel ->
  let lost :=
    if end_with_last stream then List.length L =? 0
    else List.length L mod 16 =? 0 in
  fst (StreamLogs fuel c conn namespace name container since tail follow w)
  = Some (end_error stream,
          mkConn (written conn ++ split_lines T ++ (if lost then [] else [L])) None).
Proof.
  intros Hreply Hne Hend Hlog Hterm Hnl Hcr Hconn Hfuel. cbv zeta.
  rewrite (StreamLogs_deliver c w conn namespace name container since tail follow
             Hreply Hne Hend) by (rewrite Hlog; exact Hfuel).
  unfold deliver. rewrite write_all_unlimited by exact Hconn.
  rewrite Hlog. unfold emitted.
  rewrite whole_loop_lines_then_last; try assumption; try lia; reflexivity.
Qed.

Lemma StreamLogs_last_line_witness :
  let log := str "first" ++ [cr; nl] ++ str "a second line of many bytes" ++ [nl] in
  fst (StreamLogs 100 (demo_cluster [] 0%Z) open_conn (str "ns") (str "pod") (str "app")
                  0 0 false
                  (stream_world (Ok (eof_after [log; str "no"; str " end"]))))
  = Some (EOF, mkConn [str "first"; str "a second line of many bytes"; str "no end"]
                      None) /\
  fst (StreamLogs 100 (demo_cluster [] 0%Z) open_conn (str "ns") (str "pod") (str "app")
                  0 0 false
                  (stream_world
                     (Ok (eof_after [log; str "thirty-two bytes and "; str "no line end"]))))
  = Some (EOF, mkConn [str "first"; str "a second line of many bytes"] None) /\
  fst (StreamLogs 100 (demo_cluster [] 0%Z) open_conn (str "ns") (str "pod") (str "app")
                  0 0 false
                  (stream_world
                     (Ok (eof_with [log; str "thirty-two bytes and "; str "no line end"]))))
  = Some (EOF, mkConn [str "first"; str "a second line of many bytes";
                       str "thirty-two bytes and no line end"] None).
Proof.
  cbv zeta. split; [|split].
  - apply (@StreamLogs_last_line (demo_cluster [] 0%Z)
             (stream_world (Ok (eof_after
                                  [str "first" ++ [cr; nl]
                                   ++ str "a second line of many bytes" ++ [nl];
                                   str "no"; str " end"])))
             open_conn (str "ns") (str "pod") (str "app") 0%Z 0%Z false
             (eof_after
                [str "first" ++ [cr; nl] ++ str "a second line of many bytes" ++ [nl];
                 str "no"; str " end"])
             (str "first" ++ [cr; nl] ++ str "a second line of many bytes" ++ [nl])
             (str "no end") 100);
      try reflexivity.
    + repeat constructor; discriminate.
    + discriminate.
    + right. reflexivity.
    + cbn. lia.
  - apply (@StreamLogs_last_line (demo_cluster [] 0%Z)
             (stream_world (Ok (eof_after
                                  [str "first" ++ [cr; nl]
                                   ++ str "a second line of many bytes" ++ [nl];
                                   str "thirty-two bytes and "; str "no line end"])))
             open_conn (str "ns") (str "pod") (str "app") 0%Z 0%Z false
             (eof_after
                [str "first" ++ [cr; nl] ++ str "a second line of many bytes" ++ [nl];
                 str "thirty-two bytes and "; str "no line end"])
             (str "first" ++ [cr; nl] ++ str "a second line of many bytes" ++ [nl])
             (str "thirty-two bytes and no line end") 100);
      try reflexivity.
    + repeat constructor; discriminate.
    + discriminate.
    + right. reflexivity.
    + cbn. lia.
  - apply (@StreamLogs_last_line (demo_cluster [] 0%Z)
             (stream_world (Ok (eof_with
                                  [str "first" ++ [cr; nl]
                                   ++ str "a second line of many bytes" ++ [nl];
                                   str "thirty-two bytes and "; str "no line end"])))
             open_conn (str "ns") (str "pod") (str "app") 0%Z 0%Z false
             (eof_with
                [str "first" ++ [cr; nl] ++ str "a second line of many bytes" ++ [nl];
                 str "thirty-two bytes and "; str "no line end"])
             (str "first" ++ [cr; nl] ++ str "a second line of many bytes" ++ [nl])
             (str "thirty-two bytes and no line end") 100);
      try reflexivity.
    + repeat constructor; discriminate.
    + discriminate.
    + right. reflexivity.
    + cbn. lia.
Defined.

Lemma StreamLogs_chunking_irrelevant_witness :
  let log := str "one" ++ [nl] ++ str "two, a line of more than 16 bytes" ++ [cr; nl]
             ++ str "three" in
  fst (StreamLogs 100 (demo_cluster [] 0%Z) open_conn (str "ns") (str "pod") (str "app")
                  0 0 true (stream_world (Ok (eof_with (map (fun x => [x]) log)))))
  = fst (StreamLogs 100 (demo_cluster [] 0%Z) open_conn (str "ns") (str "pod") (str "app")
                    0 0 true (stream_world (Ok (eof_with [log])))).
Proof.
  cbv zeta.
  apply (@StreamLogs_chunking_irrelevant (demo_cluster [] 0%Z)
           (stream_world (Ok (eof_with
                                (map (fun x => [x])
                                     (str "one" ++ [nl]
                                      ++ str "two, a line of more than 16 bytes"
                                      ++ [cr; nl] ++ str "three")))))
           (stream_world (Ok (eof_with
                                [str "one" ++ [nl]
                                 ++ str "two, a line of more than 16 bytes" ++ [cr; nl]
                                 ++ str "three"])))
           open_conn (str "ns") (str "pod") (str "app") 0%Z 0%Z true
           (eof_with
              (map (fun x => [x])
                   (str "one" ++ [nl] ++ str "two, a line of more than 16 bytes"
                    ++ [cr; nl] ++ str "three")))
           (eof_with
              [str "one" ++ [nl] ++ str "two, a line of more than 16 bytes" ++ [cr; nl]
               ++ str "three"])
           100); try reflexivity.
  - repeat constructor; discriminate.
  - repeat constructor; discriminate.
  - discriminate.
  - cbn. lia.
Defined.

Lemma StreamLogs_stops_at_failed_write_witness :
  let log := str "one" ++ [nl] ++ str "two" ++ [nl] ++ str "three" ++ [nl] in
  fst (StreamLogs 100 (demo_cluster [] 0%Z) (mkConn [] (Some 2)) (str "ns") (str "pod")
                  (str "app") 0 0 true (stream_world (Ok (eof_after [log]))))
  = Some (write_error, mkConn [str "one"; str "two"] (Some 0)).
Proof.
  cbv zeta.
  apply (@StreamLogs_stops_at_failed_write (demo_cluster [] 0%Z)
           (stream_world (Ok (eof_after [str "one" ++ [nl] ++ str "two" ++ [nl]
                                         ++ str "three" ++ [nl]])))
           (mkConn [] (Some 2)) (str "ns") (str "pod") (str "app") 0%Z 0%Z true
           (eof_after [str "one" ++ [nl] ++ str "two" ++ [nl] ++ str "three" ++ [nl]])
           100 2);
    try reflexivity.
  - repeat constructor; discriminate.
  - discriminate.
  - cbn. lia.
Defined.

(** *** No message holds a line end *)

Lemma no_line_end_app a b : no_line_end a -> no_line_end b -> no_line_end (a ++ b).
Proof.
  intros [H1 H2] [H3 H4]. split; apply index_byte_app_None; split; assumption.
Qed.

Lemma index_byte_removelast l c :
  index_byte l c = None -> index_byte (removelast l) c = None.
Proof.
  intros H. destruct l as [|x l]; [reflexivity|].
  rewrite (app_removelast_last x (l := x :: l)) in H by discriminate.
  apply index_byte_app_None in H. apply H.
Qed.

(** The pieces [strings.Split] cuts have no separator in them, and no byte
    the string did not have. *)
Lemma Split_pieces s sep c :
  (c = sep \/ index_byte s c = None) ->
  Forall (fun p => index_byte p c = None) (Split s sep).
Proof.
  induction s as [|x s IH]; intros H.
  - repeat constructor.
  - destruct (ascii_dec x sep) as [->|Hx].
    + rewrite Split_cons_sep. constructor; [reflexivity|].
      apply IH. destruct H as [H|H]; [now left|].
      right. apply index_byte_cons_None in H. apply H.
    + rewrite Split_cons_other by exact Hx.
      assert (x <> c /\ (c = sep \/ index_byte s c = None)) as [Hxc H'].
      { destruct H as [->|H]; [split; [exact Hx | now left]|].
        apply index_byte_cons_None in H. destruct H. split; [assumption | now right]. }
      specialize (IH H'). pose proof (Split_nonempty s sep) as Hne.
      destruct (Split s sep) as [|p ps]; [congruence|].
      cbn [hd tl]. apply Forall_cons_iff in IH. destruct IH as [Hp Hps].
      constructor; [|exact Hps].
      cbn. destruct (ascii_dec x c); [contradiction|]. now rewrite Hp.
Qed.

Lemma Split_no_line_end data :
  index_byte data nl = None -> Forall no_line_end (Split data cr).
Proof.
  intros H.
  pose proof (@Split_pieces data cr nl (or_intror H)) as H1.
  pose proof (@Split_pieces data cr cr (or_introl eq_refl)) as H2.
  revert H1 H2. generalize (Split data cr) as ps.
  induction ps as [|p ps IH]; intros H1 H2; constructor.
  - apply Forall_cons_iff in H1, H2. split; [apply H1 | apply H2].
  - apply Forall_cons_iff in H1, H2. apply IH; [apply H1 | apply H2].
Qed.

(** What [ReadLine] hands out has no newline in it. *)
Lemma read_line_whole_data together R :
  index_byte (fst (fst (fst (read_line_whole together R)))) nl = None.
Proof.
  unfold read_line_whole.
  destruct (read_slice_whole_cases together R)
    as [(i & Hi & ->) | [(Hi & Hlen & _ & ->) | (Hi & Hlen & _ & ->)]].
  - apply index_byte_firstn in Hi.
    destruct (index_byte_split _ _ Hi) as [_ Hnone].
    rewrite (found_line _ Hi).
    destruct (firstn i R ++ [nl]) as [|x l] eqn:E;
      [destruct (firstn i R); discriminate E|].
    rewrite <- E, drop_eol_line. cbn [fst]. unfold strip_cr.
    destruct (ends_with cr (firstn i R)); [apply index_byte_removelast|]; exact Hnone.
  - destruct (ends_with cr (firstn buf_size R)); cbn [fst];
      [apply index_byte_removelast|]; exact Hi.
  - destruct R as [|x R]; cbn [fst]; [reflexivity|].
    unfold drop_eol. now rewrite (ends_with_missing _ _ Hi).
Qed.

Lemma reassemble_no_line_end data isPrefix lastLine :
  index_byte data nl = None -> no_line_end lastLine ->
  Forall no_line_end (fst (reassemble data isPrefix lastLine)) /\
  no_line_end (snd (reassemble data isPrefix lastLine)).
Proof.
  intros Hd Hl. rewrite reassemble_prefix_first. cbv zeta.
  pose proof (Split_no_line_end data Hd) as Hs.
  pose proof (Split_nonempty data cr) as Hne.
  assert (Forall no_line_end (prefix_first lastLine (Split data cr))) as Hp.
  { unfold prefix_first. destruct (Split data cr) as [|p ps]; [congruence|].
    cbn [hd tl]. apply Forall_cons_iff in Hs. destruct Hs as [Hp Hps].
    constructor; [apply no_line_end_app; assumption | exact Hps]. }
  destruct isPrefix; cbn [fst snd].
  - split.
    + revert Hp. generalize (prefix_first lastLine (Split data cr)) as ls.
      induction ls as [|a ls IH]; intros Hp; [constructor|].
      destruct ls as [|b ls]; [constructor|].
      apply Forall_cons_iff in Hp. destruct Hp as [Ha Hp].
      change (removelast (a :: b :: ls)) with (a :: removelast (b :: ls)).
      constructor; [exact Ha | apply IH, Hp].
    + revert Hp. generalize (prefix_first lastLine (Split data cr)) as ls.
      induction ls as [|a ls IH]; intros Hp; [split; reflexivity|].
      destruct ls as [|b ls].
      * apply Forall_cons_iff in Hp. apply Hp.
      * apply Forall_cons_iff in Hp. apply (IH (proj2 Hp)).
  - split; [exact Hp | split; reflexivity].
Qed.

Lemma whole_loop_no_line_end together fuel : forall R lastLine,
  no_line_end lastLine -> Forall no_line_end (whole_loop together fuel R lastLine).
Proof.
  induction fuel as [|fuel IH]; intros R lastLine Hl; [constructor|].
  cbn [whole_loop]. pose proof (read_line_whole_data together R) as Hd.
  destruct (read_line_whole together R) as [[[data isPrefix] err] R'].
  cbn [fst] in Hd. destruct err; [constructor|].
  destruct (reassemble_no_line_end data isPrefix Hd Hl) as [H1 H2].
  apply Forall_app. split; [exact H1 | apply IH, H2].
Qed.

Lemma Forall_take (A : Type) (P : A -> Prop) n : forall l,
  Forall P l -> Forall P (firstn n l).
Proof.
  induction n as [|n IH]; intros l H; [constructor|].
  destruct H as [|x l Hx Hl]; [constructor|].
  cbn. constructor; [exact Hx | apply IH, Hl].
Qed.

Lemma write_all_written lines : forall conn,
  exists n, written (snd (write_all lines conn)) = written conn ++ firstn n lines.
Proof.
  induction lines as [|x lines IH]; intros conn.
  - exists 0. cbn. now rewrite app_nil_r.
  - cbn [write_all]. unfold WriteMessage.
    destruct (writes_left conn) as [[|k]|].
    + exists 0. cbn. now rewrite app_nil_r.
    + destruct (IH (mkConn (written conn ++ [x]) (Some k))) as [n Hn].
      exists (S n). rewrite Hn. cbn [written firstn]. now rewrite <- app_assoc.
    + destruct (IH (mkConn (written conn ++ [x]) None)) as [n Hn].
      exists (S n). rewrite Hn. cbn [written firstn]. now rewrite <- app_assoc.
Qed.

(** Whatever the log, the chunks and the connection: every message
    [StreamLogs] writes is free of newlines and carriage returns. *)
Theorem StreamLogs_messages_have_no_line_end (c : Cluster) (w : World) (conn : Conn)
    (namespace name container : bytes) (since tail : Z) (follow : bool)
    (stream : Stream) (fuel : nat) (e : error) (conn' : Conn) :
  answer w (List.length (calls w))
         (PodLogsStream namespace name (StreamLogs_options container since tail follow))
  = Ok stream ->
  Forall (fun chunk => chunk <> []) (chunks stream) ->
  end_error stream <> ErrBufferFull ->
  List.length (List.concat (chunks stream)) < fuel ->
  fst (StreamLogs fuel c conn namespace name container since tail follow w)
  = Some (e, conn') ->
  exists messages,
    written conn' = written conn ++ messages /\
    Forall (fun m => index_byte m nl = None /\ index_byte m cr = None) messages.
Proof.
  intros Hreply Hne Hend Hfuel Hrun.
  rewrite (StreamLogs_deliver c w conn namespace name container since tail follow
             Hreply Hne Hend Hfuel) in Hrun.
  unfold deliver in Hrun.
  set (messages := emitted (end_with_last stream) (List.concat (chunks stream))) in *.
  destruct (write_all_written messages conn) as [n Hn].
  assert (written conn' = written conn ++ firstn n messages) as Hw.
  { destruct (write_all messages conn) as [[e'|] conn''];
      cbn [snd] in Hn; injection Hrun as _ <-; exact Hn. }
  exists (firstn n messages). split; [exact Hw|].
  apply Forall_take. unfold messages, emitted.
  apply (whole_loop_no_line_end _ _ _ (lastLine := [])). split; reflexivity.
Qed.

Lemma StreamLogs_messages_have_no_line_end_witness :
  exists messages,
    written (mkConn [str "ready"; str "a line of more than sixteen bytes"] (Some 0))
    = [] ++ messages /\
    Forall (fun m => index_byte m nl = None /\ index_byte m cr = None) messages.
Proof.
  apply (@StreamLogs_messages_have_no_line_end (demo_cluster [] 0%Z)
           (stream_world
              (Ok (eof_with [str "ready" ++ [cr]; str "a line of more than sixteen ";
                             str "bytes" ++ [cr; nl] ++ str "done" ++ [nl]])))
           (mkConn [] (Some 2)) (str "ns") (str "pod") (str "app") 0%Z 0%Z true
           (eof_with [str "ready" ++ [cr]; str "a line of more than sixteen ";
                      str "bytes" ++ [cr; nl] ++ str "done" ++ [nl]])
           100 write_error
           (mkConn [str "ready"; str "a line of more than sixteen bytes"] (Some 0)));
    try reflexivity.
  - repeat constructor; discriminate.
  - discriminate.
  - cbn. lia.
Defined.

(** *** No byte is lost or added *)

Lemma split_terminated_bytes s : forall cur,
  List.concat (split_terminated cur s) = cur ++ filter not_line_end s.
Proof.
  induction s as [|c s IH]; intros cur.
  - destruct cur; cbn; [reflexivity | now rewrite !app_nil_r].
  - cbn [split_terminated filter]. unfold not_line_end at 1.
    destruct (ascii_dec c nl).
    + cbn [List.concat]. now rewrite IH.
    + destruct (ascii_dec c cr).
      * destruct s as [|c' s'].
        -- cbn. now rewrite app_nil_r.
        -- destruct (ascii_dec c' nl) as [->|Hc'].
           ++ cbn [List.concat]. specialize (IH []).
              cbn [split_terminated filter] in IH. unfold not_line_end at 1 in IH.
              destruct (ascii_dec nl nl); [|congruence].
              cbn [List.concat app] in IH. cbn [filter].
              unfold not_line_end at 1. destruct (ascii_dec nl nl); [|congruence].
              now rewrite <- IH.
           ++ cbn [List.concat]. now rewrite IH.
      * rewrite IH, <- app_assoc. reflexivity.
Qed.

(** On a log whose lines all end in a newline, the messages written, put
    end to end, are the log without its newlines and carriage returns: no
    other byte is lost, added or moved. *)
Theorem StreamLogs_keeps_every_byte (c : Cluster) (w : World) (conn : Conn)
    (namespace name container : bytes) (since tail : Z) (follow : bool)
    (stream : Stream) (fuel : nat) :
  answer w (List.length (calls w))
         (PodLogsStream namespace name (StreamLogs_options container since tail follow))
  = Ok stream ->
  Forall (fun chunk => chunk <> []) (chunks stream) ->
  end_error stream <> ErrBufferFull ->
  newline_terminated (List.concat (chunks stream)) ->
  writes_left conn = None ->
  List.length (List.concat (chunks stream)) < fuel ->
  exists messages,
    fst (StreamLogs fuel c conn namespace name container since tail follow w)
    = Some (end_error stream, mkConn (written conn ++ messages) None) /\
    List.concat messages = filter not_line_end (List.concat (chunks stream)).
Proof.
  intros Hreply Hne Hend Hterm Hconn Hfuel.
  exists (split_lines (List.concat (chunks stream))). split.
  - apply StreamLogs_writes_lines; assumption.
  - unfold split_lines. now rewrite split_terminated_bytes.
Qed.

Lemma StreamLogs_keeps_every_byte_witness :
  exists messages,
    fst (StreamLogs 100 (demo_cluster [] 0%Z) open_conn (str "ns") (str "pod") (str "app")
                    0 0 true
                    (stream_world
                       (Ok (eof_with [str "10%" ++ [cr] ++ str "50"; str "%" ++ [cr];
                                      str "done" ++ [cr; nl]]))))
    = Some (EOF, mkConn ([] ++ messages) None) /\
    List.concat messages = str "10%50%done".
Proof.
  apply (@StreamLogs_keeps_every_byte (demo_cluster [] 0%Z)
           (stream_world (Ok (eof_with [str "10%" ++ [cr] ++ str "50"; str "%" ++ [cr];
                                        str "done" ++ [cr; nl]])))
           open_conn (str "ns") (str "pod") (str "app") 0%Z 0%Z true
           (eof_with [str "10%" ++ [cr] ++ str "50"; str "%" ++ [cr];
                      str "done" ++ [cr; nl]]) 100);
    try reflexivity.
  - repeat constructor; discriminate.
  - discriminate.
  - right. reflexivity.
  - cbn. lia.
Defined.

(** ** One-shot logs: the text returned *)

Lemma Join_cons e rest sep :
  rest <> [] -> Join (e :: rest) sep = e ++ sep ++ Join rest sep.
Proof. destruct rest; [congruence | reflexivity]. Qed.

Lemma Join_Split_newlines s :
  Join (Split s nl) line_end = flat_map after_newline s.
Proof.
  induction s as [|c s IH]; [reflexivity|].
  cbn [flat_map]. unfold after_newline at 1.
  destruct (ascii_dec c nl) as [->|Hc].
  - rewrite Split_cons_sep, Join_cons by apply Split_nonempty.
    rewrite IH. reflexivity.
  - rewrite Split_cons_other by exact Hc.
    pose proof (Split_nonempty s nl) as Hne.
    destruct (Split s nl) as [|h t] eqn:E; [congruence|].
    cbn [hd tl]. rewrite <- IH.
    destruct t as [|h' t]; [reflexivity|].
    rewrite !Join_cons by discriminate. reflexivity.
Qed.

(** Without an expression, the text [GetLogs] returns is the payload with a
    carriage return put after every newline, followed by a newline and a
    carriage return: every byte of the payload is kept, in order. *)
Theorem GetLogs_unfiltered_text (Regexp : Type)
    (regexp_Compile : bytes -> result Regexp) (MatchString : Regexp -> bytes -> bool)
    (c : Cluster) (w : World) (namespace name container : bytes) (since tail : Z)
    (previous : bool) (payload : bytes) :
  answer w (List.length (calls w))
         (PodLogsDoRaw namespace name (GetLogs_options container since tail previous))
  = (payload, None) ->
  fst (GetLogs regexp_Compile MatchString c namespace name container [] since tail
               previous w)
  = Ok (flat_map after_newline payload ++ [nl; cr]).
Proof.
  intros Hreply. unfold GetLogs, bind, call, ret. cbn [fst snd answer calls].
  rewrite Hreply. cbn [fst snd is_empty].
  now rewrite all_lines_Split, Join_Split_newlines.
Qed.

Lemma GetLogs_unfiltered_text_witness :
  fst (GetLogs demo_Compile has_prefix (demo_cluster [] 0%Z) (str "ns") (str "pod")
               (str "app") [] 60 0 false
               (logs_world (str "a" ++ [nl] ++ str "b" ++ [nl], None)))
  = Ok (str "a" ++ [nl; cr] ++ str "b" ++ [nl; cr] ++ [nl; cr]).
Proof.
  apply (@GetLogs_unfiltered_text bytes demo_Compile has_prefix (demo_cluster [] 0%Z)
           (logs_world (str "a" ++ [nl] ++ str "b" ++ [nl], None))
           (str "ns") (str "pod") (str "app") 60%Z 0%Z false
           (str "a" ++ [nl] ++ str "b" ++ [nl])).
  reflexivity.
Defined.

Lemma filter_all (A : Type) (p : A -> bool) l :
  (forall x, In x l -> p x = true) -> filter p l = l.
Proof.
  induction l as [|x l IH]; intros H; [reflexivity|].
  cbn. rewrite (H x) by now left. f_equal. apply IH. intros y Hy. apply H. now right.
Qed.

Lemma filter_none (A : Type) (p : A -> bool) l :
  (forall x, In x l -> p x = false) -> filter p l = [].
Proof.
  induction l as [|x l IH]; intros H; [reflexivity|].
  cbn. rewrite (H x) by now left. apply IH. intros y Hy. apply H. now right.
Qed.

(** An expression that matches every line of the payload changes nothing:
    the text is the one returned without an expression.  An expression that
    matches no line leaves the line terminator alone, which is also the text
    returned for an empty payload. *)
Theorem GetLogs_filter_extremes (Regexp : Type)
    (regexp_Compile : bytes -> result Regexp) (MatchString : Regexp -> bytes -> bool)
    (c : Cluster) (w : World) (namespace name container regex : bytes)
    (since tail : Z) (previous : bool) (payload : bytes) (reg : Regexp) :
  answer w (List.length (calls w))
         (PodLogsDoRaw namespace name (GetLogs_options container since tail previous))
  = (payload, None) ->
  regex <> [] ->
  regexp_Compile regex = Ok reg ->
  let filtered := fst (GetLogs regexp_Compile MatchString c namespace name container
                               regex since tail previous w) in
  let unfiltered := fst (GetLogs regexp_Compile MatchString c namespace name container
                                 [] since tail previous w) in
  ((forall line, In line (Split payload nl) -> MatchString reg line = true) ->
   filtered = unfiltered) /\
  ((forall line, In line (Split payload nl) -> MatchString reg line = false) ->
   filtered = Ok [nl; cr]) /\
  (payload = [] -> unfiltered = Ok [nl; cr]).
Proof.
  intros Hreply Hne Hcomp. cbv zeta.
  unfold GetLogs, bind, call, ret. cbn [fst snd answer calls].
  rewrite Hreply. cbn [fst snd].
  destruct regex as [|x regex]; [congruence|]. cbn [is_empty]. rewrite Hcomp.
  cbn [fst]. rewrite matching_lines_filter, all_lines_Split.
  split; [|split].
  - intros Hall. now rewrite filter_all.
  - intros Hnone. now rewrite filter_none.
  - intros ->. reflexivity.
Qed.

Lemma GetLogs_filter_extremes_witness :
  let w := logs_world (str "info a" ++ [nl] ++ str "info b", None) in
  fst (GetLogs demo_Compile has_prefix (demo_cluster [] 0%Z) (str "ns") (str "pod")
               (str "app") (str "info") 60 0 false w)
  = fst (GetLogs demo_Compile has_prefix (demo_cluster [] 0%Z) (str "ns") (str "pod")
                 (str "app") [] 60 0 false w) /\
  fst (GetLogs demo_Compile has_prefix (demo_cluster [] 0%Z) (str "ns") (str "pod")
               (str "app") (str "warn") 60 0 false w)
  = Ok [nl; cr].
Proof.
  cbv zeta.
  destruct (@GetLogs_filter_extremes bytes demo_Compile has_prefix (demo_cluster [] 0%Z)
              (logs_world (str "info a" ++ [nl] ++ str "info b", None))
              (str "ns") (str "pod") (str "app") (str "info") 60%Z 0%Z false
              (str "info a" ++ [nl] ++ str "info b") (str "info")
              eq_refl ltac:(discriminate) eq_refl) as [Hall _].
  destruct (@GetLogs_filter_extremes bytes demo_Compile has_prefix (demo_cluster [] 0%Z)
              (logs_world (str "info a" ++ [nl] ++ str "info b", None))
              (str "ns") (str "pod") (str "app") (str "warn") 60%Z 0%Z false
              (str "info a" ++ [nl] ++ str "info b") (str "warn")
              eq_refl ltac:(discriminate) eq_refl) as (_ & Hnone & _).
  split.
  - apply Hall. intros line [<-|[<-|[]]]; reflexivity.
  - apply Hnone. intros line [<-|[<-|[]]]; reflexivity.
Defined.

(** ** The namespace cache over several calls *)

(** The cache of a new cluster has never been filled: its first
    [GetNamespaces], whatever the duration passed (the least one included),
    asks the cluster, as long as the clock does not stand before 1970. *)
Theorem GetNamespaces_first_call_fetches
    (unicode_lower : bytes -> bytes) (NewForConfig : Clientset -> Config -> option error)
    (name : bytes) (restConfig : Config) (c : Cluster) (w : World) (ttl : Duration) :
  NewCluster unicode_lower NewForConfig name restConfig = Ok c ->
  (0 <= now w (clock_reads w))%Z ->
  calls (snd (GetNamespaces c ttl w)) = calls w ++ [event NamespacesList] /\
  fst (fst (GetNamespaces c ttl w))
  = reply_result (answer w (List.length (calls w)) NamespacesList).
Proof.
  intros Hnew Hnow.
  assert (cache c = mkCache [] zero_Time) as Hcache.
  { unfold NewCluster in Hnew. destruct (first_error _ _ _); [discriminate|].
    injection Hnew as <-. reflexivity. }
  assert (cache_is_fresh c (now w (clock_reads w)) ttl = false) as Hstale.
  { unfold cache_is_fresh, After, Add. rewrite Hcache. cbn [namespacesLastFetch].
    apply Z.ltb_ge. pose proof (wrap64_range (-1 * ttl)) as Hr.
    unfold in_int64, min_int64, max_int64, zero_Time in *. lia. }
  unfold GetNamespaces, bind, time_Now, call, ret. rewrite Hstale.
  cbn [calls answer clock_reads now].
  destruct (answer w (List.length (calls w)) NamespacesList); split; reflexivity.
Qed.

Lemma GetNamespaces_first_call_fetches_witness :
  let c := mkCluster (mkCache [] zero_Time) (mkConfig (str "https://k8s.local"))
                     (str "my-cluster") [] in
  let w := demo_world (fun _ => Ok demo_namespaces) (fun _ => 1700000000000000000%Z) in
  calls (snd (GetNamespaces c max_int64 w)) = [event NamespacesList] /\
  fst (fst (GetNamespaces c max_int64 w)) = Ok [str "default"; str "kube-system"].
Proof.
  cbv zeta.
  apply (@GetNamespaces_first_call_fetches (fun s => s) no_error (str "My Cluster")
           (mkConfig (str "https://k8s.local"))
           (mkCluster (mkCache [] zero_Time) (mkConfig (str "https://k8s.local"))
                      (str "my-cluster") [])
           (demo_world (fun _ => Ok demo_namespaces) (fun _ => 1700000000000000000%Z))
           max_int64).
  - reflexivity.
  - cbn. lia.
Defined.

(** The list a call returns is the list the cache holds afterwards. *)
Lemma GetNamespaces_returns_cached c ttl w l :
  fst (fst (GetNamespaces c ttl w)) = Ok l ->
  namespaces (cache (snd (fst (GetNamespaces c ttl w)))) = l.
Proof.
  unfold GetNamespaces, bind, time_Now, call, ret.
  destruct (cache_is_fresh c _ ttl); cbn [fst snd].
  - intros H. injection H as <-. reflexivity.
  - cbn [calls answer clock_reads now].
    destruct (answer w (List.length (calls w)) NamespacesList); cbn [fst snd];
      [|discriminate].
    intros H. injection H as <-. reflexivity.
Qed.

(** Two calls in a row: when the first returns a list and the second comes
    less than its time to live after the fetch the cache records, the second
    returns the same list, asks the cluster nothing and leaves the cluster as
    the first left it. *)
Theorem GetNamespaces_repeats_within_ttl (c : Cluster) (w : World)
    (ttl ttl' : Duration) (l : list bytes) :
  let first := GetNamespaces c ttl w in
  let second := GetNamespaces (snd (fst first)) ttl' (snd first) in
  fst (fst first) = Ok l ->
  (min_int64 < ttl' <= max_int64)%Z ->
  (now (snd first) (clock_reads (snd first))
   - namespacesLastFetch (cache (snd (fst first))) < ttl')%Z ->
  fst (fst second) = Ok l /\
  snd (fst second) = snd (fst first) /\
  calls (snd second) = calls (snd first).
Proof.
  cbv zeta. intros Hfirst Hr Hfresh.
  pose proof (GetNamespaces_returns_cached c ttl w Hfirst) as Hcached.
  pose proof (@GetNamespaces_fresh (snd (fst (GetNamespaces c ttl w)))
                (snd (GetNamespaces c ttl w)) ttl' Hr Hfresh) as H.
  destruct (GetNamespaces (snd (fst (GetNamespaces c ttl w))) ttl'
                          (snd (GetNamespaces c ttl w))) as [[r c'] w'].
  cbn [fst snd]. destruct H as (-> & -> & ->). rewrite Hcached. repeat split.
Qed.

Lemma GetNamespaces_repeats_within_ttl_witness :
  let c := demo_cluster [str "old"] 0%Z in
  let w := demo_world growing_namespaces
                      (fun k : nat => match k with O => 100%Z | S O => 101%Z | _ => 130%Z end) in
  let first := GetNamespaces c 60%Z w in
  let second := GetNamespaces (snd (fst first)) 60%Z (snd first) in
  fst (fst second) = Ok [str "default"] /\
  snd (fst second) = snd (fst first) /\
  calls (snd second) = [event NamespacesList].
Proof.
  cbv zeta.
  apply (@GetNamespaces_repeats_within_ttl (demo_cluster [str "old"] 0%Z)
           (demo_world growing_namespaces
                       (fun k : nat => match k with O => 100%Z | S O => 101%Z | _ => 130%Z end))
           60%Z 60%Z [str "default"]).
  - reflexivity.
  - unfold min_int64, max_int64. lia.
  - cbn. lia.
Defined.

(** A time to live of zero or less turns the cache off: as long as the
    clock does not stand before the last fetch, every call asks the
    cluster. *)
Theorem GetNamespaces_zero_ttl_always_fetches (c : Cluster) (w : World)
    (ttl : Duration) :
  (min_int64 < ttl <= 0)%Z ->
  (namespacesLastFetch (cache c) <= now w (clock_reads w))%Z ->
  calls (snd (GetNamespaces c ttl w)) = calls w ++ [event NamespacesList] /\
  fst (fst (GetNamespaces c ttl w))
  = reply_result (answer w (List.length (calls w)) NamespacesList).
Proof.
  intros Hr Hclock.
  assert (cache_is_fresh c (now w (clock_reads w)) ttl = false) as Hstale.
  { destruct (cache_is_fresh c (now w (clock_reads w)) ttl) eqn:E; [|reflexivity].
    apply cache_is_fresh_iff in E; [lia|]. unfold max_int64. lia. }
  unfold GetNamespaces, bind, time_Now, call, ret. rewrite Hstale.
  cbn [calls answer clock_reads now].
  destruct (answer w (List.length (calls w)) NamespacesList); split; reflexivity.
Qed.

Lemma GetNamespaces_zero_ttl_always_fetches_witness :
  let c := demo_cluster [str "old"] 100%Z in
  let w := demo_world (fun _ => Ok demo_namespaces) (fun _ => 100%Z) in
  calls (snd (GetNamespaces c 0%Z w)) = [event NamespacesList] /\
  fst (fst (GetNamespaces c 0%Z w)) = Ok [str "default"; str "kube-system"].
Proof.
  cbv zeta.
  apply (@GetNamespaces_zero_ttl_always_fetches (demo_cluster [str "old"] 100%Z)
           (demo_world (fun _ => Ok demo_namespaces) (fun _ => 100%Z)) 0%Z).
  - unfold min_int64. lia.
  - cbn. lia.
Defined.

(** ** Cluster names *)

Lemma slug_shape_spelled d s :
  slug_shape d s
  = forallb (fun c => is_slug_char c || is_dash c) s
    && (d || negb (starts_with_dash s))
    && negb (double_dash s).
Proof.
  revert d. induction s as [|c s IH]; intros d.
  - destruct d; reflexivity.
  - cbn [slug_shape forallb starts_with_dash double_dash].
    destruct (is_slug_char c) eqn:Hc.
    + destruct (slug_char_facts c Hc) as (Hn & _ & _).
      assert (is_dash c = false) as Hd
        by (unfold is_dash; destruct (ascii_dec c dash); congruence).
      rewrite Hd, (IH true). cbn [orb andb negb].
      destruct d, (forallb _ s), (double_dash s); reflexivity.
    + destruct (ascii_dec c dash) as [->|Hn].
      * assert (is_dash dash = true) as Hd by reflexivity.
        rewrite Hd, (IH false). cbn [orb andb negb].
        destruct d, (forallb _ s), (starts_with_dash s), (double_dash s); reflexivity.
      * assert (is_dash c = false) as Hd
          by (unfold is_dash; destruct (ascii_dec c dash); congruence).
        rewrite Hd. reflexivity.
Qed.

Lemma TrimRight_no_trailing_dash s : ends_with dash (TrimRight s) = false.
Proof.
  induction s as [|c s IH]; [reflexivity|].
  cbn [TrimRight]. destruct (TrimRight s) as [|c' t].
  - destruct (ascii_dec c dash) as [|Hn]; [reflexivity|].
    cbn. destruct (ascii_dec c dash); [contradiction | reflexivity].
  - rewrite ends_with_cons. exact IH.
Qed.

Lemma TrimRight_fix s : ends_with dash s = false -> TrimRight s = s.
Proof.
  induction s as [|c s IH]; intros H; [reflexivity|].
  destruct s as [|c' t].
  - cbn in *. destruct (ascii_dec c dash); [discriminate | reflexivity].
  - rewrite ends_with_cons in H. specialize (IH H).
    change (TrimRight (c :: c' :: t))
      with (match TrimRight (c' :: t) with
            | [] => if ascii_dec c dash then [] else [c]
            | x => c :: x
            end).
    rewrite IH. reflexivity.
Qed.

Lemma canonical_shape s :
  canonical s = true <-> slug_shape false s = true /\ ends_with dash s = false.
Proof.
  unfold canonical. rewrite slug_shape_spelled. cbn [orb].
  destruct (forallb _ s), (starts_with_dash s), (ends_with dash s), (double_dash s);
    cbn; intuition congruence.
Qed.

Lemma normalize_canonical u s : canonical (normalize u s) = true.
Proof.
  apply canonical_shape. split; [apply normalize_shape|].
  unfold normalize, Trim. apply TrimRight_no_trailing_dash.
Qed.

(** The names [normalize] leaves as they are are the canonical ones:
    a name made of lower-case letters, digits and single dashes between them
    is kept, and any other name is changed. *)
Theorem normalize_keeps_canonical_names (unicode_lower : bytes -> bytes) (s : bytes) :
  normalize unicode_lower s = s <-> canonical s = true.
Proof.
  split.
  - intros H. rewrite <- H. apply normalize_canonical.
  - intros H. apply canonical_shape in H. destruct H as [Hs He].
    unfold normalize, Trim, ReplaceAllString.
    rewrite (ToLower_fix unicode_lower false s Hs).
    rewrite (replace_runs_fix (d := false) (in_run := false) s Hs) by discriminate.
    rewrite (TrimLeft_fix s Hs). apply TrimRight_fix, He.
Qed.

(** Every cluster [NewCluster] returns has a canonical name, whatever name
    it was given and whatever the Unicode tables do. *)
Theorem NewCluster_name_is_canonical
    (unicode_lower : bytes -> bytes) (NewForConfig : Clientset -> Config -> option error)
    (given : bytes) (restConfig : Config) (c : Cluster) :
  NewCluster unicode_lower NewForConfig given restConfig = Ok c ->
  canonical (name c) = true.
Proof.
  unfold NewCluster. destruct (first_error _ _ _); [discriminate|].
  intros H. injection H as <-. apply normalize_canonical.
Qed.

Lemma NewCluster_name_is_canonical_witness :
  canonical (str "prod-eu-1") = true.
Proof.
  apply (@NewCluster_name_is_canonical (fun s => s) no_error (str "  PROD / eu__1 ")
           (mkConfig (str "https://k8s.local"))
           (mkCluster (mkCache [] zero_Time) (mkConfig (str "https://k8s.local"))
                      (str "prod-eu-1") [])).
  reflexivity.
Defined.

Lemma replace_runs_no_slug_char in_run s :
  no_slug_char s = true ->
  replace_runs in_run s = if in_run then [] else match s with [] => [] | _ => [dash] end.
Proof.
  unfold no_slug_char. revert in_run.
  induction s as [|c s IH]; intros in_run H; [destruct in_run; reflexivity|].
  cbn [forallb] in H. apply andb_true_iff in H. destruct H as [Hc H].
  apply negb_true_iff in Hc. cbn [replace_runs]. rewrite Hc.
  destruct in_run; rewrite (IH true H); reflexivity.
Qed.

Lemma replace_runs_nil_no_slug_char in_run s :
  TrimLeft (replace_runs in_run s) = [] -> no_slug_char s = true.
Proof.
  unfold no_slug_char. revert in_run.
  induction s as [|c s IH]; intros in_run H; [reflexivity|].
  cbn [replace_runs] in H. cbn [forallb].
  destruct (is_slug_char c) eqn:Hc.
  - cbn [TrimLeft] in H. destruct (slug_char_facts c Hc) as (Hn & _ & _).
    destruct (ascii_dec c dash); [contradiction | discriminate].
  - cbn [negb andb]. destruct in_run.
    + apply (IH true), H.
    + cbn [TrimLeft] in H. destruct (ascii_dec dash dash); [|congruence].
      apply (IH true), H.
Qed.

Lemma TrimRight_nil_slug s :
  slug_shape false s = true -> TrimRight s = [] -> s = [].
Proof.
  destruct s as [|c s]; [reflexivity|]. intros Hs H. exfalso.
  cbn [slug_shape] in Hs. cbn [TrimRight] in H.
  destruct (TrimRight s); [|discriminate].
  destruct (ascii_dec c dash) as [->|]; [|discriminate].
  destruct dash_facts as [Hd _]. rewrite Hd in Hs. discriminate.
Qed.

Lemma first_error_none (NewForConfig : Clientset -> Config -> option error)
    (restConfig : Config) (l : list Clientset) :
  (forall k, NewForConfig k restConfig = None) ->
  first_error NewForConfig l restConfig = None.
Proof.
  intros H. induction l as [|k l IH]; cbn [first_error]; [reflexivity|].
  now rewrite H.
Qed.

(** [NewCluster] turns no name away: whenever the five client sets can be
    built it returns a cluster, whatever the name, and that cluster has the
    empty name exactly when the given name, once lower-cased, has no letter
    of [a-z] and no digit (an empty name, punctuation only, or a script
    other than Latin). *)
Theorem NewCluster_empty_name
    (unicode_lower : bytes -> bytes) (NewForConfig : Clientset -> Config -> option error)
    (given : bytes) (restConfig : Config) :
  (forall k, NewForConfig k restConfig = None) ->
  exists c,
    NewCluster unicode_lower NewForConfig given restConfig = Ok c /\
    (name c = [] <-> no_slug_char (ToLower unicode_lower given) = true).
Proof.
  intros Hclients. unfold NewCluster.
  rewrite (first_error_none NewForConfig restConfig _ Hclients).
  eexists. split; [reflexivity|]. cbn [name].
  unfold normalize, Trim, ReplaceAllString. split.
  - intros H. apply TrimRight_nil_slug in H.
    + apply (replace_runs_nil_no_slug_char false), H.
    + apply (TrimLeft_shape true), (replace_runs_shape false).
  - intros H. rewrite (replace_runs_no_slug_char false _ H).
    destruct (ToLower unicode_lower given); [reflexivity|].
    cbn. destruct (ascii_dec dash dash); [reflexivity | congruence].
Qed.

Lemma NewCluster_empty_name_witness :
  exists c,
    NewCluster (fun s => s) no_error (str "__ (?) __") (mkConfig (str "https://k8s.local"))
    = Ok c /\
    (name c = [] <-> no_slug_char (ToLower (fun s => s) (str "__ (?) __")) = true).
Proof.
  apply (@NewCluster_empty_name (fun s => s) no_error (str "__ (?) __")
           (mkConfig (str "https://k8s.local"))).
  reflexivity.
Defined.

(** ** The time spent waiting for the definitions *)

Lemma sum_app (a b : list Z) :
  fold_right Z.add 0%Z (a ++ b) = (fold_right Z.add 0 a + fold_right Z.add 0 b)%Z.
Proof. induction a as [|x a IH]; cbn [app fold_right]; [reflexivity | rewrite IH; lia]. Qed.

Lemma backoff_sum size n :
  n <= exact_sleeps size ->
  fold_right Z.add 0%Z (map (backoff_sleep size) (seq 0 n))
  = (30 * (2 ^ Z.of_nat n - 1) * Second)%Z.
Proof.
  induction n as [|n IH]; intros Hn; [reflexivity|].
  rewrite seq_S, map_app, sum_app, IH by lia. cbn [Nat.add map fold_right].
  rewrite backoff_sleep_exact by lia.
  rewrite Nat2Z.inj_succ, Z.pow_succ_r by lia. lia.
Qed.

(** While the requests for the definitions fail, the pauses add up as a
    geometric series: after [n] failures, [loadCRDs] has slept
    [30 * (2^n - 1)] seconds in all (30 s, 90 s, 210 s, ...), has made [n]
    requests and is about to make the next one.  This holds for [n] up to
    27 whatever the width of [int], and for [n] up to 29 where [int] is 64
    bits wide. *)
Theorem loadCRDs_total_wait (int_size : IntSize)
    (json_Unmarshal : bytes -> result CustomResourceDefinitionList)
    (c : Cluster) (w : World) (n : nat) :
  n <= (match int_size with Int32bit => 27 | Int64bit => 29 end) ->
  (forall k, k < n ->
             attempt_fails json_Unmarshal w (List.length (calls w) + k) = true) ->
  let out := loadCRDs int_size json_Unmarshal n c w in
  total_sleep (snd out) = (total_sleep w + 30 * (2 ^ Z.of_nat n - 1) * Second)%Z /\
  List.length (calls (snd out)) = List.length (calls w) + n /\
  fst (fst out) <> None.
Proof.
  intros Hn Hfail. cbv zeta. unfold loadCRDs.
  rewrite (@loadCRDs_from_failures int_size json_Unmarshal n 30%Z c w Hfail).
  cbn [fst snd]. unfold total_sleep. rewrite after_failures_slept, sum_app.
  rewrite backoff_sum by exact Hn. split; [reflexivity|]. split; [|discriminate].
  unfold after_failures. cbn [calls]. rewrite length_app, repeat_length. reflexivity.
Qed.

Lemma loadCRDs_total_wait_witness :
  let out := loadCRDs Int32bit demo_Unmarshal 3 (demo_cluster [] 0%Z) (crds_world 3) in
  total_sleep (snd out) = (210 * Second)%Z /\
  List.length (calls (snd out)) = 3 /\
  fst (fst out) <> None.
Proof.
  cbv zeta.
  apply (@loadCRDs_total_wait Int32bit demo_Unmarshal (demo_cluster [] 0%Z)
           (crds_world 3) 3).
  - lia.
  - intros k Hk.
    destruct k as [|[|[|k]]]; [reflexivity | reflexivity | reflexivity | lia].
Defined.

(** ** The custom resources of kobs *)

Lemma fold_append_map (A B : Type) (f : A -> B) (l : list A) (acc : list B) :
  fold_left (fun acc a => acc ++ [f a]) l acc = acc ++ map f l.
Proof.
  revert acc. induction l as [|a l IH]; intros acc; cbn [fold_left map].
  - now rewrite app_nil_r.
  - rewrite IH, <- app_assoc. reflexivity.
Qed.

(** Listing and getting agree: when the cluster returns for a namespace and
    a name the application its listing shows under them, the spec
    [GetApplication] returns for that namespace and name is one of the specs
    [GetApplications] returns, also when the listing ran over all
    namespaces.  Every spec of the listing carries the name of the cluster,
    whatever the resource said. *)
Theorem GetApplication_agrees_with_GetApplications (ApplicationFields : Type)
    (Applications_List : bytes -> result (ApplicationList ApplicationFields))
    (Applications_Get : bytes -> bytes -> result (Application ApplicationFields))
    (c : Cluster) (namespace : bytes)
    (l : ApplicationList ApplicationFields) (item : Application ApplicationFields) :
  Applications_List namespace = Ok l ->
  In item (app_Items l) ->
  Applications_Get (app_meta_Namespace item) (app_meta_Name item) = Ok item ->
  exists specs spec,
    GetApplications Applications_List c namespace = Ok specs /\
    GetApplication Applications_Get c (app_meta_Namespace item) (app_meta_Name item)
    = Ok spec /\
    In spec specs /\
    List.length specs = List.length (app_Items l) /\
    Forall (fun s => app_Cluster s = name c) specs.
Proof.
  intros Hlist Hin Hget. unfold GetApplications, GetApplication.
  rewrite Hlist, Hget.
  rewrite (fold_append_map
             (fun i => mkApplicationSpec (name c) (app_meta_Namespace i)
                                         (app_meta_Name i) (app_fields (app_Spec i)))).
  cbn [app]. eexists. eexists. split; [reflexivity|]. split; [reflexivity|].
  split; [|split].
  - apply (in_map (fun i => mkApplicationSpec (name c) (app_meta_Namespace i)
                                               (app_meta_Name i)
                                               (app_fields (app_Spec i)))), Hin.
  - apply length_map.
  - apply Forall_forall. intros s Hs. apply in_map_iff in Hs.
    destruct Hs as (i & <- & _). reflexivity.
Qed.

Lemma GetApplication_agrees_with_GetApplications_witness :
  let listed := mkApplication (str "shop") (str "cart")
                  (mkApplicationSpec (str "typo") [] (str "Cart") 7) in
  let c := demo_cluster [] 0%Z in
  exists specs spec,
    GetApplications (fun _ => Ok (mkApplicationList [listed])) c [] = Ok specs /\
    GetApplication (fun _ _ => Ok listed) c (str "shop") (str "cart") = Ok spec /\
    In spec specs /\
    List.length specs = 1 /\
    Forall (fun s => app_Cluster s = name c) specs.
Proof.
  cbv zeta.
  apply (@GetApplication_agrees_with_GetApplications nat
           (fun _ => Ok (mkApplicationList
                           [mkApplication (str "shop") (str "cart")
                              (mkApplicationSpec (str "typo") [] (str "Cart") 7)]))
           (fun _ _ => Ok (mkApplication (str "shop") (str "cart")
                             (mkApplicationSpec (str "typo") [] (str "Cart") 7)))
           (demo_cluster [] 0%Z) []
           (mkApplicationList
              [mkApplication (str "shop") (str "cart")
                 (mkApplicationSpec (str "typo") [] (str "Cart") 7)])
           (mkApplication (str "shop") (str "cart")
              (mkApplicationSpec (str "typo") [] (str "Cart") 7))).
  - reflexivity.
  - left. reflexivity.
  - reflexivity.
Defined.

(** A dashboard is always shown under the name of its resource: the titles
    of the dashboards [GetDashboards] returns are the names of the listed
    resources, in their order, and the dashboard [GetDashboard] returns has
    the name asked for as its title; a title written in the spec is never
    passed on. *)
Theorem GetDashboards_title_is_resource_name (DashboardFields : Type)
    (Dashboards_List : bytes -> result (DashboardList DashboardFields))
    (Dashboards_Get : bytes -> bytes -> result (Dashboard DashboardFields))
    (c : Cluster) (namespace name_ : bytes) :
  (forall l,
      Dashboards_List namespace = Ok l ->
      exists dashboards,
        GetDashboards Dashboards_List c namespace = Ok dashboards /\
        map (@dash_Title _) dashboards = map (@dash_meta_Name _) (dash_Items l) /\
        map (@dash_fields _) dashboards
        = map (fun i => dash_fields (dash_Spec i)) (dash_Items l) /\
        Forall (fun d => dash_Title d = dash_Name d /\ dash_Cluster d = name c)
               dashboards) /\
  (forall dashboardCR,
      Dashboards_Get namespace name_ = Ok dashboardCR ->
      exists dashboard,
        GetDashboard Dashboards_Get c namespace name_ = Ok dashboard /\
        dash_Title dashboard = name_ /\ dash_Name dashboard = name_ /\
        dash_Namespace dashboard = namespace /\ dash_Cluster dashboard = name c /\
        dash_fields dashboard = dash_fields (dash_Spec dashboardCR)).
Proof.
  split.
  - intros l Hl. unfold GetDashboards. rewrite Hl.
    rewrite (fold_append_map
               (fun i => mkDashboardSpec (name c) (dash_meta_Namespace i)
                                         (dash_meta_Name i) (dash_meta_Name i)
                                         (dash_fields (dash_Spec i)))).
    cbn [app]. eexists. split; [reflexivity|].
    rewrite !map_map. cbn [dash_Title dash_fields].
    split; [reflexivity|]. split; [reflexivity|].
    apply Forall_forall. intros d Hd. apply in_map_iff in Hd.
    destruct Hd as (i & <- & _). split; reflexivity.
  - intros d Hd. unfold GetDashboard. rewrite Hd.
    eexists. split; [reflexivity|]. repeat split.
Qed.

Lemma GetDashboards_title_is_resource_name_witness :
  let listed := mkDashboard (str "monitoring") (str "nodes")
                  (mkDashboardSpec [] [] [] (str "Node overview") 3) in
  exists dashboards,
    GetDashboards (fun _ => Ok (mkDashboardList [listed])) (demo_cluster [] 0%Z)
                  (str "monitoring") = Ok dashboards /\
    map (@dash_Title _) dashboards = [str "nodes"].
Proof.
  cbv zeta.
  destruct (@GetDashboards_title_is_resource_name nat
              (fun _ => Ok (mkDashboardList
                              [mkDashboard (str "monitoring") (str "nodes")
                                 (mkDashboardSpec [] [] [] (str "Node overview") 3)]))
              (fun _ _ => Err EOF) (demo_cluster [] 0%Z) (str "monitoring") [])
    as [Hlist _].
  destruct (Hlist _ eq_refl) as (dashboards & Hd & Ht & _).
  exists dashboards. split; [exact Hd | exact Ht].
Defined.

(** ** The instances of the ClickHouse plugin *)

(** [getInstance] returns the first instance of the given name in the order
    of the configuration, and nothing exactly when no instance has the name:
    of two instances configured under one name the second is never
    returned. *)
Theorem getInstance_first_of_name (Instance : Type) (Name : Instance -> bytes)
    (instances : list Instance) (name_ : bytes) :
  match clickhouse.getInstance Name instances name_ with
  | Some i =>
      exists before after,
        instances = before ++ i :: after /\
        Name i = name_ /\
        Forall (fun j => Name j <> name_) before
  | None => Forall (fun j => Name j <> name_) instances
  end.
Proof.
  induction instances as [|i instances IH]; cbn [clickhouse.getInstance].
  - constructor.
  - destruct (bytes_eqb (Name i) name_) eqn:E.
    + apply bytes_eqb_eq in E. exists [], instances. repeat split; [exact E | constructor].
    + assert (Name i <> name_) as Hn.
      { intros H. apply bytes_eqb_eq in H. congruence. }
      destruct (clickhouse.getInstance Name instances name_) as [j|].
      * destruct IH as (before & after & -> & Hj & Hb).
        exists (i :: before), after. repeat split; [exact Hj | constructor; assumption].
      * constructor; assumption.
Qed.

(** ** One-shot and streamed logs side by side *)

Lemma Split_split_terminated s : forall cur,
  index_byte s cr = None ->
  ends_with nl s = true ->
  prefix_first cur (Split s nl) = split_terminated cur s ++ [[]].
Proof.
  induction s as [|c s IH]; intros cur Hcr Hend; [discriminate|].
  assert (index_byte s cr = None /\ c <> cr) as [Hcr' Hc].
  { cbn [index_byte] in Hcr. destruct (ascii_dec c cr); [discriminate|].
    destruct (index_byte s cr); [discriminate|]. split; [reflexivity | assumption]. }
  cbn [split_terminated]. destruct (ascii_dec c nl) as [->|Hn].
  - rewrite Split_cons_sep. unfold prefix_first. cbn [hd tl app].
    rewrite app_nil_r. f_equal.
    destruct s as [|c' s']; [reflexivity|].
    rewrite ends_with_cons in Hend. rewrite <- (IH [] Hcr' Hend).
    unfold prefix_first. cbn [app].
    pose proof (@Split_nonempty (c' :: s') nl) as Hs.
    destruct (Split (c' :: s') nl); [contradiction | reflexivity].
  - destruct (ascii_dec c cr); [contradiction|].
    destruct s as [|c' s'].
    { change (ends_with nl [c]) with (if ascii_dec c nl then true else false) in Hend.
      destruct (ascii_dec c nl); [contradiction | discriminate]. }
    rewrite ends_with_cons in Hend. rewrite <- (IH (cur ++ [c]) Hcr' Hend).
    rewrite Split_cons_other by assumption.
    unfold prefix_first. cbn [hd tl]. rewrite <- app_assoc. reflexivity.
Qed.

Lemma Join_closed_lines (msgs : list bytes) (sep : bytes) :
  Join (msgs ++ [[]]) sep = flat_map (fun m => m ++ sep) msgs.
Proof.
  induction msgs as [|m msgs IH]; [reflexivity|].
  cbn [app flat_map]. rewrite Join_cons by (destruct msgs; discriminate).
  rewrite IH, <- app_assoc. reflexivity.
Qed.

(** The two ways to read a log agree.  For a log without carriage returns
    whose lines all end in a newline, the text [GetLogs] returns without a
    filter is the messages [StreamLogs] writes for the same log, each
    followed by the terminator of the package, and one terminator more for
    the empty piece after the last newline. *)
Theorem GetLogs_agrees_with_StreamLogs (Regexp : Type)
    (regexp_Compile : bytes -> result Regexp) (MatchString : Regexp -> bytes -> bool)
    (c : Cluster) (w w' : World) (conn : Conn)
    (namespace name container : bytes) (since tail : Z) (previous follow : bool)
    (payload : bytes) (stream : Stream) (fuel : nat) :
  answer w (List.length (calls w))
         (PodLogsDoRaw namespace name (GetLogs_options container since tail previous))
  = (payload, None) ->
  answer w' (List.length (calls w'))
         (PodLogsStream namespace name (StreamLogs_options container since tail follow))
  = Ok stream ->
  List.concat (chunks stream) = payload ->
  Forall (fun chunk => chunk <> []) (chunks stream) ->
  end_error stream <> ErrBufferFull ->
  newline_terminated payload ->
  index_byte payload cr = None ->
  writes_left conn = None ->
  List.length payload < fuel ->
  exists messages,
    fst (StreamLogs fuel c conn namespace name container since tail follow w')
    = Some (end_error stream, mkConn (written conn ++ messages) None) /\
    fst (GetLogs regexp_Compile MatchString c namespace name container [] since tail
                 previous w)
    = Ok (flat_map (fun m => m ++ line_end) messages ++ line_end).
Proof.
  intros Hraw Hstream <- Hne Hend Hterm Hcr Hconn Hfuel.
  exists (split_lines (List.concat (chunks stream))). split.
  - apply StreamLogs_writes_lines; assumption.
  - unfold GetLogs, bind, call, ret. cbn [calls answer fst snd]. rewrite Hraw.
    cbn [fst snd is_empty]. rewrite all_lines_Split. do 2 f_equal.
    rewrite <- Join_closed_lines. f_equal. unfold split_lines.
    destruct Hterm as [He|Hnl].
    + rewrite He. reflexivity.
    + rewrite <- (@Split_split_terminated (List.concat (chunks stream)) [] Hcr Hnl).
      unfold prefix_first.
      pose proof (@Split_nonempty (List.concat (chunks stream)) nl) as Hs.
      destruct (Split (List.concat (chunks stream)) nl); [contradiction | reflexivity].
Qed.

Lemma GetLogs_agrees_with_StreamLogs_witness :
  exists messages,
    fst (StreamLogs 100 (demo_cluster [] 0%Z) open_conn (str "ns") (str "pod") (str "app")
                    0 0 true
                    (stream_world
                       (Ok (eof_with [str "up" ++ [nl] ++ str "re"; str "ady" ++ [nl]]))))
    = Some (EOF, mkConn ([] ++ messages) None) /\
    fst (GetLogs (fun _ => Err EOF) (fun (_ : unit) _ => false) (demo_cluster [] 0%Z)
                 (str "ns") (str "pod") (str "app") [] 0 0 false
                 (logs_world (str "up" ++ [nl] ++ str "ready" ++ [nl], None)))
    = Ok (flat_map (fun m => m ++ line_end) messages ++ line_end).
Proof.
  apply (@GetLogs_agrees_with_StreamLogs unit (fun _ => Err EOF) (fun _ _ => false)
           (demo_cluster [] 0%Z)
           (logs_world (str "up" ++ [nl] ++ str "ready" ++ [nl], None))
           (stream_world (Ok (eof_with [str "up" ++ [nl] ++ str "re"; str "ady" ++ [nl]])))
           open_conn (str "ns") (str "pod") (str "app") 0%Z 0%Z false true
           (str "up" ++ [nl] ++ str "ready" ++ [nl])
           (eof_with [str "up" ++ [nl] ++ str "re"; str "ady" ++ [nl]]) 100);
    try reflexivity.
  - repeat constructor; discriminate.
  - discriminate.
  - right. reflexivity.
  - cbn. lia.
Defined.

(** ** The chart of traces *)

Lemma least_of_nil (A : Type) (f : A -> Z) m : least_of f m m [].
Proof. repeat split; [lia | constructor | now left]. Qed.

Lemma greatest_of_nil (A : Type) (f : A -> Z) m : greatest_of f m m [].
Proof. repeat split; [lia | constructor | now left]. Qed.

Lemma least_of_cons (A : Type) (f : A -> Z) m0 m t ts :
  least_of f (if (f t <? m0)%Z then f t else m0) m ts -> least_of f m0 m (t :: ts).
Proof.
  intros (Hle & Hall & Hex).
  destruct (Z.ltb_spec (f t) m0) as [Hlt|Hge].
  - repeat split; [lia | constructor; [lia | exact Hall] |].
    destruct Hex as [->|Hex]; right; [left; reflexivity | right; exact Hex].
  - repeat split; [lia | constructor; [lia | exact Hall] |].
    destruct Hex as [->|Hex]; [left; reflexivity | right; right; exact Hex].
Qed.

Lemma greatest_of_cons (A : Type) (f : A -> Z) m0 m t ts :
  greatest_of f (if (m0 <? f t)%Z then f t else m0) m ts ->
  greatest_of f m0 m (t :: ts).
Proof.
  intros (Hle & Hall & Hex).
  destruct (Z.ltb_spec m0 (f t)) as [Hlt|Hge].
  - repeat split; [lia | constructor; [lia | exact Hall] |].
    destruct Hex as [->|Hex]; right; [left; reflexivity | right; exact Hex].
  - repeat split; [lia | constructor; [lia | exact Hall] |].
    destruct Hex as [->|Hex]; [left; reflexivity | right; right; exact Hex].
Qed.

Lemma forEach_bounds (Number : Type) (div1000 : Z -> Number) traces :
  forall index p p',
    index <> 0 ->
    TracesChart.forEach div1000 traces index p = Some p' ->
    least_of TracesChart.spans_length
             (TracesChart.minimalSpans p) (TracesChart.minimalSpans p') traces /\
    greatest_of TracesChart.spans_length
                (TracesChart.maximalSpans p) (TracesChart.maximalSpans p') traces /\
    least_of TracesChart.startTime
             (TracesChart.firstTime p) (TracesChart.firstTime p') traces /\
    greatest_of TracesChart.startTime
                (TracesChart.lastTime p) (TracesChart.lastTime p') traces.
Proof.
  induction traces as [|t ts IH]; intros index p p' Hindex H.
  - cbn in H. injection H as <-.
    repeat split; try lia; try constructor; now left.
  - cbn [TracesChart.forEach] in H.
    destruct (TracesChart.visit div1000 p t index) as [p1|] eqn:Hv; [|discriminate].
    unfold TracesChart.visit in Hv.
    destruct (TracesChart.spans t) as [|span0 rest]; [discriminate|].
    apply Nat.eqb_neq in Hindex. rewrite Hindex, !orb_false_r in Hv.
    injection Hv as <-.
    destruct (IH (S index) _ p' (Nat.neq_succ_0 index) H) as (H1 & H2 & H3 & H4).
    cbn [TracesChart.minimalSpans TracesChart.maximalSpans TracesChart.firstTime
         TracesChart.lastTime] in H1, H2, H3, H4.
    split; [|split; [|split]];
      first [apply least_of_cons; assumption | apply greatest_of_cons; assumption].
Qed.

(** The bounds the chart is drawn with are right.  For a list of traces that
    is not empty, when the pass returns: every trace has between [min] and
    [max] spans and starts between [first] and [last], and each of the four
    bounds is the value of one of the traces. *)
Theorem TracesChart_bounds (Number : Type) (div1000 : Z -> Number)
    (sort_by_x : list (TracesChart.IDatum Number) -> list (TracesChart.IDatum Number))
    (traces : list TracesChart.ITrace) (out : TracesChart.Chart Number) :
  traces <> [] ->
  Forall (fun t => (TracesChart.spans_length t < TracesChart.MAX_SAFE_INTEGER)%Z)
         traces ->
  TracesChart.chart div1000 sort_by_x traces = Some out ->
  Forall (fun t =>
            (TracesChart.min out <= TracesChart.spans_length t <= TracesChart.max out)%Z
            /\ (TracesChart.first out <= TracesChart.startTime t
                <= TracesChart.last out)%Z) traces /\
  Exists (fun t => TracesChart.spans_length t = TracesChart.min out) traces /\
  Exists (fun t => TracesChart.spans_length t = TracesChart.max out) traces /\
  Exists (fun t => TracesChart.startTime t = TracesChart.first out) traces /\
  Exists (fun t => TracesChart.startTime t = TracesChart.last out) traces.
Proof.
  intros Hne Hlen H. unfold TracesChart.chart in H.
  destruct (TracesChart.forEach _ _ _ _) as [p|] eqn:Hp; [|discriminate].
  injection H as <-.
  cbn [TracesChart.min TracesChart.max TracesChart.first TracesChart.last].
  assert (least_of TracesChart.spans_length TracesChart.MAX_SAFE_INTEGER
                   (TracesChart.minimalSpans p) traces /\
          greatest_of TracesChart.spans_length 0%Z (TracesChart.maximalSpans p) traces /\
          (exists t0 ts, traces = t0 :: ts /\
             least_of TracesChart.startTime (TracesChart.startTime t0)
                      (TracesChart.firstTime p) ts /\
             greatest_of TracesChart.startTime (TracesChart.startTime t0)
                         (TracesChart.lastTime p) ts))
    as (Hmin & Hmax & t0 & ts & -> & Hfirst & Hlast).
  { destruct traces as [|t0 ts]; [contradiction|].
    cbn [TracesChart.forEach] in Hp.
    destruct (TracesChart.visit div1000 _ t0 0) as [p1|] eqn:Hv; [|discriminate].
    unfold TracesChart.visit in Hv.
    destruct (TracesChart.spans t0) as [|span0 rest] eqn:Hs; [discriminate|].
    cbn [Nat.eqb] in Hv. rewrite !orb_true_r in Hv.
    cbn [TracesChart.minimalSpans TracesChart.maximalSpans TracesChart.firstTime
         TracesChart.lastTime] in Hv.
    injection Hv as <-.
    destruct (@forEach_bounds Number div1000 ts 1 _ p (Nat.neq_succ_0 0) Hp)
      as (H1 & H2 & H3 & H4).
    cbn [TracesChart.minimalSpans TracesChart.maximalSpans TracesChart.firstTime
         TracesChart.lastTime] in H1, H2, H3, H4.
    split; [apply least_of_cons; exact H1|].
    split; [apply greatest_of_cons; exact H2|].
    exists t0, ts. split; [reflexivity|]. split; assumption. }
  destruct Hmin as (_ & Hmin & Emin), Hmax as (_ & Hmax & Emax).
  destruct Hfirst as (Hf0 & Hfirst & Efirst), Hlast as (Hl0 & Hlast & Elast).
  assert (Forall (fun t => (0 <= TracesChart.spans_length t)%Z) (t0 :: ts)) as Hpos.
  { apply Forall_forall. intros t _. unfold TracesChart.spans_length. lia. }
  split; [|split; [|split; [|split]]].
  - rewrite Forall_forall in *. intros t Ht.
    specialize (Hmin t Ht). specialize (Hmax t Ht).
    destruct Ht as [<-|Ht]; [lia|].
    specialize (Hfirst t Ht). specialize (Hlast t Ht). lia.
  - destruct Emin as [E|E]; [|exact E]. exfalso.
    rewrite Forall_forall in Hlen, Hmin.
    specialize (Hlen t0 (or_introl eq_refl)). specialize (Hmin t0 (or_introl eq_refl)).
    lia.
  - destruct Emax as [E|E]; [|exact E].
    rewrite Forall_forall in Hpos, Hmax.
    specialize (Hpos t0 (or_introl eq_refl)). specialize (Hmax t0 (or_introl eq_refl)).
    left. lia.
  - destruct Efirst as [E|E]; [left; congruence | right; exact E].
  - destruct Elast as [E|E]; [left; congruence | right; exact E].
Qed.

Lemma TracesChart_bounds_witness :
  let quick := TracesChart.mkTrace (str "GET /") [TracesChart.mkSpan 5000] 5000 120 in
  let slow := TracesChart.mkTrace (str "POST /order")
                [TracesChart.mkSpan 2000; TracesChart.mkSpan 2100; TracesChart.mkSpan 2300]
                2000 900 in
  Exists (fun t => TracesChart.spans_length t = 1%Z) [quick; slow] /\
  Exists (fun t => TracesChart.spans_length t = 3%Z) [quick; slow] /\
  Exists (fun t => TracesChart.startTime t = 2000%Z) [quick; slow] /\
  Exists (fun t => TracesChart.startTime t = 5000%Z) [quick; slow].
Proof.
  cbv zeta.
  apply (@TracesChart_bounds Z (fun d => d) (fun l => l)
           [TracesChart.mkTrace (str "GET /") [TracesChart.mkSpan 5000] 5000 120;
            TracesChart.mkTrace (str "POST /order")
              [TracesChart.mkSpan 2000; TracesChart.mkSpan 2100;
               TracesChart.mkSpan 2300] 2000 900]
           (TracesChart.mkChart 2000 5000 3 1
              [TracesChart.mkDatum (str "GET /") 1
                 (TracesChart.mkTrace (str "GET /") [TracesChart.mkSpan 5000] 5000 120)
                 5 120%Z;
               TracesChart.mkDatum (str "POST /order") 3
                 (TracesChart.mkTrace (str "POST /order")
                    [TracesChart.mkSpan 2000; TracesChart.mkSpan 2100;
                     TracesChart.mkSpan 2300] 2000 900)
                 2 900%Z])).
  - discriminate.
  - repeat constructor.
  - reflexivity.
Defined.

Lemma forEach_throws (Number : Type) (div1000 : Z -> Number) traces :
  forall index p,
    TracesChart.forEach div1000 traces index p = None
    <-> Exists (fun t => TracesChart.spans t = []) traces.
Proof.
  induction traces as [|t ts IH]; intros index p.
  - cbn. split; [discriminate | intros H; inversion H].
  - cbn [TracesChart.forEach]. unfold TracesChart.visit.
    destruct (TracesChart.spans t) as [|span0 rest] eqn:Hs.
    + split; [intros _; left; exact Hs | reflexivity].
    + rewrite IH. split; [intros H; right; exact H|].
      intros H. inversion H as [? ? Ht|? ? Ht]; subst; [congruence | exact Ht].
Qed.

(** The pass throws exactly when one of the traces has no span: one such
    trace anywhere in the list leaves the chart without data and bounds,
    and a list in which every trace has a span always gives a chart. *)
Theorem TracesChart_needs_spans (Number : Type) (div1000 : Z -> Number)
    (sort_by_x : list (TracesChart.IDatum Number) -> list (TracesChart.IDatum Number))
    (traces : list TracesChart.ITrace) :
  TracesChart.chart div1000 sort_by_x traces = None
  <-> Exists (fun t => TracesChart.spans t = []) traces.
Proof.
  unfold TracesChart.chart. rewrite <- (forEach_throws div1000 traces 0
    (TracesChart.mkPass TracesChart.MAX_SAFE_INTEGER 0 0 0 [])).
  destruct (TracesChart.forEach _ _ _ _); split; congruence.
Qed.
